(** * CompGraph: rows, grouping, stock operators and the merge join

    A shallow embedding of [lib/groups.py] and [lib/operations.py].

    - A Python [dict] keeps insertion order and the row-merge helper and
      [TermFrequency] iterate over it, so a row is an association list with
      [dict_set] replacing in place or appending at the end.
    - Mappers write into the row object they receive, so they are run
      against a store of row objects ([gmap loc TRow]).
    - A generator is embedded by the list of the rows it yields when it is
      driven to exhaustion; an exception anywhere makes the whole result
      [Raise]. When several exceptions are possible in one run, the one
      reported is that of the eager order of evaluation.
    - The [while] loops over a [GroupsCreator] take a [fuel] argument and
      return [None] when it runs out; the statements give the fuel that
      suffices.
    - Strings are sequences of code points below 256. Values are integers
      and strings. Floating-point results are not represented: the
      arithmetic that produces them is a parameter ([float_ops]) and no
      statement depends on the value it returns. *)

From stdpp Require Import base option list strings gmap.
From Stdlib Require Import ZArith Ascii String Sorted.

Local Open Scope string_scope.
Local Open Scope list_scope.
Local Open Scope Z_scope.

(** ** Values and exceptions *)

Inductive value :=
  | VInt (n : Z)
  | VStr (s : string).

#[global] Instance value_eq_dec : EqDecision value.
Proof. solve_decision. Defined.

Inductive exn :=
  | KeyError (k : string)
  | TypeError
  | AttributeError
  | ValueError
  | IndexError
  | ZeroDivisionError
  | NameError
  | DanglingRef.

Inductive outcome (A : Type) :=
  | Ok (a : A)
  | Raise (e : exn).
Arguments Ok {A} a.
Arguments Raise {A} e.

#[global] Instance outcome_ret : MRet outcome := fun A a => Ok a.

#[global] Instance outcome_bind : MBind outcome := fun A B f x =>
  match x with
  | Ok a => f a
  | Raise e => Raise e
  end.

Definition is_ok {A} (x : outcome A) : bool :=
  match x with Ok _ => true | Raise _ => false end.

Definition raises {A} (x : outcome A) : Prop := ∃ e, x = Raise e.

Fixpoint mapM_out {A B} (f : A → outcome B) (l : list A) : outcome (list B) :=
  match l with
  | [] => Ok []
  | a :: l' => b ← f a; bs ← mapM_out f l'; Ok (b :: bs)
  end.

(** ** Rows: insertion-ordered dictionaries *)

Definition TRow := list (string * value).

Definition empty_row : TRow := [].

Fixpoint dict_get (k : string) (d : TRow) : option value :=
  match d with
  | [] => None
  | (k', v) :: d' => if decide (k = k') then Some v else dict_get k d'
  end.

Definition dict_mem (k : string) (d : TRow) : bool :=
  match dict_get k d with Some _ => true | None => false end.

(** [d[k] = v]: an existing key keeps its position, a new key goes last. *)
Fixpoint dict_set (k : string) (v : value) (d : TRow) : TRow :=
  match d with
  | [] => [(k, v)]
  | (k', v') :: d' =>
      if decide (k = k') then (k, v) :: d' else (k', v') :: dict_set k v d'
  end.

(** [d[k]], raising [KeyError] on a missing key. *)
Definition dict_item (k : string) (d : TRow) : outcome value :=
  match dict_get k d with
  | Some v => Ok v
  | None => Raise (KeyError k)
  end.

(** [d.get(k, dflt)] *)
Definition dict_get_default (k : string) (dflt : value) (d : TRow) : value :=
  match dict_get k d with
  | Some v => v
  | None => dflt
  end.

Definition dict_keys (d : TRow) : list string := d.*1.

(** A well-formed dictionary holds each key once. *)
Definition wf_row (d : TRow) : Prop := NoDup (dict_keys d).

(** ** Strings *)

Definition code (c : ascii) : Z := Z.of_nat (nat_of_ascii c).

Definition in_range (lo hi : Z) (c : ascii) : bool :=
  (lo <=? code c) && (code c <=? hi).

(** [string.punctuation] *)
Definition is_punctuation (c : ascii) : bool :=
  in_range 33 47 c || in_range 58 64 c || in_range 91 96 c || in_range 123 126 c.

(** [str.isspace] on one code point *)
Definition is_space (c : ascii) : bool :=
  in_range 9 13 c || in_range 28 32 c || (code c =? 133) || (code c =? 160).

Definition lower_char (c : ascii) : ascii :=
  if in_range 65 90 c || (in_range 192 222 c && negb (code c =? 215))
  then ascii_of_nat (nat_of_ascii c + 32)
  else c.

Fixpoint str_map (f : ascii → ascii) (s : string) : string :=
  match s with
  | EmptyString => EmptyString
  | String c s' => String (f c) (str_map f s')
  end.

Fixpoint str_filter (p : ascii → bool) (s : string) : string :=
  match s with
  | EmptyString => EmptyString
  | String c s' => if p c then String c (str_filter p s') else str_filter p s'
  end.

Fixpoint str_forall (p : ascii → bool) (s : string) : bool :=
  match s with
  | EmptyString => true
  | String c s' => p c && str_forall p s'
  end.

(** [s.lower()] on a string of code points below 256, where [str.lower]
    lowers each character on its own (the letters [A]-[Z] and [U+00C0]-[U+00DE]
    without the multiplication sign); the context-dependent lowering of
    characters beyond them, such as the Greek sigma, is outside this type. *)
Definition lower (s : string) : string := str_map lower_char s.

(** [s.translate(str.maketrans("", "", string.punctuation))] *)
Definition strip_punctuation (s : string) : string :=
  str_filter (fun c => negb (is_punctuation c)) s.

(** [s.split()] with no separator: maximal runs of non-whitespace. [tok] is
    the token being read. *)
Fixpoint split_ws_from (tok : string) (s : string) : list string :=
  match s with
  | EmptyString => if decide (tok = "") then [] else [tok]
  | String c s' =>
      if is_space c
      then (if decide (tok = "") then split_ws_from "" s'
            else tok :: split_ws_from "" s')
      else split_ws_from (tok +:+ String c "") s'
  end.

Definition split_ws (s : string) : list string := split_ws_from "" s.

(** [s.split(sep)] for a non-empty [sep]: [skip] counts the characters of a
    matched separator still to be passed over. *)
Fixpoint split_sep_go (sep : string) (skip : nat) (tok : string) (s : string)
  : list string :=
  match s with
  | EmptyString => [tok]
  | String c s' =>
      match skip with
      | S k => split_sep_go sep k tok s'
      | O =>
          if String.prefix sep s
          then tok :: split_sep_go sep (String.length sep - 1) "" s'
          else split_sep_go sep 0 (tok +:+ String c "") s'
      end
  end.

(** [s.split(separator)] *)
Definition py_split (separator : option string) (s : string)
  : outcome (list string) :=
  match separator with
  | None => Ok (split_ws s)
  | Some sep =>
      if decide (sep = "") then Raise ValueError
      else Ok (split_sep_go sep 0 "" s)
  end.

(** ** Operators on values *)

Fixpoint str_repeat (n : nat) (s : string) : string :=
  match n with
  | O => ""
  | S n' => s +:+ str_repeat n' s
  end.

(** [a * b] *)
Definition py_mul (a b : value) : outcome value :=
  match a, b with
  | VInt x, VInt y => Ok (VInt (x * y))
  | VInt x, VStr s => Ok (VStr (str_repeat (Z.to_nat x) s))
  | VStr s, VInt y => Ok (VStr (str_repeat (Z.to_nat y) s))
  | VStr _, VStr _ => Raise TypeError
  end.

(** [a + b] *)
Definition py_add (a b : value) : outcome value :=
  match a, b with
  | VInt x, VInt y => Ok (VInt (x + y))
  | VStr s, VStr t => Ok (VStr (s +:+ t))
  | _, _ => Raise TypeError
  end.

Fixpoint str_ltb (s t : string) : bool :=
  match s, t with
  | EmptyString, EmptyString => false
  | EmptyString, String _ _ => true
  | String _ _, EmptyString => false
  | String a s', String b t' =>
      if (code a <? code b) then true
      else if (code b <? code a) then false
      else str_ltb s' t'
  end.

(** [a < b] on integers and on strings, where it is a strict total order;
    a number does not compare with a string. Floats, with a [nan] that is
    neither smaller than, greater than nor equal to anything, are not
    values of this model. *)
Definition py_lt (a b : value) : outcome bool :=
  match a, b with
  | VInt x, VInt y => Ok (x <? y)
  | VStr s, VStr t => Ok (str_ltb s t)
  | _, _ => Raise TypeError
  end.

(** [a > b] *)
Definition py_gt (a b : value) : outcome bool := py_lt b a.

(** A method of [str] looked up on a value. *)
Definition as_str (v : value) : outcome string :=
  match v with
  | VStr s => Ok s
  | VInt _ => Raise AttributeError
  end.

(** The floating-point and date arithmetic of the numeric mappers and of
    [Mean] and [TermFrequency]. *)
Record float_ops := {
  log_ratio : value → value → outcome value;
  haversine_km : value → value → outcome value;
  week_day : value → outcome value;
  hour_of : value → outcome value;
  seconds_between : value → value → outcome value;
  speed_kmh : value → value → outcome value;
  true_div : value → Z → outcome value
}.

(** ** The store of row objects *)

Definition loc := nat.

Abbreviation heap := (gmap loc TRow).

(** A new [dict] object holding [r]. *)
Definition alloc (r : TRow) (h : heap) : loc * heap :=
  let l := fresh (dom h) in (l, <[l := r]> h).

Fixpoint alloc_all (rs : list TRow) (h : heap) : list loc * heap :=
  match rs with
  | [] => ([], h)
  | r :: rs' =>
      let '(l, h1) := alloc r h in
      let '(ls, h2) := alloc_all rs' h1 in
      (l :: ls, h2)
  end.

(** ** Mappers *)

Inductive Mapper :=
  | DummyMapper
  | FilterPunctuation (column : string)
  | LowerCase (column : string)
  | InverseFrequency (elements_amount_column encountered_elements_amount_column
                      res_row : string)
  | CalculateDistance (first_coordinate second_coordinate distance_column : string)
  | WeekDay (date_column week_day_column : string)
  | Hour (date_column hour_column : string)
  | TimeDelta (start_date_col end_date_col time_delta_column : string)
  | Speed (distance_column time_column speed_column : string)
  | Split (column : string) (separator : option string)
  | Product (columns : list string) (result_column : string)
  | Filter (condition : TRow → outcome bool)
  | Project (columns : list string).

(** The loop of [Product.__call__]: [row[result] *= row[column]] for each
    column, on the row as it stands; the second component is the row as the
    loop left it. *)
Fixpoint product_loop (result_column : string) (columns : list string)
  (row : TRow) : outcome unit * TRow :=
  match columns with
  | [] => (Ok (), row)
  | column :: rest =>
      match (acc ← dict_item result_column row;
             x ← dict_item column row;
             py_mul acc x) with
      | Ok v => product_loop result_column rest (dict_set result_column v row)
      | Raise e => (Raise e, row)
      end
  end.

(** The loop of [Project.__call__]. *)
Fixpoint project_loop (columns : list string) (row result_row : TRow)
  : outcome TRow :=
  match columns with
  | [] => Ok result_row
  | column :: rest =>
      v ← dict_item column row;
      project_loop rest row (dict_set column v result_row)
  end.

Section Mappers.
Context (fo : float_ops).

(** [row[out] = c], where evaluating [c] may raise, then [yield row]. *)
Definition assign_yield (l : loc) (row : TRow) (out : string)
  (c : outcome value) (h : heap) : outcome (list loc) * heap :=
  match c with
  | Ok v => (Ok [l], <[l := dict_set out v row]> h)
  | Raise e => (Raise e, h)
  end.

(** [mapper(row)] driven to exhaustion, on the row object at [l]: the
    objects yielded and the store afterwards. *)
Definition Mapper_call (m : Mapper) (l : loc) (h : heap)
  : outcome (list loc) * heap :=
  match h !! l with
  | None => (Raise DanglingRef, h)
  | Some row =>
      match m with
      | DummyMapper => (Ok [l], h)
      | FilterPunctuation column =>
          assign_yield l row column
            (s ← as_str (dict_get_default column (VStr "") row);
             Ok (VStr (strip_punctuation s))) h
      | LowerCase column =>
          assign_yield l row column
            (s ← as_str (dict_get_default column (VStr "") row);
             Ok (VStr (lower s))) h
      | InverseFrequency num den res_row =>
          assign_yield l row res_row
            (a ← dict_item num row; b ← dict_item den row;
             log_ratio fo a b) h
      | CalculateDistance first second distance_column =>
          assign_yield l row distance_column
            (a ← dict_item first row; b ← dict_item second row;
             haversine_km fo a b) h
      | WeekDay date_column week_day_column =>
          assign_yield l row week_day_column
            (d ← dict_item date_column row; week_day fo d) h
      | Hour date_column hour_column =>
          assign_yield l row hour_column
            (d ← dict_item date_column row; hour_of fo d) h
      | TimeDelta start_date_col end_date_col time_delta_column =>
          assign_yield l row time_delta_column
            (a ← dict_item start_date_col row;
             b ← dict_item end_date_col row;
             seconds_between fo a b) h
      | Speed distance_column time_column speed_column =>
          assign_yield l row speed_column
            (a ← dict_item distance_column row;
             b ← dict_item time_column row;
             speed_kmh fo a b) h
      | Split column separator =>
          match (s ← as_str (dict_get_default column (VStr "") row);
                 py_split separator s) with
          | Ok toks =>
              let '(ls, h') :=
                alloc_all ((fun t => dict_set column (VStr t) row) <$> toks) h
              in (Ok ls, h')
          | Raise e => (Raise e, h)
          end
      | Product columns result_column =>
          match product_loop result_column columns
                  (dict_set result_column (VInt 1) row) with
          | (Ok _, row') => (Ok [l], <[l := row']> h)
          | (Raise e, row') => (Raise e, <[l := row']> h)
          end
      | Filter condition =>
          match condition row with
          | Ok true => (Ok [l], h)
          | Ok false => (Ok [], h)
          | Raise e => (Raise e, h)
          end
      | Project columns =>
          match project_loop columns row [] with
          | Ok result_row =>
              let '(l', h') := alloc result_row h in (Ok [l'], h')
          | Raise e => (Raise e, h)
          end
      end
  end.

(** [Map.__call__] driven to exhaustion over the row objects [rows]. *)
Fixpoint Map_call (m : Mapper) (rows : list loc) (h : heap)
  : outcome (list loc) * heap :=
  match rows with
  | [] => (Ok [], h)
  | l :: rest =>
      match Mapper_call m l h with
      | (Ok out, h1) =>
          match Map_call m rest h1 with
          | (Ok outs, h2) => (Ok (out ++ outs), h2)
          | (Raise e, h2) => (Raise e, h2)
          end
      | (Raise e, h1) => (Raise e, h1)
      end
  end.
End Mappers.

(** ** The grouping iterator ([lib/groups.py]) *)

(** [tuple(row[key] for key in keys)] *)
Definition key_tuple (keys : list string) (row : TRow) : outcome (list value) :=
  mapM_out (fun key => dict_item key row) keys.

(** The fields of a [GroupsCreator]; [rows_generator] holds the rows not yet
    pulled from upstream. *)
Record GroupsCreator := mkGroupsCreator {
  gc_keys : list string;
  rows_generator : list TRow;
  group_key_values : list value;
  first_group_element : option TRow
}.

(** [GroupsCreator.__init__] *)
Definition GroupsCreator_init (rows : list TRow) (keys : list string)
  : outcome GroupsCreator :=
  match rows with
  | [] => Ok (mkGroupsCreator keys [] [] None)
  | first :: rest =>
      kv ← key_tuple keys first;
      Ok (mkGroupsCreator keys rest kv (Some first))
  end.

(** The [for] loop of [group_iterator]: the rows yielded, and the fields
    [rows_generator], [group_key_values] and [first_group_element] when the
    generator returns. *)
Fixpoint group_loop (keys : list string) (gkv : list value) (rest : list TRow)
  : outcome (list TRow * (list TRow * list value * option TRow)) :=
  match rest with
  | [] => Ok ([], ([], gkv, None))
  | row :: rest' =>
      current_values ← key_tuple keys row;
      if decide (current_values ≠ gkv)
      then Ok ([], (rest', current_values, Some row))
      else '(ys, st) ← group_loop keys gkv rest'; Ok (row :: ys, st)
  end.

(** [group_iterator] driven to exhaustion: the rows of the current group and
    the creator positioned on the next group. Driving [group_generator] and
    then calling [update_generator] comes to this. *)
Definition group_iterator (g : GroupsCreator)
  : outcome (list TRow * GroupsCreator) :=
  match first_group_element g with
  | None => Ok ([], g)
  | Some first =>
      '(ys, (rest, gkv, nxt)) ←
        group_loop (gc_keys g) (group_key_values g) (rows_generator g);
      Ok (first :: ys, mkGroupsCreator (gc_keys g) rest gkv nxt)
  end.

(** [while creator.first_group_element is not None]: take the current group,
    advance. [fuel] bounds the number of groups; [None] is fuel run out. *)
Fixpoint all_groups (fuel : nat) (g : GroupsCreator)
  : option (outcome (list (list TRow))) :=
  match first_group_element g with
  | None => Some (Ok [])
  | Some _ =>
      match fuel with
      | O => None
      | S fuel' =>
          match group_iterator g with
          | Raise e => Some (Raise e)
          | Ok (grp, g') =>
              match all_groups fuel' g' with
              | Some (Ok gs) => Some (Ok (grp :: gs))
              | other => other
              end
          end
      end
  end.

(** The groups that a [GroupsCreator] over [rows] hands out. *)
Definition groups_of (keys : list string) (rows : list TRow)
  : option (outcome (list (list TRow))) :=
  match GroupsCreator_init rows keys with
  | Raise e => Some (Raise e)
  | Ok g => all_groups (S (List.length rows)) g
  end.

(** ** Reducers *)

Inductive Reducer :=
  | FirstReducer
  | TopN (column : string) (n : Z) (ascending : bool)
  | TermFrequency (words_column result_column : string)
  | Count (column : string)
  | Sum (column : string)
  | Mean (column : string).

(** [for key in group_key: ans[key] = row[key]], where [row] is the variable
    the loop over the group left behind: unbound after an empty group. *)
Fixpoint echo_keys (group_key : list string) (row : option TRow) (ans : TRow)
  : outcome TRow :=
  match group_key with
  | [] => Ok ans
  | key :: rest =>
      match row with
      | None => Raise NameError
      | Some r => v ← dict_item key r; echo_keys rest row (dict_set key v ans)
      end
  end.

(** [for row in rows: sum_ += row[column]] *)
Fixpoint sum_loop (column : string) (sum_ : value) (rows : list TRow)
  : outcome value :=
  match rows with
  | [] => Ok sum_
  | row :: rest =>
      x ← dict_item column row; s ← py_add sum_ x; sum_loop column s rest
  end.

(** [words_counter.setdefault(w, 0); words_counter[w] += 1] *)
Fixpoint counter_incr (w : value) (words_counter : list (value * Z))
  : list (value * Z) :=
  match words_counter with
  | [] => [(w, 1)]
  | (w', c) :: rest =>
      if decide (w = w') then (w', c + 1) :: rest
      else (w', c) :: counter_incr w rest
  end.

Fixpoint count_words (words_column : string) (rows : list TRow)
  (words_counter : list (value * Z)) : outcome (list (value * Z)) :=
  match rows with
  | [] => Ok words_counter
  | row :: rest =>
      w ← dict_item words_column row;
      count_words words_column rest (counter_incr w words_counter)
  end.

Definition same_type (a b : value) : bool :=
  match a, b with
  | VInt _, VInt _ => true
  | VStr _, VStr _ => true
  | _, _ => false
  end.

Definition value_ltb (a b : value) : bool :=
  match py_lt a b with Ok b => b | Raise _ => false end.

Fixpoint insert_by {A} (before : A → A → bool) (x : A) (l : list A) : list A :=
  match l with
  | [] => [x]
  | y :: l' => if before x y then x :: y :: l' else y :: insert_by before x l'
  end.

(** A stable sort: each element goes behind those it is not [before]. *)
Definition sort_by {A} (before : A → A → bool) (l : list A) : list A :=
  foldl (fun acc x => insert_by before x acc) [] l.

(** The rows behind the first [n], as [nlargest] and [nsmallest] go through
    them: the key of each is read and then compared with the key on top of
    the heap, which has the type of [k0]. *)
Fixpoint n_extreme_rest (column : string) (k0 : value) (rows : list TRow)
  : outcome (list (value * TRow)) :=
  match rows with
  | [] => Ok []
  | row :: rest =>
      k ← dict_item column row;
      if same_type k0 k
      then keyed ← n_extreme_rest column k0 rest; Ok ((k, row) :: keyed)
      else Raise TypeError
  end.

(** [nlargest(n, rows, key=...)] and [nsmallest(n, rows, key=...)] of
    [heapq]. They read the keys of the first [n] rows and make a heap of
    them, which compares them; then they read the key of each further row
    and compare it with the top of the heap (for [n == 1] they go through
    the rows with [max] or [min], to the same effect; for [n <= 0] they
    read nothing). Keys of mixed types do not compare. The rows they return
    are those of their documented equivalents [sorted(rows, key=key,
    reverse=True)[:n]] and [sorted(rows, key=key)[:n]]. *)
Definition n_extreme (largest : bool) (n : Z) (column : string)
  (rows : list TRow) : outcome (list TRow) :=
  if n <=? 0 then Ok []
  else
    keyed ← mapM_out (fun row => k ← dict_item column row; Ok (k, row))
              (take (Z.to_nat n) rows);
    match keyed with
    | [] => Ok []
    | (k0, _) :: rest =>
        if forallb (fun kr => same_type k0 kr.1) rest
        then
          others ← n_extreme_rest column k0 (drop (Z.to_nat n) rows);
          Ok (take (Z.to_nat n)
                (snd <$> sort_by (fun x y =>
                                    if largest then value_ltb y.1 x.1
                                    else value_ltb x.1 y.1)
                           (keyed ++ others)))
        else Raise TypeError
    end.

Section Reducers.
Context (fo : float_ops).

(** [reducer(group_key, rows)] driven to exhaustion. *)
Definition Reducer_call (r : Reducer) (group_key : list string)
  (rows : list TRow) : outcome (list TRow) :=
  match r with
  | FirstReducer =>
      match rows with
      | [] => Ok []
      | row :: _ => Ok [row]
      end
  | TopN column n ascending => n_extreme ascending n column rows
  | TermFrequency words_column result_column =>
      words_counter ← count_words words_column rows [];
      common_keys ← echo_keys group_key (last rows) [];
      mapM_out (fun wc : value * Z =>
                  tf ← true_div fo (VInt wc.2) (Z.of_nat (List.length rows));
                  Ok (dict_set result_column tf
                        (dict_set words_column wc.1 common_keys)))
               words_counter
  | Count column =>
      ans ← echo_keys group_key (last rows) [];
      Ok [dict_set column (VInt (Z.of_nat (List.length rows))) ans]
  | Sum column =>
      sum_ ← sum_loop column (VInt 0) rows;
      match group_key with
      | [] => Raise IndexError
      | key0 :: _ =>
          match last rows with
          | None => Raise NameError
          | Some row =>
              v ← dict_item key0 row;
              Ok [dict_set column sum_ (dict_set key0 v [])]
          end
      end
  | Mean column =>
      sum_ ← sum_loop column (VInt 0) rows;
      ans ← echo_keys group_key (last rows) [];
      mean ← (if decide (rows = []) then Raise ZeroDivisionError
              else true_div fo sum_ (Z.of_nat (List.length rows)));
      Ok [dict_set column mean ans]
  end.

(** [Reduce.__call__] driven to exhaustion. *)
Fixpoint Reduce_loop (fuel : nat) (r : Reducer) (g : GroupsCreator)
  : option (outcome (list TRow)) :=
  match first_group_element g with
  | None => Some (Ok [])
  | Some _ =>
      match fuel with
      | O => None
      | S fuel' =>
          match ('(grp, g') ← group_iterator g;
                 out ← Reducer_call r (gc_keys g) grp;
                 Ok (out, g')) with
          | Raise e => Some (Raise e)
          | Ok (out, g') =>
              match Reduce_loop fuel' r g' with
              | Some (Ok outs) => Some (Ok (out ++ outs))
              | other => other
              end
          end
      end
  end.

Definition Reduce_call (r : Reducer) (keys : list string) (rows : list TRow)
  : option (outcome (list TRow)) :=
  match GroupsCreator_init rows keys with
  | Raise e => Some (Raise e)
  | Ok g => Reduce_loop (S (List.length rows)) r g
  end.
End Reducers.

(** ** The row-merge helper and the joiners *)

(** The first loop of [merge_two_dicts_by_keys], over the items
    [(key, a_row[key])] of [a_row] in insertion order. *)
Fixpoint merge_a (a_items : TRow) (b_row : TRow) (suffix_a suffix_b : string)
  (keys : list string) (merged_dct : TRow) : TRow :=
  match a_items with
  | [] => merged_dct
  | (key, va) :: rest =>
      merge_a rest b_row suffix_a suffix_b keys
        (match dict_get key b_row with
         | Some vb =>
             if bool_decide (key ∈ keys) then dict_set key va merged_dct
             else dict_set (key +:+ suffix_b) vb
                    (dict_set (key +:+ suffix_a) va merged_dct)
         | None => dict_set key va merged_dct
         end)
  end.

(** The second loop of [merge_two_dicts_by_keys], over the items of
    [b_row]. *)
Fixpoint merge_b (b_items : TRow) (suffix_b : string) (merged_dct : TRow)
  : TRow :=
  match b_items with
  | [] => merged_dct
  | (key, vb) :: rest =>
      merge_b rest suffix_b
        (if negb (dict_mem key merged_dct)
            && negb (dict_mem (key +:+ suffix_b) merged_dct)
         then dict_set key vb merged_dct
         else merged_dct)
  end.

Definition merge_two_dicts_by_keys (a_row b_row : TRow)
  (suffix_a suffix_b : string) (keys : list string) : TRow :=
  let '(a_row, b_row, suffix_a, suffix_b) :=
    if decide (List.length a_row = 0%nat)
    then (b_row, empty_row, suffix_b, suffix_a)
    else (a_row, b_row, suffix_a, suffix_b) in
  merge_b b_row suffix_b (merge_a a_row b_row suffix_a suffix_b keys []).

(** What a joiner is handed: a list object or a generator, with the rows
    it holds or yields. *)
Inductive TRowsIterable :=
  | PyList (rows : list TRow)
  | PyGenerator (rows : list TRow).

Definition iter_rows (it : TRowsIterable) : list TRow :=
  match it with PyList rows | PyGenerator rows => rows end.

(** [rows == [dict()]]: a generator never equals a list. *)
Definition eq_empty_row_list (it : TRowsIterable) : bool :=
  match it with
  | PyList rows => bool_decide (rows = [empty_row])
  | PyGenerator _ => false
  end.

Inductive Joiner :=
  | InnerJoiner (suffix_a suffix_b : string)
  | OuterJoiner (suffix_a suffix_b : string)
  | LeftJoiner (suffix_a suffix_b : string)
  | RightJoiner (suffix_a suffix_b : string).

Definition _a_suffix (j : Joiner) : string :=
  match j with
  | InnerJoiner a _ | OuterJoiner a _ | LeftJoiner a _ | RightJoiner a _ => a
  end.

Definition _b_suffix (j : Joiner) : string :=
  match j with
  | InnerJoiner _ b | OuterJoiner _ b | LeftJoiner _ b | RightJoiner _ b => b
  end.

(** The nested loops shared by the four joiners; [emit] is the guard in
    front of [yield]. *)
Definition join_loops (emit : bool) (suffix_a suffix_b : string)
  (keys : list string) (rows_a rows_b : list TRow) : list TRow :=
  row_a ← rows_a;
  row_b ← rows_b;
  if emit then [merge_two_dicts_by_keys row_a row_b suffix_a suffix_b keys]
  else [].

(** [joiner(keys, rows_a, rows_b)] driven to exhaustion. *)
Definition Joiner_call (j : Joiner) (keys : list string)
  (rows_a rows_b : TRowsIterable) : list TRow :=
  let left_dict_is_none := eq_empty_row_list rows_a in
  let right_dict_is_none := eq_empty_row_list rows_b in
  let emit :=
    match j with
    | InnerJoiner _ _ => negb left_dict_is_none && negb right_dict_is_none
    | OuterJoiner _ _ => true
    | LeftJoiner _ _ => negb left_dict_is_none
    | RightJoiner _ _ => negb right_dict_is_none
    end in
  join_loops emit (_a_suffix j) (_b_suffix j) keys
    (iter_rows rows_a) (iter_rows rows_b).

(** ** The join operator *)

Fixpoint compare_key_values (first_values second_values : list value)
  : outcome (Z * Z) :=
  match first_values, second_values with
  | first :: fs, second :: ss =>
      lt ← py_lt first second;
      if lt : bool then Ok (0, 1)
      else gt ← py_gt first second;
           if gt : bool then Ok (1, 0) else compare_key_values fs ss
  | _, _ => Ok (1, 1)
  end.

(** The truth value of [creator.first_group_element]: [None] and the empty
    [dict] are false. *)
Definition truthy (o : option TRow) : bool :=
  match o with
  | None => false
  | Some row => negb (bool_decide (List.length row = 0%nat))
  end.

Definition sentinel : TRowsIterable := PyList [empty_row].

(** One pass of the body of the first [while] of [Join.__call__]: the rows
    yielded and the two creators after their [update_generator] calls. *)
Definition Join_step (j : Joiner) (keys : list string)
  (L R : GroupsCreator) : outcome (list TRow * GroupsCreator * GroupsCreator) :=
  '(left_group_operand, right_group_operand) ←
    compare_key_values (group_key_values L) (group_key_values R);
  if left_group_operand =? right_group_operand then
    '(gr, R') ← group_iterator R;
    '(gl, L') ← group_iterator L;
    Ok (Joiner_call j keys (PyGenerator gl) (PyGenerator gr), L', R')
  else if left_group_operand >? right_group_operand then
    '(gr, R') ← group_iterator R;
    Ok (Joiner_call j keys sentinel (PyGenerator gr), L, R')
  else
    '(gl, L') ← group_iterator L;
    Ok (Joiner_call j keys (PyGenerator gl) sentinel, L', R).

(** [while left.first_group_element and right.first_group_element] *)
Fixpoint Join_main (fuel : nat) (j : Joiner) (keys : list string)
  (L R : GroupsCreator)
  : option (outcome (list TRow * GroupsCreator * GroupsCreator)) :=
  if truthy (first_group_element L) && truthy (first_group_element R) then
    match fuel with
    | O => None
    | S fuel' =>
        match Join_step j keys L R with
        | Raise e => Some (Raise e)
        | Ok (out, L', R') =>
            match Join_main fuel' j keys L' R' with
            | Some (Ok (outs, L'', R'')) => Some (Ok (out ++ outs, L'', R''))
            | other => other
            end
        end
    end
  else Some (Ok ([], L, R)).

(** [while left.first_group_element is not None] *)
Fixpoint Join_drain_left (fuel : nat) (j : Joiner) (keys : list string)
  (L : GroupsCreator) : option (outcome (list TRow)) :=
  match first_group_element L with
  | None => Some (Ok [])
  | Some _ =>
      match fuel with
      | O => None
      | S fuel' =>
          match group_iterator L with
          | Raise e => Some (Raise e)
          | Ok (gl, L') =>
              match Join_drain_left fuel' j keys L' with
              | Some (Ok outs) =>
                  Some (Ok (Joiner_call j keys (PyGenerator gl) sentinel ++ outs))
              | other => other
              end
          end
      end
  end.

(** [while right.first_group_element is not None] *)
Fixpoint Join_drain_right (fuel : nat) (j : Joiner) (keys : list string)
  (R : GroupsCreator) : option (outcome (list TRow)) :=
  match first_group_element R with
  | None => Some (Ok [])
  | Some _ =>
      match fuel with
      | O => None
      | S fuel' =>
          match group_iterator R with
          | Raise e => Some (Raise e)
          | Ok (gr, R') =>
              match Join_drain_right fuel' j keys R' with
              | Some (Ok outs) =>
                  Some (Ok (Joiner_call j keys sentinel (PyGenerator gr) ++ outs))
              | other => other
              end
          end
      end
  end.

(** The three loops of [Join.__call__] one after the other, with [fuel] for
    the first and [fuel'] for each of the other two. *)
Definition Join_loops (fuel fuel' : nat) (j : Joiner) (keys : list string)
  (L R : GroupsCreator) : option (outcome (list TRow)) :=
  match Join_main fuel j keys L R with
  | None => None
  | Some (Raise e) => Some (Raise e)
  | Some (Ok (out1, L', R')) =>
      match Join_drain_left fuel' j keys L' with
      | None => None
      | Some (Raise e) => Some (Raise e)
      | Some (Ok out2) =>
          match Join_drain_right fuel' j keys R' with
          | None => None
          | Some (Raise e) => Some (Raise e)
          | Some (Ok out3) => Some (Ok (out1 ++ out2 ++ out3))
          end
      end
  end.

(** [Join.__call__] driven to exhaustion on the left stream [rows] and the
    right stream [args0]; every loop gets the same [fuel]. *)
Definition Join_call (fuel : nat) (j : Joiner) (keys : list string)
  (rows args0 : list TRow) : option (outcome (list TRow)) :=
  match GroupsCreator_init rows keys with
  | Raise e => Some (Raise e)
  | Ok L =>
      match GroupsCreator_init args0 keys with
      | Raise e => Some (Raise e)
      | Ok R => Join_loops fuel fuel j keys L R
      end
  end.

(** ** Auxiliary notions used in the statements *)

(** A [float_ops] whose arithmetic always raises; it serves to evaluate the
    operators that do not use it. *)
Definition no_float : float_ops := {|
  log_ratio := fun _ _ => Raise TypeError;
  haversine_km := fun _ _ => Raise TypeError;
  week_day := fun _ => Raise TypeError;
  hour_of := fun _ => Raise TypeError;
  seconds_between := fun _ _ => Raise TypeError;
  speed_kmh := fun _ _ => Raise TypeError;
  true_div := fun _ _ => Raise TypeError
|}.

(** The column a mapper assigns in the row object it received, for the
    mappers that do so. *)
Definition assigned_column (m : Mapper) : option string :=
  match m with
  | DummyMapper | Split _ _ | Filter _ | Project _ => None
  | FilterPunctuation column | LowerCase column => Some column
  | InverseFrequency _ _ res_row => Some res_row
  | CalculateDistance _ _ distance_column => Some distance_column
  | WeekDay _ week_day_column => Some week_day_column
  | Hour _ hour_column => Some hour_column
  | TimeDelta _ _ time_delta_column => Some time_delta_column
  | Speed _ _ speed_column => Some speed_column
  | Product _ result_column => Some result_column
  end.


(** The columns a mapper reads by subscription, [row[column]]. *)
Definition read_columns (m : Mapper) : list string :=
  match m with
  | InverseFrequency a b _ | CalculateDistance a b _
  | TimeDelta a b _ | Speed a b _ => [a; b]
  | WeekDay d _ | Hour d _ => [d]
  | Product columns _ | Project columns => columns
  | DummyMapper | FilterPunctuation _ | LowerCase _ | Split _ _ | Filter _ => []
  end.

(** The column a mapper reads with [row.get(column, "")]. *)
Definition default_column (m : Mapper) : option string :=
  match m with
  | FilterPunctuation column | LowerCase column | Split column _ => Some column
  | _ => None
  end.


(** The Cartesian product of two groups, merged row by row, left row
    outermost. *)
Definition cartesian_merge (j : Joiner) (keys : list string)
  (rows_a rows_b : list TRow) : list TRow :=
  flat_map (fun row_a =>
              map (fun row_b =>
                     merge_two_dicts_by_keys row_a row_b
                       (_a_suffix j) (_b_suffix j) keys) rows_b) rows_a.




(** The column a reducer adds to the rows it builds. *)
Definition result_column_of (r : Reducer) : option string :=
  match r with
  | FirstReducer | TopN _ _ _ => None
  | TermFrequency _ result_column => Some result_column
  | Count column | Sum column | Mean column => Some column
  end.


(** ** Sequences of key tuples *)

(** Lexicographic comparison of two key tuples. *)
Fixpoint lex_compare (kl kr : list value) : outcome comparison :=
  match kl, kr with
  | a :: kl', b :: kr' =>
      lt ← py_lt a b;
      if lt : bool then Ok Lt
      else gt ← py_lt b a;
           if gt : bool then Ok Gt else lex_compare kl' kr'
  | _, _ => Ok Eq
  end.

(** The key tuples in the order they first appear: later occurrences of a
    tuple already [seen] are dropped. *)
Fixpoint first_seen_from (seen : list (list value)) (kvs : list (list value))
  : list (list value) :=
  match kvs with
  | [] => []
  | kv :: rest =>
      if bool_decide (kv ∈ seen) then first_seen_from seen rest
      else kv :: first_seen_from (kv :: seen) rest
  end.

Definition first_seen (kvs : list (list value)) : list (list value) :=
  first_seen_from [] kvs.

(** The key tuple of each maximal run of equal consecutive tuples, [prev]
    being the tuple of the run in progress. *)
Fixpoint key_runs_from (prev : list value) (kvs : list (list value))
  : list (list value) :=
  match kvs with
  | [] => []
  | kv :: rest =>
      if decide (kv = prev) then key_runs_from prev rest
      else kv :: key_runs_from kv rest
  end.

Definition key_runs (kvs : list (list value)) : list (list value) :=
  match kvs with
  | [] => []
  | kv :: rest => kv :: key_runs_from kv rest
  end.

(** Equal key tuples are contiguous: once the run of [prev] has ended,
    [prev] does not come back. *)
Fixpoint contiguous_from (prev : list value) (kvs : list (list value)) : bool :=
  match kvs with
  | [] => true
  | kv :: rest =>
      if decide (kv = prev) then contiguous_from prev rest
      else bool_decide (prev ∉ rest) && contiguous_from kv rest
  end.

Definition contiguous (kvs : list (list value)) : bool :=
  match kvs with
  | [] => true
  | kv :: rest => contiguous_from kv rest
  end.

(** The stream order on key tuples, and a sequence of key tuples sorted
    ascending: each one equals the next or compares smaller. *)
Definition key_le (a b : list value) : Prop :=
  a = b ∨ lex_compare a b = Ok Lt.

Definition ascending (kvs : list (list value)) : Prop := Sorted key_le kvs.

(** The key tuple of a group: that of its first row. *)
Definition group_key_of (keys : list string) (group : list TRow)
  : outcome (list value) :=
  match group with
  | [] => Ok []
  | row :: _ => key_tuple keys row
  end.


(** ** The merge join as the specification words it *)

(** The state machine over the groups still to come on each side: on equal
    keys the joiner gets both groups and both sides advance; on a smaller
    left key it gets the left group and [[empty_row]] and the left side
    advances; on a larger left key it gets [[empty_row]] and the right
    group and the right side advances; once a side is exhausted the other
    one is drained against [[empty_row]]. *)
Fixpoint merge_join_spec (j : Joiner) (keys : list string)
  (L : list (list TRow)) : list (list TRow) → outcome (list TRow) :=
  fix against (R : list (list TRow)) : outcome (list TRow) :=
    match L, R with
    | [], _ =>
        Ok (flat_map (fun gr => Joiner_call j keys sentinel (PyGenerator gr)) R)
    | _, [] =>
        Ok (flat_map (fun gl => Joiner_call j keys (PyGenerator gl) sentinel) L)
    | gl :: L', gr :: R' =>
        k_L ← group_key_of keys gl;
        k_R ← group_key_of keys gr;
        c ← lex_compare k_L k_R;
        match c with
        | Eq =>
            out ← merge_join_spec j keys L' R';
            Ok (Joiner_call j keys (PyGenerator gl) (PyGenerator gr) ++ out)
        | Lt =>
            out ← merge_join_spec j keys L' R;
            Ok (Joiner_call j keys (PyGenerator gl) sentinel ++ out)
        | Gt =>
            out ← against R';
            Ok (Joiner_call j keys sentinel (PyGenerator gr) ++ out)
        end
    end.

(** What [GroupsCreator] keeps true of its fields: [group_key_values] is the
    key tuple of [first_group_element]. The second part, that this row is
    not the empty [dict], follows from it when there is a key column. *)
Definition gc_ok (g : GroupsCreator) : Prop :=
  match first_group_element g with
  | Some row =>
      key_tuple (gc_keys g) row = Ok (group_key_values g) ∧ row ≠ empty_row
  | None => True
  end.

(** ** Tactics *)

(** Decide a closed proposition by evaluating its decision procedure. *)
Ltac decide_by_eval :=
  unfold wf_row, dict_keys;
  lazymatch goal with
  | |- ?P => apply (bool_decide_unpack P); vm_compute; exact I
  end.


(** ** The group generator, pulled one row at a time *)

(** Where the generator object made by [group_iterator] stands: not yet
    started, suspended at a [yield] inside the [for] loop (or at the first
    [yield]), or finished. *)
Inductive gen_state :=
  | GenFresh
  | GenLoop
  | GenDone.

(** One [next()] on [creator.group_generator]: the row yielded ([None] for
    [StopIteration]), the creator's fields and the generator afterwards. An
    exception finishes the generator; the row that raised it is consumed. *)
Definition gen_next (g : GroupsCreator) (st : gen_state)
  : outcome (option TRow) * GroupsCreator * gen_state :=
  match st with
  | GenDone => (Ok None, g, GenDone)
  | GenFresh =>
      match first_group_element g with
      | None => (Ok None, g, GenDone)
      | Some first => (Ok (Some first), g, GenLoop)
      end
  | GenLoop =>
      match rows_generator g with
      | [] =>
          (Ok None,
           mkGroupsCreator (gc_keys g) [] (group_key_values g) None, GenDone)
      | row :: rest =>
          match key_tuple (gc_keys g) row with
          | Raise e =>
              (Raise e,
               mkGroupsCreator (gc_keys g) rest (group_key_values g)
                 (first_group_element g), GenDone)
          | Ok current_values =>
              if decide (current_values ≠ group_key_values g)
              then (Ok None,
                    mkGroupsCreator (gc_keys g) rest current_values (Some row),
                    GenDone)
              else (Ok (Some row),
                    mkGroupsCreator (gc_keys g) rest (group_key_values g)
                      (first_group_element g), GenLoop)
          end
      end
  end.

(** [for row in creator.group_generator] to the end: the rows pulled. *)
Fixpoint gen_drive (fuel : nat) (g : GroupsCreator) (st : gen_state)
  : option (outcome (list TRow) * GroupsCreator * gen_state) :=
  match fuel with
  | O => None
  | S fuel' =>
      match gen_next g st with
      | (Raise e, g', st') => Some (Raise e, g', st')
      | (Ok None, g', st') => Some (Ok [], g', st')
      | (Ok (Some row), g', st') =>
          match gen_drive fuel' g' st' with
          | Some (Ok rows, g'', st'') => Some (Ok (row :: rows), g'', st'')
          | other => other
          end
      end
  end.

(** At most [k] calls of [next()], as a consumer that stops early makes. *)
Fixpoint gen_pull (k : nat) (g : GroupsCreator) (st : gen_state)
  : outcome (list TRow) * GroupsCreator * gen_state :=
  match k with
  | O => (Ok [], g, st)
  | S k' =>
      match gen_next g st with
      | (Raise e, g', st') => (Raise e, g', st')
      | (Ok None, g', st') => (Ok [], g', st')
      | (Ok (Some row), g', st') =>
          match gen_pull k' g' st' with
          | (Ok rows, g'', st'') => (Ok (row :: rows), g'', st'')
          | other => other
          end
      end
  end.

(** [GroupsCreator.update_generator]: exhaust the current generator, then
    make a new one. *)
Definition update_generator (fuel : nat) (g : GroupsCreator) (st : gen_state)
  : option (outcome unit * GroupsCreator * gen_state) :=
  match gen_drive fuel g st with
  | None => None
  | Some (Raise e, g', st') => Some (Raise e, g', st')
  | Some (Ok _, g', _) => Some (Ok (), g', GenFresh)
  end.

(** ** Auxiliary notions for the further properties *)

(** The total of an integer column over some rows. *)
Definition int_column_sum (column : string) (rows : list TRow) : Z :=
  foldr (fun row acc =>
           match dict_get column row with
           | Some (VInt n) => n + acc
           | _ => acc
           end) 0 rows.

Definition sum_Z (zs : list Z) : Z := foldr Z.add 0 zs.

Definition prod_Z (zs : list Z) : Z := foldr Z.mul 1 zs.

(** How often [w] occurs in [ws]. *)
Definition occurrences (w : value) (ws : list value) : Z :=
  Z.of_nat (List.length (filter (fun x => x = w) ws)).

(** [sep.join(toks)] *)
Fixpoint str_join (sep : string) (toks : list string) : string :=
  match toks with
  | [] => ""
  | tok :: rest =>
      match rest with
      | [] => tok
      | _ :: _ => tok +:+ sep +:+ str_join sep rest
      end
  end.

(** The distinct elements of [ws], each at the place of its first
    occurrence. *)
Definition first_occurrences (ws : list value) : list value :=
  foldl (fun acc w => if decide (w ∈ acc) then acc else acc ++ [w]) [] ws.

(** * Properties *)

(** ** Dictionaries *)

Lemma dict_get_set_eq k v d : dict_get k (dict_set k v d) = Some v.
Proof.
  induction d as [|[k' v'] d IH]; simpl.
  - by rewrite decide_True.
  - destruct (decide (k = k')) as [->|Hne]; simpl.
    + by rewrite decide_True.
    + by rewrite decide_False.
Qed.

Lemma dict_get_set_ne k k' v d :
  k ≠ k' → dict_get k' (dict_set k v d) = dict_get k' d.
Proof.
  intros Hne. induction d as [|[k0 v0] d IH]; simpl.
  - by rewrite decide_False.
  - destruct (decide (k = k0)) as [->|Hne0]; simpl.
    + by rewrite !decide_False.
    + destruct (decide (k' = k0)); done.
Qed.

Lemma dict_get_set k k' v d :
  dict_get k' (dict_set k v d) = if decide (k = k') then Some v else dict_get k' d.
Proof.
  destruct (decide (k = k')) as [->|Hne].
  - apply dict_get_set_eq.
  - by apply dict_get_set_ne.
Qed.

Lemma dict_get_None k (d : TRow) : dict_get k d = None ↔ k ∉ dict_keys d.
Proof.
  unfold dict_keys. induction d as [|[k' v'] d IH]; simpl.
  - split; [intros _; apply not_elem_of_nil | done].
  - rewrite not_elem_of_cons. destruct (decide (k = k')) as [->|Hne].
    + split; [done | intros [? _]; done].
    + rewrite IH. tauto.
Qed.

Lemma dict_get_Some_elem k v (d : TRow) : dict_get k d = Some v → (k, v) ∈ d.
Proof.
  induction d as [|[k' v'] d IH]; simpl; [done|].
  destruct (decide (k = k')) as [->|Hne].
  - intros [= ->]. apply list_elem_of_here.
  - intros H. apply list_elem_of_further. auto.
Qed.


Lemma dict_keys_set k v (d : TRow) :
  dict_keys (dict_set k v d) =
    if dict_mem k d then dict_keys d else dict_keys d ++ [k].
Proof.
  unfold dict_keys, dict_mem. induction d as [|[k' v'] d IH]; simpl; [done|].
  destruct (decide (k = k')) as [->|Hne]; simpl; [done|].
  destruct (dict_get k d); simpl; f_equal; exact IH.
Qed.

Lemma wf_row_set k v (d : TRow) : wf_row d → wf_row (dict_set k v d).
Proof.
  unfold wf_row. intros Hwf. rewrite dict_keys_set.
  unfold dict_mem. destruct (dict_get k d) eqn:Hg; [done|].
  apply NoDup_app. split_and!; [done| |apply NoDup_singleton].
  intros x Hx Hx'. apply list_elem_of_singleton in Hx'. subst x.
  by apply dict_get_None in Hg.
Qed.

(** ** Mappers and the row objects they receive *)

Lemma alloc_spec r (h : heap) l h' :
  alloc r h = (l, h') → h !! l = None ∧ h' = <[l := r]> h.
Proof.
  unfold alloc. cbv zeta. intros [= <- <-]. split; [|done].
  apply not_elem_of_dom. apply is_fresh.
Qed.

Lemma alloc_all_spec rs (h : heap) ls h' :
  alloc_all rs h = (ls, h') →
  Forall (fun l => h !! l = None) ls ∧
  (∀ l r, h !! l = Some r → h' !! l = Some r).
Proof.
  revert h ls h'. induction rs as [|r rs IH]; intros h ls h'; cbn [alloc_all].
  - intros [= <- <-]. split; [constructor | done].
  - destruct (alloc r h) as [l h1] eqn:Ha.
    destruct (alloc_all rs h1) as [ls' h2] eqn:Hb.
    intros [= <- <-]. apply alloc_spec in Ha as [Hfresh ->].
    apply IH in Hb as [Hall Hkeep]. split.
    + constructor; [done|]. eapply Forall_impl; [exact Hall|].
      intros l' Hl'. simpl in Hl'.
      destruct (decide (l = l')) as [->|Hne].
      * by rewrite lookup_insert_eq in Hl'.
      * by rewrite lookup_insert_ne in Hl'.
    + intros l' r' Hl'. apply Hkeep. rewrite lookup_insert_ne; [done|].
      intros ->. congruence.
Qed.

Lemma product_loop_other result_column columns row o row' k :
  product_loop result_column columns row = (o, row') →
  k ≠ result_column → dict_get k row' = dict_get k row.
Proof.
  revert row. induction columns as [|c cs IH]; intros row; simpl.
  - by intros [= _ <-].
  - destruct (_ ≫= _) as [v|e]; [|by intros [= _ <-]].
    intros Hl Hk. rewrite (IH _ Hl Hk). by apply dict_get_set_ne.
Qed.

Lemma product_loop_mem result_column columns row o row' :
  product_loop result_column columns row = (o, row') →
  dict_mem result_column row = true → dict_mem result_column row' = true.
Proof.
  revert row. induction columns as [|c cs IH]; intros row; simpl.
  - by intros [= _ <-].
  - destruct (_ ≫= _) as [v|e]; [|by intros [= _ <-]].
    intros Hl _. apply (IH _ Hl). unfold dict_mem. by rewrite dict_get_set_eq.
Qed.

Lemma assign_yield_spec l row out c (h : heap) o h' :
  assign_yield l row out c h = (o, h') →
  (∃ v, c = Ok v ∧ o = Ok [l] ∧ h' = <[l := dict_set out v row]> h) ∨
  (∃ e, c = Raise e ∧ o = Raise e ∧ h' = h).
Proof.
  unfold assign_yield. destruct c as [v|e]; intros [= <- <-]; eauto.
Qed.

#[local] Opaque alloc.

(** C1, as the code has it: [Split], [Project], [Filter] and [DummyMapper]
    leave the row object they receive as it was, and [Split] and [Project]
    yield new objects only; every other stock mapper assigns its result
    column in the received object itself and yields that object, its other
    columns staying as they were. No mapper touches another stored row. *)
Theorem Mapper_call_row_effect fo m l (h : heap) row out h' :
  h !! l = Some row →
  Mapper_call fo m l h = (out, h') →
  (∀ l', l' ≠ l → is_Some (h !! l') → h' !! l' = h !! l') ∧
  (assigned_column m = None →
     h' !! l = Some row ∧
     ∀ ls, out = Ok ls →
       match m with
       | Split _ _ | Project _ => Forall (fun l' => h !! l' = None) ls
       | _ => h' = h ∧ (ls = [l] ∨ ls = [])
       end) ∧
  (∀ c, assigned_column m = Some c →
     ∃ row', h' !! l = Some row' ∧
       (∀ k, k ≠ c → dict_get k row' = dict_get k row) ∧
       (∀ ls, out = Ok ls → ls = [l] ∧ dict_mem c row' = true)).
Proof.
  intros Hl Hcall. unfold Mapper_call in Hcall. rewrite Hl in Hcall.
  assert (Hin_place : ∀ c comp,
    assign_yield l row c comp h = (out, h') →
    (∀ l', l' ≠ l → is_Some (h !! l') → h' !! l' = h !! l') ∧
    ∃ row', h' !! l = Some row' ∧
       (∀ k, k ≠ c → dict_get k row' = dict_get k row) ∧
       (∀ ls, out = Ok ls → ls = [l] ∧ dict_mem c row' = true)).
  { intros c comp Hay.
    apply assign_yield_spec in Hay as [(v & _ & -> & ->)|(e & _ & -> & ->)].
    - split; [intros l' Hne _; by rewrite lookup_insert_ne|].
      exists (dict_set c v row). rewrite lookup_insert_eq. split_and!; [done| |].
      + intros k Hk. by apply dict_get_set_ne.
      + intros ls [= <-]. split; [done|]. unfold dict_mem.
        by rewrite dict_get_set_eq.
    - split; [done|]. exists row. split_and!; [done|done|done]. }
  destruct m; simpl in *;
    try (apply Hin_place in Hcall as [Hother Hrow];
         split_and!; [exact Hother | done | by intros c [= <-]]).
  - (* DummyMapper *)
    injection Hcall as <- <-. split_and!; [done| |done].
    intros _. split; [done|]. intros ls [= <-]. auto.
  - (* Split *)
    destruct (_ ≫= _) as [toks|e]; [|injection Hcall as <- <-].
    + destruct (alloc_all _ h) as [ls h1] eqn:Ha. injection Hcall as <- <-.
      apply alloc_all_spec in Ha as [Hfresh Hkeep]. split_and!; [| |done].
      * intros l' _ [r Hr]. rewrite Hr. by apply Hkeep.
      * intros _. split; [by apply Hkeep|]. by intros ls' [= <-].
    + split_and!; [done| |done]. intros _. split; [done|]. by intros ls.
  - (* Product *)
    destruct (product_loop _ _ _) as [o row'] eqn:Hp.
    assert (h' = <[l := row']> h ∧ ∀ ls, out = Ok ls → ls = [l]) as [-> Hout].
    { destruct o; injection Hcall as <- <-; split; try done.
      by intros ls [= <-]. }
    split_and!; [intros l' Hne _; by rewrite lookup_insert_ne | done |].
    intros c [= <-]. exists row'. rewrite lookup_insert_eq. split_and!; [done| |].
    + intros k Hk. rewrite (product_loop_other _ _ _ _ _ _ Hp Hk).
      by apply dict_get_set_ne.
    + intros ls Hls. split; [by apply Hout|].
      apply (product_loop_mem _ _ _ _ _ Hp). unfold dict_mem.
      by rewrite dict_get_set_eq.
  - (* Filter *)
    destruct (condition row) as [[|]|e]; injection Hcall as <- <-;
      (split_and!; [done| |done]); intros _; (split; [done|]);
      intros ls; try done; intros [= <-]; auto.
  - (* Project *)
    destruct (project_loop _ _ _) as [result_row|e]; [|injection Hcall as <- <-].
    + destruct (alloc result_row h) as [l1 h1] eqn:Ha. injection Hcall as <- <-.
      apply alloc_spec in Ha as [Hfresh ->]. split_and!; [| |done].
      * intros l' _ [r Hr]. rewrite lookup_insert_ne; [done|].
        intros Heq; subst. congruence.
      * intros _. split.
        -- rewrite lookup_insert_ne; [done|]. intros Heq; subst; congruence.
        -- intros ls [= <-]. by constructor.
    + split_and!; [done| |done]. intros _. split; [done|]. by intros ls.
Qed.

#[local] Transparent alloc.

Lemma Mapper_call_row_effect_witness :
  ({[ 0%nat := [("text", VStr "Hello"); ("n", VInt 7)] ]} : heap) !! 0%nat
    = Some [("text", VStr "Hello"); ("n", VInt 7)] ∧
  Mapper_call no_float (LowerCase "text") 0%nat
    {[ 0%nat := [("text", VStr "Hello"); ("n", VInt 7)] ]}
    = (Ok [0%nat], {[ 0%nat := [("text", VStr "hello"); ("n", VInt 7)] ]}) ∧
  ∃ row', ({[ 0%nat := [("text", VStr "hello"); ("n", VInt 7)] ]} : heap) !! 0%nat
          = Some row' ∧
          dict_get "n" row' = dict_get "n" [("text", VStr "Hello"); ("n", VInt 7)].
Proof.
  assert (H1 : ({[ 0%nat := [("text", VStr "Hello"); ("n", VInt 7)] ]} : heap)
                 !! 0%nat = Some [("text", VStr "Hello"); ("n", VInt 7)])
    by reflexivity.
  assert (H2 : Mapper_call no_float (LowerCase "text") 0%nat
                 {[ 0%nat := [("text", VStr "Hello"); ("n", VInt 7)] ]}
               = (Ok [0%nat],
                  {[ 0%nat := [("text", VStr "hello"); ("n", VInt 7)] ]}))
    by (vm_compute; reflexivity).
  split; [exact H1|]. split; [exact H2|].
  destruct (Mapper_call_row_effect _ _ _ _ _ _ _ H1 H2) as (_ & _ & H).
  destruct (H "text" eq_refl) as (row' & Hrow & Hother & _).
  exists row'. split; [exact Hrow | by apply Hother].
Defined.

(** C1 as stated fails: [LowerCase] leaves its result in the row object it
    was given. *)
Lemma Map_call_mutates_received_row :
  ¬ (∀ fo m l (h : heap) row,
       h !! l = Some row → (Map_call fo m [l] h).2 !! l = Some row).
Proof.
  intros H.
  specialize (H no_float (LowerCase "text") 0%nat
                {[ 0%nat := [("text", VStr "Hello")] ]}
                [("text", VStr "Hello")] eq_refl).
  vm_compute in H. discriminate H.
Qed.

(** ** Rows that miss a column *)

Lemma dict_item_missing c row : dict_get c row = None → dict_item c row = Raise (KeyError c).
Proof. unfold dict_item. by intros ->. Qed.

Lemma raises_bind_l {A B} (x : outcome A) (f : A → outcome B) :
  raises x → raises (x ≫= f).
Proof. intros [e ->]. by exists e. Qed.

Lemma raises_bind_r {A B} (x : outcome A) (f : A → outcome B) :
  (∀ a, raises (f a)) → raises (x ≫= f).
Proof. intros H. destruct x as [a|e]; [apply H | by exists e]. Qed.

Lemma raises_Raise {A} e : raises (@Raise A e).
Proof. by exists e. Qed.

Lemma project_loop_missing c columns row acc :
  dict_get c row = None → c ∈ columns → raises (project_loop columns row acc).
Proof.
  intros Hc. revert acc. induction columns as [|x xs IH]; intros acc Hin.
  - by apply elem_of_nil in Hin.
  - simpl. apply elem_of_cons in Hin as [<-|Hin].
    + rewrite (dict_item_missing _ _ Hc). apply raises_Raise.
    + apply raises_bind_r. intros v. by apply IH.
Qed.

Lemma product_loop_missing c result_column columns row :
  dict_get c row = None → c ≠ result_column → c ∈ columns →
  raises (product_loop result_column columns row).1.
Proof.
  intros Hc Hne. revert row Hc.
  induction columns as [|x xs IH]; intros row Hc Hin.
  - by apply elem_of_nil in Hin.
  - simpl. destruct (_ ≫= _) as [v|e] eqn:Hstep; [|apply raises_Raise].
    apply elem_of_cons in Hin as [<-|Hin].
    + rewrite (dict_item_missing _ _ Hc) in Hstep.
      destruct (dict_item result_column row); discriminate Hstep.
    + apply IH; [|done]. rewrite dict_get_set_ne; [done|]. by intros ->.
Qed.

Lemma assign_yield_raises l row out c (h : heap) :
  raises c → raises (assign_yield l row out c h).1.
Proof. intros [e ->]. apply raises_Raise. Qed.

Lemma split_sep_go_empty sep : split_sep_go sep 0 "" "" = [""].
Proof. reflexivity. Qed.

#[local] Opaque alloc.

(** C6, as the code has it: on a row that misses column [c],
    [FilterPunctuation], [LowerCase] and [Split] go on with the empty string
    ([Split] unless its separator is the empty string, which [str.split]
    refuses), and every mapper that subscripts [c] raises, [Product] when
    [c] is not the result column it has just initialised. *)
Theorem Mapper_call_missing_column fo m c l (h : heap) row :
  h !! l = Some row →
  dict_get c row = None →
  (default_column m = Some c →
   (∀ col, m ≠ Split col (Some "")) →
   ∃ ls h', Mapper_call fo m l h = (Ok ls, h') ∧
     Forall (fun l' => ∃ r', h' !! l' = Some r' ∧
                             dict_get c r' = Some (VStr "")) ls ∧
     match m with
     | Split _ None => ls = []
     | _ => List.length ls = 1%nat
     end) ∧
  (c ∈ read_columns m →
   (∀ columns, m ≠ Product columns c) →
   raises (Mapper_call fo m l h).1).
Proof.
  intros Hl Hc. unfold Mapper_call. rewrite Hl. split.
  - intros Hdef Hsep. destruct m; simpl in Hdef; try discriminate Hdef;
      injection Hdef as ->; unfold dict_get_default; rewrite Hc; simpl.
    + eexists _, _. split; [reflexivity|]. split; [|done].
      constructor; [|constructor]. eexists. rewrite lookup_insert_eq.
      split; [done|]. apply dict_get_set_eq.
    + eexists _, _. split; [reflexivity|]. split; [|done].
      constructor; [|constructor]. eexists. rewrite lookup_insert_eq.
      split; [done|]. apply dict_get_set_eq.
    + destruct separator as [sep|]; simpl.
      * destruct (decide (sep = "")) as [->|Hne]; [by destruct (Hsep c)|].
        simpl. destruct (alloc _ h) as [l1 h1] eqn:Ha.
        apply alloc_spec in Ha as [_ ->].
        eexists _, _. split; [reflexivity|]. split; [|done].
        constructor; [|constructor]. eexists. rewrite lookup_insert_eq.
        split; [done|]. apply dict_get_set_eq.
      * eexists _, _. split; [reflexivity|]. split; [constructor | done].
  - intros Hin Hprod.
    assert (Hfst : ∀ (f : value → outcome value),
               raises (dict_item c row ≫= f)).
    { intros f. rewrite (dict_item_missing _ _ Hc). apply raises_Raise. }
    assert (Hsnd : ∀ a (f : value → value → outcome value),
               raises (x ← dict_item a row; y ← dict_item c row; f x y)).
    { intros a f. apply raises_bind_r. intros x. apply Hfst. }
    destruct m; simpl in Hin; try (by apply elem_of_nil in Hin);
      try (apply assign_yield_raises;
           repeat (apply elem_of_cons in Hin as [<-|Hin]);
           [apply Hfst | apply Hsnd | by apply elem_of_nil in Hin]);
      try (apply assign_yield_raises;
           repeat (apply elem_of_cons in Hin as [<-|Hin]);
           [apply Hfst | by apply elem_of_nil in Hin]).
    + (* Product *)
      assert (Hne : c ≠ result_column) by (intros ->; by apply (Hprod columns)).
      pose proof (product_loop_missing c result_column columns
                    (dict_set result_column (VInt 1) row)) as Hp.
      destruct (product_loop _ _ _) as [[u|e] row']; simpl in *.
      * destruct Hp as [e He]; [|done|done|done].
        rewrite dict_get_set_ne; [done|]. by intros ->.
      * apply raises_Raise.
    + (* Project *)
      pose proof (project_loop_missing c columns row [] Hc Hin) as [e He].
      rewrite He. apply raises_Raise.
Qed.

#[local] Transparent alloc.

Lemma Mapper_call_missing_column_witness :
  ({[ 0%nat := [("b", VInt 1)] ]} : heap) !! 0%nat = Some [("b", VInt 1)] ∧
  dict_get "a" [("b", VInt 1)] = None ∧
  raises (Mapper_call no_float (Project ["b"; "a"]) 0%nat
            {[ 0%nat := [("b", VInt 1)] ]}).1.
Proof.
  split; [reflexivity|]. split; [reflexivity|].
  apply (Mapper_call_missing_column no_float (Project ["b"; "a"]) "a" 0%nat
           {[ 0%nat := [("b", VInt 1)] ]} [("b", VInt 1)]).
  - reflexivity.
  - reflexivity.
  - simpl. apply list_elem_of_further, list_elem_of_here.
  - intros columns Heq. discriminate Heq.
Defined.

(** C6 as stated fails: [Product] initialises its result column before it
    reads its factors, so a row that misses a factor column which is also
    the result column goes through. *)
Lemma Product_missing_result_column_succeeds :
  ¬ (∀ fo m c l (h : heap) row,
       h !! l = Some row →
       dict_get c row = None →
       (default_column m = Some c → is_ok (Mapper_call fo m l h).1 = true) ∧
       (c ∈ read_columns m → raises (Mapper_call fo m l h).1)).
Proof.
  intros H.
  destruct (H no_float (Product ["p"] "p") "p" 0%nat
              {[ 0%nat := [("x", VInt 2)] ]} [("x", VInt 2)])
    as [_ Hr]; [reflexivity | reflexivity |].
  destruct Hr as [e He]; [apply list_elem_of_here|].
  vm_compute in He. discriminate He.
Qed.

(** [str.split] refuses an empty separator, also on the default string. *)
Example Split_empty_separator_raises :
  (Mapper_call no_float (Split "text" (Some "")) 0%nat
     {[ 0%nat := [("x", VInt 2)] ]}).1 = Raise ValueError.
Proof. reflexivity. Qed.

(** ** [Split] with the default separator *)

Lemma alloc_all_lookup rs (h : heap) ls h' :
  alloc_all rs h = (ls, h') →
  Forall2 (fun l r => h' !! l = Some r) ls rs ∧ NoDup ls.
Proof.
  revert h ls h'. induction rs as [|r rs IH]; intros h ls h'; cbn [alloc_all].
  - intros [= <- <-]. split; constructor.
  - destruct (alloc r h) as [l h1] eqn:Ha.
    destruct (alloc_all rs h1) as [ls' h2] eqn:Hb.
    intros [= <- <-]. apply alloc_spec in Ha as [Hfresh ->].
    pose proof (alloc_all_spec _ _ _ _ Hb) as [Hnew Hkeep].
    apply IH in Hb as [Hall Hnd]. split.
    + constructor; [|done]. apply Hkeep. apply lookup_insert_eq.
    + constructor; [|done]. intros Hin.
      rewrite Forall_forall in Hnew. specialize (Hnew _ Hin).
      by rewrite lookup_insert_eq in Hnew.
Qed.

Lemma str_app_cons x (a b : string) : String x a +:+ b = String x (a +:+ b).
Proof. reflexivity. Qed.

Lemma str_app_nil_l (a : string) : "" +:+ a = a.
Proof. reflexivity. Qed.

Lemma str_app_assoc (a b c : string) : (a +:+ b) +:+ c = a +:+ (b +:+ c).
Proof.
  induction a as [|x a IH]; [done|]. rewrite !str_app_cons. by f_equal.
Qed.

Lemma str_app_nil_r (a : string) : a +:+ "" = a.
Proof. induction a as [|x a IH]; [done|]. rewrite str_app_cons. by f_equal. Qed.

(** Leading whitespace is skipped. *)
Lemma split_ws_skip ws s :
  str_forall is_space ws = true → split_ws (ws +:+ s) = split_ws s.
Proof.
  unfold split_ws. induction ws as [|c ws IH]; [done|].
  cbn [str_forall]. intros [Hc Hws]%andb_prop.
  rewrite str_app_cons. cbn [split_ws_from]. rewrite Hc. simpl. by apply IH.
Qed.

Lemma split_ws_from_token acc tok rest :
  str_forall (fun c => negb (is_space c)) tok = true →
  split_ws_from acc (tok +:+ rest) = split_ws_from (acc +:+ tok) rest.
Proof.
  revert acc. induction tok as [|c tok IH]; intros acc.
  - by rewrite str_app_nil_r.
  - cbn [str_forall]. intros [Hc Htok]%andb_prop. apply negb_true_iff in Hc.
    rewrite str_app_cons. cbn [split_ws_from]. rewrite Hc.
    rewrite IH; [|done]. by rewrite str_app_assoc.
Qed.

(** A token runs up to the next whitespace character or the end. *)
Lemma split_ws_token tok rest :
  tok ≠ "" →
  str_forall (fun c => negb (is_space c)) tok = true →
  (rest = "" ∨ ∃ c r, rest = String c r ∧ is_space c = true) →
  split_ws (tok +:+ rest) = tok :: split_ws rest.
Proof.
  intros Hne Htok Hrest. unfold split_ws.
  rewrite split_ws_from_token; [|done]. simpl.
  destruct Hrest as [->|(c & r & -> & Hc)]; simpl.
  - by rewrite decide_False.
  - rewrite Hc. by rewrite decide_False.
Qed.

Lemma split_ws_all_space s : str_forall is_space s = true → split_ws s = [].
Proof.
  intros H. rewrite <- (str_app_nil_r s). by rewrite split_ws_skip.
Qed.

Lemma split_ws_from_tokens acc s :
  str_forall (fun c => negb (is_space c)) acc = true →
  Forall (fun tok => tok ≠ "" ∧
                     str_forall (fun c => negb (is_space c)) tok = true)
         (split_ws_from acc s).
Proof.
  revert acc. induction s as [|c s IH]; intros acc Hacc; simpl.
  - destruct (decide (acc = "")); constructor; [done | constructor].
  - destruct (is_space c) eqn:Hc.
    + destruct (decide (acc = "")); [by apply IH|].
      constructor; [done | by apply IH].
    + apply IH. clear IH. induction acc as [|a acc IHa].
      * simpl. by rewrite Hc.
      * rewrite str_app_cons. cbn [str_forall] in *.
        apply andb_prop in Hacc as [-> Hacc]. simpl. by apply IHa.
Qed.

Lemma split_ws_tokens s :
  Forall (fun tok => tok ≠ "" ∧
                     str_forall (fun c => negb (is_space c)) tok = true)
         (split_ws s).
Proof. by apply split_ws_from_tokens. Qed.

#[local] Opaque alloc.

(** C10: with the default separator, [Split] cuts the string of the column
    (the empty string when the column is missing) into its maximal runs of
    non-whitespace characters. No token is empty, so a string that is empty
    or all whitespace gives no row. Each row emitted is a new object that
    holds the input row with that column set to the token, and the input
    row object stays as it was. *)
Theorem Split_default_separator fo column l (h : heap) row s :
  h !! l = Some row →
  dict_get_default column (VStr "") row = VStr s →
  ∃ ls h',
    Mapper_call fo (Split column None) l h = (Ok ls, h') ∧
    Forall2 (fun l' tok =>
               h !! l' = None ∧
               h' !! l' = Some (dict_set column (VStr tok) row))
            ls (split_ws s) ∧
    NoDup ls ∧
    (∀ l0 r0, h !! l0 = Some r0 → h' !! l0 = Some r0) ∧
    Forall (fun tok => tok ≠ "" ∧
                       str_forall (fun c => negb (is_space c)) tok = true)
           (split_ws s) ∧
    (str_forall is_space s = true → ls = []) ∧
    (∀ ws t, str_forall is_space ws = true →
             split_ws (ws +:+ t) = split_ws t) ∧
    (∀ tok rest,
        tok ≠ "" →
        str_forall (fun c => negb (is_space c)) tok = true →
        (rest = "" ∨ ∃ c r, rest = String c r ∧ is_space c = true) →
        split_ws (tok +:+ rest) = tok :: split_ws rest).
Proof.
  intros Hl Hs. unfold Mapper_call. rewrite Hl, Hs. simpl.
  destruct (alloc_all _ h) as [ls h'] eqn:Ha.
  pose proof (alloc_all_spec _ _ _ _ Ha) as [Hfresh Hkeep].
  pose proof (alloc_all_lookup _ _ _ _ Ha) as [Hlook Hnd].
  exists ls, h'. split_and!; try done.
  - apply Forall2_fmap_r in Hlook.
    clear -Hfresh Hlook. induction Hlook as [|l' tok ls toks H1 H2 IH].
    + constructor.
    + apply Forall_cons in Hfresh as [Hf Hfs]. constructor; auto.
  - apply split_ws_tokens.
  - intros Hall. rewrite (split_ws_all_space _ Hall) in Ha.
    simpl in Ha. by injection Ha as <- _.
  - apply split_ws_skip.
  - apply split_ws_token.
Qed.

#[local] Transparent alloc.

Lemma Split_default_separator_witness :
  ({[ 0%nat := [("text", VStr " a  b ")] ]} : heap) !! 0%nat
    = Some [("text", VStr " a  b ")] ∧
  dict_get_default "text" (VStr "") [("text", VStr " a  b ")] = VStr " a  b " ∧
  ∃ ls h',
    Mapper_call no_float (Split "text" None) 0%nat
      {[ 0%nat := [("text", VStr " a  b ")] ]} = (Ok ls, h') ∧
    List.length ls = 2%nat.
Proof.
  split; [reflexivity|]. split; [reflexivity|].
  destruct (Split_default_separator no_float "text" 0%nat
              {[ 0%nat := [("text", VStr " a  b ")] ]}
              [("text", VStr " a  b ")] " a  b ")
    as (ls & h' & Hcall & Hrows & _); [reflexivity | reflexivity |].
  exists ls, h'. split; [exact Hcall|].
  apply Forall2_length in Hrows. exact Hrows.
Defined.

(** ** Joiners *)

Lemma join_loops_true sa sb keys (ra rb : list TRow) :
  join_loops true sa sb keys ra rb =
  flat_map (fun row_a =>
              map (fun row_b => merge_two_dicts_by_keys row_a row_b sa sb keys)
                  rb) ra.
Proof.
  unfold join_loops. induction ra as [|a ra IH]; [done|].
  rewrite bind_cons, IH. cbn [flat_map]. f_equal.
Qed.

Lemma join_loops_false sa sb keys (ra rb : list TRow) :
  join_loops false sa sb keys ra rb = [].
Proof.
  unfold join_loops. induction ra as [|a ra IH]; [done|].
  rewrite bind_cons, IH, app_nil_r. clear IH.
  induction rb as [|b rb IH]; [done|].
  rewrite bind_cons, IH. done.
Qed.


Lemma Joiner_call_emit j keys rows_a rows_b :
  Joiner_call j keys rows_a rows_b =
  if match j with
     | InnerJoiner _ _ =>
         negb (eq_empty_row_list rows_a) && negb (eq_empty_row_list rows_b)
     | OuterJoiner _ _ => true
     | LeftJoiner _ _ => negb (eq_empty_row_list rows_a)
     | RightJoiner _ _ => negb (eq_empty_row_list rows_b)
     end
  then cartesian_merge j keys (iter_rows rows_a) (iter_rows rows_b)
  else [].
Proof.
  unfold Joiner_call, cartesian_merge.
  destruct j; simpl;
    repeat match goal with
           | |- context [eq_empty_row_list ?x] => destruct (eq_empty_row_list x)
           end; simpl;
    by rewrite ?join_loops_true, ?join_loops_false.
Qed.



(** ** The row-merge helper *)






Lemma length_zero_nil {A} (l : list A) : List.length l = 0%nat ↔ l = [].
Proof. by destruct l. Qed.




(** ** Reducers and the grouping keys *)

Lemma bind_Ok {A B} (x : outcome A) (f : A → outcome B) b :
  x ≫= f = Ok b → ∃ a, x = Ok a ∧ f a = Ok b.
Proof. destruct x as [a|e]; [by exists a | discriminate]. Qed.

Lemma dict_item_Ok k row v : dict_item k row = Ok v ↔ dict_get k row = Some v.
Proof.
  unfold dict_item. destruct (dict_get k row); split; intros H;
    by inversion H.
Qed.

Lemma mapM_out_Forall2 {A B} (f : A → outcome B) l out :
  mapM_out f l = Ok out → Forall2 (fun a b => f a = Ok b) l out.
Proof.
  revert out. induction l as [|a l IH]; intros out; simpl.
  - intros [= <-]. constructor.
  - intros (b & Hb & H)%bind_Ok. apply bind_Ok in H as (bs & Hbs & [= <-]).
    constructor; auto.
Qed.

Lemma key_tuple_ext keys (r1 r2 : TRow) :
  (∀ k, k ∈ keys → dict_get k r1 = dict_get k r2) →
  key_tuple keys r1 = key_tuple keys r2.
Proof.
  unfold key_tuple. induction keys as [|k keys IH]; intros H; [done|].
  assert (Hk : dict_item k r1 = dict_item k r2).
  { unfold dict_item. rewrite (H k); [done | apply list_elem_of_here]. }
  simpl. rewrite Hk, IH; [done|].
  intros k' Hk'. apply H. by apply list_elem_of_further.
Qed.

Lemma key_tuple_get keys (r1 r2 : TRow) kv k :
  key_tuple keys r1 = Ok kv → key_tuple keys r2 = Ok kv → k ∈ keys →
  dict_get k r1 = dict_get k r2 ∧ is_Some (dict_get k r1).
Proof.
  unfold key_tuple. revert kv.
  induction keys as [|k0 keys IH]; intros kv H1 H2 Hin.
  - by apply elem_of_nil in Hin.
  - simpl in H1, H2.
    apply bind_Ok in H1 as (v1 & Hv1 & H1).
    apply bind_Ok in H1 as (vs1 & Hvs1 & [= <-]).
    apply bind_Ok in H2 as (v2 & Hv2 & H2).
    apply bind_Ok in H2 as (vs2 & Hvs2 & [= <- <-]).
    apply elem_of_cons in Hin as [->|Hin].
    + apply dict_item_Ok in Hv1, Hv2. rewrite Hv1, Hv2. eauto.
    + by apply (IH vs2).
Qed.

Lemma echo_keys_get group_key row ans0 ans k :
  echo_keys group_key (Some row) ans0 = Ok ans →
  dict_get k ans = if decide (k ∈ group_key) then dict_get k row
                   else dict_get k ans0.
Proof.
  revert ans0. induction group_key as [|key rest IH]; intros ans0;
    cbn [echo_keys].
  - intros [= <-]. rewrite decide_False; [done | apply not_elem_of_nil].
  - intros (v & Hv & H)%bind_Ok. apply dict_item_Ok in Hv.
    rewrite (IH _ H). destruct (decide (k ∈ rest)) as [Hin|Hnin].
    + rewrite decide_True; [done | by apply list_elem_of_further].
    + rewrite dict_get_set. destruct (decide (key = k)) as [->|Hne].
      * rewrite decide_True; [done | apply list_elem_of_here].
      * rewrite decide_False; [done|]. rewrite elem_of_cons. intros [?|?]; congruence.
Qed.

Lemma last_Forall {A} (P : A → Prop) (l : list A) :
  l ≠ [] → Forall P l → ∃ x, last l = Some x ∧ P x.
Proof.
  intros Hne Hall. destruct (last l) as [x|] eqn:Hlast.
  - exists x. split; [done|]. rewrite Forall_forall in Hall.
    apply Hall. apply last_Some in Hlast as [l' ->].
    apply elem_of_app. right. apply list_elem_of_here.
  - by apply last_None in Hlast.
Qed.

Lemma count_words_origin words_column rows c0 c word n :
  count_words words_column rows c0 = Ok c →
  (word, n) ∈ c →
  word ∈ c0.*1 ∨ ∃ row, row ∈ rows ∧ dict_get words_column row = Some word.
Proof.
  revert c0. induction rows as [|row rows IH]; intros c0; simpl.
  - intros [= <-] Hin. left. apply list_elem_of_fmap. by exists (word, n).
  - intros (w & Hw & H)%bind_Ok Hin. apply dict_item_Ok in Hw.
    destruct (IH _ H Hin) as [Hc0|(row' & Hrow' & Hget)].
    + assert (Hk : word ∈ c0.*1 ∨ word = w).
      { clear -Hc0. induction c0 as [|[w' c'] c0 IHc]; simpl in *.
        - apply list_elem_of_singleton in Hc0. by right.
        - destruct (decide (w = w')) as [->|Hne]; simpl in Hc0.
          + by left.
          + apply elem_of_cons in Hc0 as [->|Hc0].
            * left. apply list_elem_of_here.
            * destruct (IHc Hc0) as [?|?]; [left|by right].
              by apply list_elem_of_further. }
      destruct Hk as [?| ->]; [by left|right].
      exists row. split; [apply list_elem_of_here | done].
    + right. exists row'. split; [by apply list_elem_of_further | done].
Qed.

Lemma insert_by_elem {A} (before : A → A → bool) x y (l : list A) :
  y ∈ insert_by before x l → y = x ∨ y ∈ l.
Proof.
  induction l as [|z l IH]; simpl.
  - intros ->%list_elem_of_singleton. by left.
  - destruct (before x z).
    + intros [->|H]%elem_of_cons; [by left | by right].
    + intros [->|H]%elem_of_cons.
      * right. apply list_elem_of_here.
      * destruct (IH H) as [?|?]; [by left|right].
        by apply list_elem_of_further.
Qed.

Lemma sort_by_elem {A} (before : A → A → bool) y (l : list A) :
  y ∈ sort_by before l → y ∈ l.
Proof.
  unfold sort_by. assert (H : ∀ acc,
    y ∈ foldl (fun acc x => insert_by before x acc) acc l → y ∈ acc ∨ y ∈ l).
  { induction l as [|x l IH]; intros acc; simpl; [by left|].
    intros [Hin|Hin]%IH.
    - apply insert_by_elem in Hin as [->|?]; [right; apply list_elem_of_here | by left].
    - right. by apply list_elem_of_further. }
  intros [Hin|Hin]%H; [by apply elem_of_nil in Hin | done].
Qed.

Lemma mapM_out_app {A B} (f : A → outcome B) (l1 l2 : list A) :
  mapM_out f (l1 ++ l2)
  = (x ← mapM_out f l1; y ← mapM_out f l2; Ok (x ++ y)).
Proof.
  induction l1 as [|a l1 IH]; simpl.
  - by destruct (mapM_out f l2).
  - destruct (f a) as [b|e]; [|done]. simpl. rewrite IH.
    destruct (mapM_out f l1) as [x|e]; [|done]. simpl.
    by destruct (mapM_out f l2).
Qed.

Lemma n_extreme_rest_Ok column k0 rows keyed :
  n_extreme_rest column k0 rows = Ok keyed →
  mapM_out (fun row => k ← dict_item column row; Ok (k, row)) rows = Ok keyed.
Proof.
  revert keyed. induction rows as [|row rows IH]; intros keyed; simpl; [done|].
  destruct (dict_item column row) as [k|e]; [|done]. simpl.
  destruct (same_type k0 k); [|done].
  intros (krs & Hkrs & [= <-])%bind_Ok. by rewrite (IH krs Hkrs).
Qed.

(** What [nlargest] and [nsmallest] return is what sorting all the rows by
    their keys and cutting after [n] gives. *)
Lemma n_extreme_Ok largest n column rows out :
  n_extreme largest n column rows = Ok out →
  (n ≤ 0 ∧ out = []) ∨
  (0 < n ∧
   ∃ keyed,
     mapM_out (fun row => k ← dict_item column row; Ok (k, row)) rows
     = Ok keyed ∧
     out = take (Z.to_nat n)
             (snd <$> sort_by (fun x y =>
                                 if largest then value_ltb y.1 x.1
                                 else value_ltb x.1 y.1) keyed)).
Proof.
  unfold n_extreme. destruct (n <=? 0) eqn:Hn.
  - intros [= <-]. left. apply Z.leb_le in Hn. done.
  - apply Z.leb_gt in Hn. intros (keyed & Hk & H)%bind_Ok. right.
    split; [done|].
    assert (Hsplit :
      mapM_out (fun row => k ← dict_item column row; Ok (k, row)) rows
      = (y ← mapM_out (fun row => k ← dict_item column row; Ok (k, row))
               (drop (Z.to_nat n) rows);
         Ok (keyed ++ y))).
    { rewrite <- (take_drop (Z.to_nat n) rows) at 1.
      by rewrite mapM_out_app, Hk. }
    destruct keyed as [|[k0 r0] rest].
    + injection H as <-.
      assert (Hrows : rows = []).
      { destruct rows as [|row rows]; [done|].
        destruct (Z.to_nat n) as [|m] eqn:Hm; [lia|].
        cbn [take mapM_out] in Hk.
        by apply bind_Ok in Hk as (b & _ & (bs & _ & [=])%bind_Ok). }
      subst rows. exists []. split; [done|]. simpl. by rewrite take_nil.
    + destruct (forallb _ rest); [|done].
      apply bind_Ok in H as (others & Ho & [= <-]).
      rewrite Hsplit, (n_extreme_rest_Ok _ _ _ _ Ho).
      cbn [mbind outcome_bind]. by eexists.
Qed.

Lemma n_extreme_elem largest n column rows out row :
  n_extreme largest n column rows = Ok out → row ∈ out → row ∈ rows.
Proof.
  intros [[_ ->]|(_ & keyed & Hk & ->)]%n_extreme_Ok Hin.
  - by apply elem_of_nil in Hin.
  - apply subseteq_take in Hin.
    apply list_elem_of_fmap in Hin as ([k r] & -> & Hin). simpl.
    apply sort_by_elem in Hin. apply mapM_out_Forall2 in Hk.
    clear -Hk Hin. induction Hk as [|row0 [k0 r0] rows keyed Hf _ IH].
    + by apply elem_of_nil in Hin.
    + apply bind_Ok in Hf as (k' & _ & [= <- <-]).
      apply elem_of_cons in Hin as [[= _ ->]|Hin].
      * apply list_elem_of_here.
      * apply list_elem_of_further. by apply IH.
Qed.

Lemma Forall2_elem_r {A B} (P : A → B → Prop) l k y :
  Forall2 P l k → y ∈ k → ∃ x, x ∈ l ∧ P x y.
Proof.
  induction 1 as [|x y' l k Hxy _ IH]; intros Hin.
  - by apply elem_of_nil in Hin.
  - apply elem_of_cons in Hin as [->|Hin].
    + exists x. split; [apply list_elem_of_here | done].
    + destruct (IH Hin) as (x' & ? & ?). exists x'.
      split; [by apply list_elem_of_further | done].
Qed.

(** C7, as the code has it: for a non-empty group whose rows share the key
    tuple [kv], every row emitted by [FirstReducer], [TopN], [Count],
    [Mean] and [TermFrequency] carries all the grouping-key columns with
    the values [kv], provided the column the reducer adds is not itself a
    grouping key (its value would replace the key's). [Sum] builds a row of
    the first grouping-key column and the sum only. *)
Theorem Reducer_call_key_echo fo r group_key rows kv out :
  rows ≠ [] →
  group_key ≠ [] →
  Forall (fun row => key_tuple group_key row = Ok kv) rows →
  Reducer_call fo r group_key rows = Ok out →
  match r with
  | Sum column =>
      ∃ key0 v0 sum_,
        head group_key = Some key0 ∧ head kv = Some v0 ∧
        out = [dict_set column sum_ [(key0, v0)]]
  | _ =>
      (∀ c, result_column_of r = Some c → c ∉ group_key) →
      Forall (fun o => key_tuple group_key o = Ok kv) out
  end.
Proof.
  intros Hne Hkeys Hall Hcall.
  destruct (last_Forall _ rows Hne Hall) as (lastrow & Hlast & Hlastkv).
  assert (Hbuilt : ∀ c v ans,
    c ∉ group_key →
    echo_keys group_key (Some lastrow) [] = Ok ans →
    key_tuple group_key (dict_set c v ans) = Ok kv).
  { intros c v ans Hc Hecho. rewrite <- Hlastkv. apply key_tuple_ext.
    intros k Hk. rewrite dict_get_set_ne; [|by intros ->].
    rewrite (echo_keys_get _ _ _ _ k Hecho). by rewrite decide_True. }
  destruct r; simpl in Hcall.
  - (* FirstReducer *)
    intros _. destruct rows as [|row rows]; [done|]. injection Hcall as <-.
    apply Forall_cons in Hall as [H _]. by constructor.
  - (* TopN *)
    intros _. rewrite Forall_forall in Hall |- *. intros o Ho.
    apply Hall. by eapply n_extreme_elem.
  - (* TermFrequency *)
    intros Hres. specialize (Hres result_column eq_refl).
    apply bind_Ok in Hcall as (wc & Hwc & Hcall).
    rewrite Hlast in Hcall.
    apply bind_Ok in Hcall as (common & Hcommon & Hcall).
    apply mapM_out_Forall2 in Hcall.
    apply Forall_forall. intros o Ho.
    destruct (Forall2_elem_r _ _ _ _ Hcall Ho) as ([word n] & Hin & Hf).
    apply bind_Ok in Hf as (tf & _ & [= <-]). simpl.
    rewrite <- Hlastkv. apply key_tuple_ext. intros k Hk.
    rewrite dict_get_set_ne; [|by intros ->].
    rewrite dict_get_set. destruct (decide (words_column = k)) as [<-|Hne'].
    + destruct (count_words_origin _ _ _ _ _ _ Hwc Hin)
        as [Hnil|(row & Hrow & Hget)]; [by apply elem_of_nil in Hnil|].
      rewrite Forall_forall in Hall.
      destruct (key_tuple_get _ _ _ _ _ (Hall _ Hrow) Hlastkv Hk) as [<- _].
      done.
    + rewrite (echo_keys_get _ _ _ _ k Hcommon). by rewrite decide_True.
  - (* Count *)
    intros Hres. specialize (Hres column eq_refl). rewrite Hlast in Hcall.
    apply bind_Ok in Hcall as (ans & Hans & [= <-]).
    constructor; [|constructor]. by apply Hbuilt.
  - (* Sum *)
    apply bind_Ok in Hcall as (sum_ & _ & Hcall).
    destruct group_key as [|key0 rest]; [done|]. rewrite Hlast in Hcall.
    apply bind_Ok in Hcall as (v & Hv & [= <-]).
    unfold key_tuple in Hlastkv. simpl in Hlastkv.
    apply bind_Ok in Hlastkv as (v' & Hv' & Hlastkv).
    rewrite Hv in Hv'. injection Hv' as <-.
    apply bind_Ok in Hlastkv as (vs & _ & [= <-]).
    exists key0, v, sum_. done.
  - (* Mean *)
    intros Hres. specialize (Hres column eq_refl).
    apply bind_Ok in Hcall as (sum_ & _ & Hcall). rewrite Hlast in Hcall.
    apply bind_Ok in Hcall as (ans & Hans & Hcall).
    apply bind_Ok in Hcall as (mean & _ & [= <-]).
    constructor; [|constructor]. by apply Hbuilt.
Qed.

Lemma Reducer_call_key_echo_witness :
  Forall (fun row => key_tuple ["k"] row = Ok [VInt 1])
    [[("k", VInt 1); ("v", VInt 5)]; [("k", VInt 1); ("v", VInt 6)]] ∧
  Reducer_call no_float (Count "n") ["k"]
    [[("k", VInt 1); ("v", VInt 5)]; [("k", VInt 1); ("v", VInt 6)]]
  = Ok [[("k", VInt 1); ("n", VInt 2)]] ∧
  Forall (fun o => key_tuple ["k"] o = Ok [VInt 1])
    [[("k", VInt 1); ("n", VInt 2)]].
Proof.
  assert (H1 : Forall (fun row => key_tuple ["k"] row = Ok [VInt 1])
                 [[("k", VInt 1); ("v", VInt 5)]; [("k", VInt 1); ("v", VInt 6)]])
    by (repeat constructor).
  assert (H2 : Reducer_call no_float (Count "n") ["k"]
                 [[("k", VInt 1); ("v", VInt 5)]; [("k", VInt 1); ("v", VInt 6)]]
               = Ok [[("k", VInt 1); ("n", VInt 2)]]) by reflexivity.
  split; [exact H1|]. split; [exact H2|].
  apply (Reducer_call_key_echo no_float (Count "n") ["k"]
           [[("k", VInt 1); ("v", VInt 5)]; [("k", VInt 1); ("v", VInt 6)]]
           [VInt 1] [[("k", VInt 1); ("n", VInt 2)]]);
    [discriminate | discriminate | exact H1 | exact H2 |].
  intros c [= <-]. intros Hin. apply list_elem_of_singleton in Hin.
  discriminate Hin.
Defined.

(** C7 as stated fails: [Sum] echoes the first grouping key only. *)
Lemma Sum_drops_second_key :
  ¬ (∀ fo r group_key rows kv out,
       rows ≠ [] → group_key ≠ [] →
       Forall (fun row => key_tuple group_key row = Ok kv) rows →
       Reducer_call fo r group_key rows = Ok out →
       Forall (fun o => key_tuple group_key o = Ok kv) out).
Proof.
  intros H.
  specialize (H no_float (Sum "v") ["k"; "m"]
                [[("k", VInt 1); ("m", VInt 2); ("v", VInt 5)]]
                [VInt 1; VInt 2]
                [[("k", VInt 1); ("v", VInt 5)]]).
  assert (Hout : Forall (fun o => key_tuple ["k"; "m"] o = Ok [VInt 1; VInt 2])
                   [[("k", VInt 1); ("v", VInt 5)]]).
  { apply H; [discriminate | discriminate | repeat constructor | reflexivity]. }
  apply Forall_cons in Hout as [Hout _]. vm_compute in Hout. discriminate Hout.
Qed.

(** A result column that is a grouping key takes the key's place. *)
Example Count_overwrites_key :
  Reducer_call no_float (Count "k") ["k"]
    [[("k", VInt 7); ("v", VInt 5)]; [("k", VInt 7); ("v", VInt 6)]]
  = Ok [[("k", VInt 2)]].
Proof. reflexivity. Qed.

(** ** The grouping iterator *)

Lemma first_seen_contiguous seen prev kvs :
  prev ∈ seen →
  (∀ kv, kv ∈ seen → kv ≠ prev → kv ∉ kvs) →
  contiguous_from prev kvs = true →
  first_seen_from seen kvs = key_runs_from prev kvs.
Proof.
  revert seen prev. induction kvs as [|kv kvs IH]; intros seen prev Hp Hs Hc;
    [done|].
  cbn [first_seen_from key_runs_from contiguous_from] in *.
  destruct (decide (kv = prev)) as [->|Hne].
  - rewrite bool_decide_eq_true_2; [|done]. apply IH; [done| |done].
    intros kv Hkv Hkp. specialize (Hs kv Hkv Hkp).
    by apply not_elem_of_cons in Hs as [_ ?].
  - apply andb_prop in Hc as [Hprev Hc]. apply bool_decide_eq_true in Hprev.
    rewrite bool_decide_eq_false_2.
    + f_equal. apply IH; [apply list_elem_of_here| |done].
      intros kv' [->|Hkv']%elem_of_cons Hkk; [done|].
      destruct (decide (kv' = prev)) as [->|Hkp]; [done|].
      specialize (Hs kv' Hkv' Hkp). by apply not_elem_of_cons in Hs as [_ ?].
    + intros Hkv. apply (Hs kv Hkv Hne). apply list_elem_of_here.
Qed.

Lemma first_seen_key_runs kvs :
  contiguous kvs = true → first_seen kvs = key_runs kvs.
Proof.
  destruct kvs as [|kv kvs]; [done|]. unfold first_seen, contiguous, key_runs.
  intros Hc. cbn [first_seen_from].
  rewrite bool_decide_eq_false_2; [|apply not_elem_of_nil].
  f_equal. apply first_seen_contiguous; [apply list_elem_of_here| |done].
  intros kv' Hin Hne. apply list_elem_of_singleton in Hin. done.
Qed.

(** *** Comparing key tuples *)

Lemma code_inj a b : code a = code b → a = b.
Proof.
  unfold code. intros H. apply Nat2Z.inj in H.
  rewrite <- (ascii_nat_embedding a), <- (ascii_nat_embedding b). by rewrite H.
Qed.

Lemma str_ltb_total s t : str_ltb s t = false → str_ltb t s = false → s = t.
Proof.
  revert t. induction s as [|a s IH]; intros [|b t]; simpl; try done.
  destruct (code a <? code b) eqn:Hab; [done|].
  destruct (code b <? code a) eqn:Hba; [done|].
  intros Hs Ht. apply Z.ltb_ge in Hab, Hba.
  assert (a = b) as -> by (apply code_inj; lia). f_equal. by apply IH.
Qed.

Lemma py_lt_total a b : py_lt a b = Ok false → py_lt b a = Ok false → a = b.
Proof.
  destruct a as [x|s], b as [y|t]; simpl; try done.
  - intros [= Hxy] [= Hyx]. apply Z.ltb_ge in Hxy, Hyx. f_equal. lia.
  - intros [= Hst] [= Hts]. f_equal. by apply str_ltb_total.
Qed.


Lemma str_ltb_irrefl s : str_ltb s s = false.
Proof. induction s as [|a s IH]; simpl; [done|]. by rewrite Z.ltb_irrefl. Qed.

Lemma str_ltb_trans s t u :
  str_ltb s t = true → str_ltb t u = true → str_ltb s u = true.
Proof.
  revert t u. induction s as [|a s IH]; intros [|b t] [|c u]; simpl; try done.
  destruct (code a <? code b) eqn:Hab; [|destruct (code b <? code a) eqn:Hba];
    try done;
    (destruct (code b <? code c) eqn:Hbc; [|destruct (code c <? code b) eqn:Hcb]);
    try done; intros Hst Htu;
    repeat match goal with
           | H : (_ <? _) = true |- _ => apply Z.ltb_lt in H
           | H : (_ <? _) = false |- _ => apply Z.ltb_ge in H
           end.
  - rewrite (proj2 (Z.ltb_lt _ _)); [done | lia].
  - rewrite (proj2 (Z.ltb_lt _ _)); [done | lia].
  - rewrite (proj2 (Z.ltb_lt _ _)); [done | lia].
  - rewrite (proj2 (Z.ltb_ge _ _)), (proj2 (Z.ltb_ge _ _)); [|lia|lia].
    by eapply IH.
Qed.

Lemma py_lt_irrefl a : py_lt a a = Ok false.
Proof.
  destruct a as [x|s]; simpl; [by rewrite Z.ltb_irrefl | by rewrite str_ltb_irrefl].
Qed.

Lemma py_lt_trans a b c :
  py_lt a b = Ok true → py_lt b c = Ok true → py_lt a c = Ok true.
Proof.
  destruct a as [x|s], b as [y|t], c as [z|u]; simpl; try done.
  - intros [= Hxy%Z.ltb_lt] [= Hyz%Z.ltb_lt]. f_equal. apply Z.ltb_lt. lia.
  - intros [= Hst] [= Htu]. f_equal. by eapply str_ltb_trans.
Qed.

Lemma lex_compare_refl a : lex_compare a a = Ok Eq.
Proof.
  induction a as [|x a IH]; simpl; [done|]. by rewrite py_lt_irrefl.
Qed.

Lemma lex_compare_Lt_inv x a y b :
  lex_compare (x :: a) (y :: b) = Ok Lt →
  py_lt x y = Ok true ∨ (x = y ∧ lex_compare a b = Ok Lt).
Proof.
  simpl. destruct (py_lt x y) as [[|]|e] eqn:Hxy; simpl; [by left| |done].
  destruct (py_lt y x) as [[|]|e] eqn:Hyx; simpl; [done| |done].
  intros H. right. split; [by apply py_lt_total | done].
Qed.

Lemma lex_compare_Lt_trans a b c :
  lex_compare a b = Ok Lt → lex_compare b c = Ok Lt → lex_compare a c = Ok Lt.
Proof.
  revert b c. induction a as [|x a IH]; intros [|y b] [|z c]; try done.
  intros [Hxy|[-> Hab]]%lex_compare_Lt_inv [Hyz|[-> Hbc]]%lex_compare_Lt_inv;
    simpl.
  - by rewrite (py_lt_trans x y z).
  - by rewrite Hxy.
  - by rewrite Hyz.
  - rewrite py_lt_irrefl. simpl. by eapply IH.
Qed.

Lemma key_le_trans : Transitive key_le.
Proof.
  intros a b c [->|Hab] [->|Hbc]; [by left | by right | by right |].
  right. by eapply lex_compare_Lt_trans.
Qed.

Lemma StronglySorted_contiguous prev kvs :
  StronglySorted key_le (prev :: kvs) → contiguous_from prev kvs = true.
Proof.
  revert prev. induction kvs as [|kv kvs IH]; intros prev Hs; [done|].
  apply StronglySorted_inv in Hs as [Hs Hprev].
  cbn [contiguous_from]. destruct (decide (kv = prev)) as [->|Hne].
  - by apply IH.
  - apply andb_true_intro. split; [|by apply IH].
    apply bool_decide_eq_true. intros Hin.
    apply List.Forall_cons_iff in Hprev as [[Heq|Hlt] _]; [done|].
    apply StronglySorted_inv in Hs as [_ Hkv].
    rewrite List.Forall_forall in Hkv.
    destruct (Hkv prev) as [Heq|Hlt']; [by apply list_elem_of_In | done |].
    pose proof (lex_compare_Lt_trans _ _ _ Hlt Hlt') as Hcyc.
    rewrite lex_compare_refl in Hcyc. discriminate Hcyc.
Qed.

(** In a stream sorted ascending on the key tuple, equal key tuples are
    contiguous. *)
Lemma ascending_contiguous kvs : ascending kvs → contiguous kvs = true.
Proof.
  intros Hs. apply (Sorted_StronglySorted key_le_trans) in Hs.
  destruct kvs as [|kv kvs]; [done|]. by apply StronglySorted_contiguous.
Qed.

(** The loop of [group_iterator] takes the rows that carry the current key
    tuple and stops on the first row with another one. *)
Lemma group_loop_spec keys gkv rest kvs :
  Forall2 (fun row kv => key_tuple keys row = Ok kv) rest kvs →
  ∃ ys rest' gkv' nxt,
    group_loop keys gkv rest = Ok (ys, (rest', gkv', nxt)) ∧
    Forall (fun row => key_tuple keys row = Ok gkv) ys ∧
    (List.length rest' ≤ List.length rest)%nat ∧
    match nxt with
    | None => rest = ys ∧ rest' = [] ∧ gkv' = gkv ∧ key_runs_from gkv kvs = []
    | Some row =>
        rest = ys ++ row :: rest' ∧ key_tuple keys row = Ok gkv' ∧
        (List.length rest' < List.length rest)%nat ∧
        ∃ kvs', Forall2 (fun row kv => key_tuple keys row = Ok kv) rest' kvs' ∧
                key_runs_from gkv kvs = gkv' :: key_runs_from gkv' kvs'
    end.
Proof.
  induction 1 as [|row kv rest kvs Hrow Hrest IH].
  - exists [], [], gkv, None. simpl. split_and!; done.
  - cbn [group_loop key_runs_from]. rewrite Hrow. simpl.
    destruct (decide (kv ≠ gkv)) as [Hne|Heq].
    + exists [], rest, kv, (Some row). rewrite decide_False; [|done].
      simpl. split_and!; try done; [lia | lia |]. by exists kvs.
    + apply dec_stable in Heq. subst kv. rewrite decide_True; [|done].
      destruct IH as (ys & rest' & gkv' & nxt & -> & Hys & Hlen & Hnxt).
      exists (row :: ys), rest', gkv', nxt. simpl.
      split_and!; [done | by constructor | lia |].
      destruct nxt as [r|].
      * destruct Hnxt as (-> & Hr & Hlt & kvs' & Hkvs' & Hruns).
        split_and!; [done | done | simpl; lia |]. by exists kvs'.
      * destruct Hnxt as (-> & -> & -> & Hruns). done.
Qed.

Lemma all_groups_spec keys fuel first rest gkv kvs :
  key_tuple keys first = Ok gkv →
  Forall2 (fun row kv => key_tuple keys row = Ok kv) rest kvs →
  (List.length rest < fuel)%nat →
  ∃ groups,
    all_groups fuel (mkGroupsCreator keys rest gkv (Some first))
      = Some (Ok groups) ∧
    List.concat groups = first :: rest ∧
    Forall2 (fun grp kv =>
               grp ≠ [] ∧ Forall (fun row => key_tuple keys row = Ok kv) grp)
            groups (gkv :: key_runs_from gkv kvs).
Proof.
  revert first rest gkv kvs.
  induction fuel as [|fuel IH]; intros first rest gkv kvs Hfirst Hrest Hfuel;
    [lia|].
  cbn [all_groups first_group_element]. unfold group_iterator.
  cbn [first_group_element gc_keys group_key_values rows_generator].
  destruct (group_loop_spec keys gkv rest kvs Hrest)
    as (ys & rest' & gkv' & nxt & -> & Hys & Hlen & Hnxt).
  simpl. destruct nxt as [row|].
  - destruct Hnxt as (-> & Hrow & Hlt & kvs' & Hkvs' & ->).
    destruct (IH row rest' gkv' kvs' Hrow Hkvs') as (groups & -> & Hcat & Hall);
      [lia|].
    exists ((first :: ys) :: groups). split_and!; [done| |].
    + simpl. rewrite Hcat. done.
    + constructor; [|done]. split; [done|]. by constructor.
  - destruct Hnxt as (-> & -> & -> & ->). destruct fuel; simpl.
    + exists [first :: ys]. split_and!; [done | simpl; by rewrite app_nil_r |].
      constructor; [|constructor]. split; [done|]. by constructor.
    + exists [first :: ys]. split_and!; [done | simpl; by rewrite app_nil_r |].
      constructor; [|constructor]. split; [done|]. by constructor.
Qed.

(** C2, as the code has it: over rows that all carry the key columns, the
    grouping iterator hands out non-empty groups whose concatenation is the
    input, row for row; the groups are the maximal runs of consecutive rows
    with one key tuple; an empty input gives no group; and when equal key
    tuples are contiguous in the input, as they are in one sorted ascending
    on the key tuple, the groups come in the order in which their key
    tuples first appear. *)
Theorem groups_of_spec keys rows kvs :
  mapM_out (key_tuple keys) rows = Ok kvs →
  ∃ groups,
    groups_of keys rows = Some (Ok groups) ∧
    List.concat groups = rows ∧
    Forall2 (fun grp kv =>
               grp ≠ [] ∧ Forall (fun row => key_tuple keys row = Ok kv) grp)
            groups (key_runs kvs) ∧
    (rows = [] → groups = []) ∧
    (contiguous kvs = true ∨ ascending kvs →
     mapM_out (group_key_of keys) groups = Ok (first_seen kvs)).
Proof.
  intros Hk. apply mapM_out_Forall2 in Hk. unfold groups_of.
  destruct Hk as [|first gkv rest kvs Hfirst Hrest].
  - exists []. simpl. split_and!; done.
  - cbn [GroupsCreator_init]. rewrite Hfirst. simpl.
    destruct (all_groups_spec keys (S (S (List.length rest))) first rest gkv kvs
                Hfirst Hrest) as (groups & Hg & Hcat & Hall); [lia|].
    exists groups. split_and!; [exact Hg | done | done | done |].
    intros Hc.
    assert (Hc' : contiguous (gkv :: kvs) = true)
      by (destruct Hc as [?|?]; [done | by apply ascending_contiguous]).
    clear Hc. rename Hc' into Hc.
    rewrite (first_seen_key_runs (gkv :: kvs) Hc).
    clear -Hall. cbn [key_runs]. revert Hall.
    generalize (gkv :: key_runs_from gkv kvs). intros gks Hall.
    induction Hall as [|grp kv groups gks [Hne Hgrp] _ IH]; [done|].
    simpl. destruct grp as [|row grp]; [done|].
    apply Forall_cons in Hgrp as [Hrow _]. simpl. rewrite Hrow. simpl.
    by rewrite IH.
Qed.

Lemma groups_of_spec_witness :
  mapM_out (key_tuple ["k"])
    [[("k", VInt 1); ("v", VInt 5)]; [("k", VInt 1); ("v", VInt 6)];
     [("k", VInt 2); ("v", VInt 7)]]
  = Ok [[VInt 1]; [VInt 1]; [VInt 2]] ∧
  ∃ groups,
    groups_of ["k"]
      [[("k", VInt 1); ("v", VInt 5)]; [("k", VInt 1); ("v", VInt 6)];
       [("k", VInt 2); ("v", VInt 7)]] = Some (Ok groups) ∧
    mapM_out (group_key_of ["k"]) groups = Ok [[VInt 1]; [VInt 2]].
Proof.
  split; [reflexivity|].
  destruct (groups_of_spec ["k"]
              [[("k", VInt 1); ("v", VInt 5)]; [("k", VInt 1); ("v", VInt 6)];
               [("k", VInt 2); ("v", VInt 7)]]
              [[VInt 1]; [VInt 1]; [VInt 2]] eq_refl)
    as (groups & Hg & _ & _ & _ & Hord).
  exists groups. split; [exact Hg|]. apply Hord. left. reflexivity.
Defined.

(** C2 as stated fails on an input in which a key tuple comes back after
    another one: it is handed out as a further group, so the groups are not
    in the order of first appearance. *)
Lemma groups_of_repeats_returning_key :
  ¬ (∀ keys rows kvs groups,
       mapM_out (key_tuple keys) rows = Ok kvs →
       groups_of keys rows = Some (Ok groups) →
       List.concat groups = rows ∧
       mapM_out (group_key_of keys) groups = Ok (first_seen kvs) ∧
       (rows = [] → groups = [])).
Proof.
  intros H.
  destruct (H ["k"] [[("k", VInt 1)]; [("k", VInt 2)]; [("k", VInt 1)]]
              [[VInt 1]; [VInt 2]; [VInt 1]]
              [[[("k", VInt 1)]]; [[("k", VInt 2)]]; [[("k", VInt 1)]]]
              eq_refl eq_refl) as (_ & Hord & _).
  vm_compute in Hord. discriminate Hord.
Qed.

(** ** The join operator *)

Lemma compare_key_values_lex kl kr :
  compare_key_values kl kr =
  (c ← lex_compare kl kr;
   Ok (match c with Lt => (0, 1) | Gt => (1, 0) | Eq => (1, 1) end)).
Proof.
  revert kr. induction kl as [|a kl IH]; intros [|b kr]; try done.
  cbn [compare_key_values lex_compare]. unfold py_gt.
  destruct (py_lt a b) as [[|]|e]; try done. simpl.
  destruct (py_lt b a) as [[|]|e]; try done. simpl. apply IH.
Qed.

Lemma key_tuple_nil_row keys kv :
  key_tuple keys empty_row = Ok kv → keys = [] ∧ kv = [].
Proof. destruct keys; simpl; [by intros [= <-] | discriminate]. Qed.

Lemma group_loop_next keys gkv rest ys rest' gkv' nxt :
  group_loop keys gkv rest = Ok (ys, (rest', gkv', nxt)) →
  match nxt with
  | Some row => key_tuple keys row = Ok gkv' ∧ gkv' ≠ gkv
  | None => True
  end.
Proof.
  revert ys. induction rest as [|row rest IH]; intros ys; cbn [group_loop].
  - by intros [= <- <- <- <-].
  - intros (cur & Hcur & H)%bind_Ok.
    destruct (decide (cur ≠ gkv)) as [Hne|_].
    + by injection H as <- <- <- <-.
    + apply bind_Ok in H as ([ys' [[r' g'] n']] & Hloop & H).
      injection H as <- <- <- <-. by eapply IH.
Qed.

Lemma group_iterator_ok g grp g' :
  gc_ok g →
  group_iterator g = Ok (grp, g') →
  gc_ok g' ∧ gc_keys g' = gc_keys g ∧
  (is_Some (first_group_element g) →
   group_key_of (gc_keys g) grp = Ok (group_key_values g)).
Proof.
  unfold gc_ok, group_iterator. destruct g as [keys rest gkv [first|]]; simpl.
  - intros [Hfirst Hne] (res & Hloop & H)%bind_Ok.
    destruct res as [ys [[rest' gkv'] nxt]]. injection H as <- <-. simpl.
    apply group_loop_next in Hloop. split_and!; [|done|done].
    destruct nxt as [row|]; [|done]. destruct Hloop as [Hrow Hdiff].
    split; [done|]. intros ->. apply key_tuple_nil_row in Hrow as [-> ->].
    simpl in Hfirst. by injection Hfirst as <-.
  - intros _ [= <- <-]. simpl. split_and!; [done|done|]. by intros [? ?].
Qed.

Lemma all_groups_inv fuel g gs :
  all_groups fuel g = Some (Ok gs) →
  (first_group_element g = None ∧ gs = []) ∨
  (∃ fuel' grp g' gs',
     fuel = S fuel' ∧ is_Some (first_group_element g) ∧
     group_iterator g = Ok (grp, g') ∧
     all_groups fuel' g' = Some (Ok gs') ∧ gs = grp :: gs').
Proof.
  destruct fuel as [|fuel']; cbn [all_groups];
    destruct (first_group_element g) as [row|] eqn:Hfirst.
  - discriminate.
  - intros [= <-]. by left.
  - destruct (group_iterator g) as [[grp g']|e]; [|discriminate].
    destruct (all_groups fuel' g') as [[gs'|e]|] eqn:Hrec; try discriminate.
    intros [= <-]. right. exists fuel', grp, g', gs'. eauto.
  - intros [= <-]. by left.
Qed.

Lemma Join_drain_left_spec fuel j keys L fl GL :
  all_groups fl L = Some (Ok GL) →
  (List.length GL ≤ fuel)%nat →
  Join_drain_left fuel j keys L
  = Some (Ok (flat_map (fun gl => Joiner_call j keys (PyGenerator gl) sentinel)
                GL)).
Proof.
  revert L fl GL. induction fuel as [|fuel IH]; intros L fl GL Hall Hlen;
    apply all_groups_inv in Hall
      as [[Hnone ->]|(fl' & grp & L' & GL' & -> & [r Hsome] & Hit & Hall & ->)];
    cbn [Join_drain_left].
  - by rewrite Hnone.
  - simpl in Hlen. lia.
  - by rewrite Hnone.
  - rewrite Hsome, Hit. simpl in Hlen.
    rewrite (IH L' fl' GL' Hall); [done | lia].
Qed.

Lemma Join_drain_right_spec fuel j keys R fr GR :
  all_groups fr R = Some (Ok GR) →
  (List.length GR ≤ fuel)%nat →
  Join_drain_right fuel j keys R
  = Some (Ok (flat_map (fun gr => Joiner_call j keys sentinel (PyGenerator gr))
                GR)).
Proof.
  revert R fr GR. induction fuel as [|fuel IH]; intros R fr GR Hall Hlen;
    apply all_groups_inv in Hall
      as [[Hnone ->]|(fr' & grp & R' & GR' & -> & [r Hsome] & Hit & Hall & ->)];
    cbn [Join_drain_right].
  - by rewrite Hnone.
  - simpl in Hlen. lia.
  - by rewrite Hnone.
  - rewrite Hsome, Hit. simpl in Hlen.
    rewrite (IH R' fr' GR' Hall); [done | lia].
Qed.

Lemma merge_join_spec_nil_l j keys R :
  merge_join_spec j keys [] R
  = Ok (flat_map (fun gr => Joiner_call j keys sentinel (PyGenerator gr)) R).
Proof. by destruct R. Qed.

Lemma merge_join_spec_nil_r j keys L :
  merge_join_spec j keys L []
  = Ok (flat_map (fun gl => Joiner_call j keys (PyGenerator gl) sentinel) L).
Proof. by destruct L. Qed.

Lemma merge_join_spec_cons j keys gl L' gr R' :
  merge_join_spec j keys (gl :: L') (gr :: R') =
  (k_L ← group_key_of keys gl;
   k_R ← group_key_of keys gr;
   c ← lex_compare k_L k_R;
   match c with
   | Eq =>
       out ← merge_join_spec j keys L' R';
       Ok (Joiner_call j keys (PyGenerator gl) (PyGenerator gr) ++ out)
   | Lt =>
       out ← merge_join_spec j keys L' (gr :: R');
       Ok (Joiner_call j keys (PyGenerator gl) sentinel ++ out)
   | Gt =>
       out ← merge_join_spec j keys (gl :: L') R';
       Ok (Joiner_call j keys sentinel (PyGenerator gr) ++ out)
   end).
Proof. reflexivity. Qed.

Lemma Join_loops_step n F j keys L R out L' R' :
  truthy (first_group_element L) && truthy (first_group_element R) = true →
  Join_step j keys L R = Ok (out, L', R') →
  Join_loops (S n) F j keys L R =
  match Join_loops n F j keys L' R' with
  | Some (Ok outs) => Some (Ok (out ++ outs))
  | other => other
  end.
Proof.
  intros Ht Hstep. unfold Join_loops. cbn [Join_main]. rewrite Ht, Hstep.
  destruct (Join_main n j keys L' R') as [[[[o1 L''] R'']|e]|]; [|done|done].
  destruct (Join_drain_left F j keys L'') as [[o2|e]|]; [|done|done].
  destruct (Join_drain_right F j keys R'') as [[o3|e]|]; [|done|done].
  by rewrite <- app_assoc.
Qed.

Lemma Join_loops_raise n F j keys L R e :
  truthy (first_group_element L) && truthy (first_group_element R) = true →
  Join_step j keys L R = Raise e →
  Join_loops (S n) F j keys L R = Some (Raise e).
Proof.
  intros Ht Hstep. unfold Join_loops. cbn [Join_main]. by rewrite Ht, Hstep.
Qed.

Lemma Join_loops_done n F j keys L R fl fr GL GR :
  truthy (first_group_element L) && truthy (first_group_element R) = false →
  all_groups fl L = Some (Ok GL) →
  all_groups fr R = Some (Ok GR) →
  (List.length GL ≤ F)%nat → (List.length GR ≤ F)%nat →
  Join_loops n F j keys L R =
  Some (Ok (flat_map (fun gl => Joiner_call j keys (PyGenerator gl) sentinel) GL
            ++ flat_map (fun gr => Joiner_call j keys sentinel (PyGenerator gr))
                 GR)).
Proof.
  intros Ht HL HR HlL HlR. unfold Join_loops.
  assert (Hmain : Join_main n j keys L R = Some (Ok ([], L, R))).
  { destruct n; cbn [Join_main]; by rewrite Ht. }
  rewrite Hmain, (Join_drain_left_spec F j keys L fl GL HL HlL),
    (Join_drain_right_spec F j keys R fr GR HR HlR). done.
Qed.

Lemma gc_ok_truthy g :
  gc_ok g → truthy (first_group_element g)
            = bool_decide (is_Some (first_group_element g)).
Proof.
  unfold gc_ok, truthy. destruct (first_group_element g) as [row|].
  - intros [_ Hne]. rewrite (bool_decide_eq_true_2 (is_Some _)); [|by eexists].
    rewrite bool_decide_eq_false_2; [done|]. by intros ?%length_zero_nil.
  - intros _. rewrite bool_decide_eq_false_2; [done|]. by intros [? ?].
Qed.

(** The loops of [Join.__call__] run the state machine of the
    specification over the groups of the two sides, as long as no group
    starts with an empty row (the first loop tests the truth value of the
    row, not its presence). *)
Lemma Join_loops_spec n F j keys L R fl fr GL GR :
  gc_ok L → gc_ok R →
  gc_keys L = keys → gc_keys R = keys →
  all_groups fl L = Some (Ok GL) →
  all_groups fr R = Some (Ok GR) →
  (List.length GL + List.length GR ≤ n)%nat →
  (List.length GL ≤ F)%nat → (List.length GR ≤ F)%nat →
  Join_loops n F j keys L R = Some (merge_join_spec j keys GL GR).
Proof.
  revert L R fl fr GL GR.
  induction n as [|n IH]; intros L R fl fr GL GR HokL HokR HkL HkR HL HR Hn HFL HFR.
  - destruct GL as [|gl GL]; [|simpl in Hn; lia].
    destruct GR as [|gr GR]; [|simpl in Hn; lia].
    pose proof HL as HL0.
    apply all_groups_inv in HL as [[HnL _]|(? & ? & ? & ? & _ & _ & _ & _ & [=])].
    assert (Ht : truthy (first_group_element L)
                 && truthy (first_group_element R) = false) by (by rewrite HnL).
    by rewrite (Join_loops_done 0 F j keys L R fl fr [] [] Ht HL0 HR HFL HFR).
  - pose proof HL as HL0. pose proof HR as HR0.
    apply all_groups_inv in HL
      as [[HnL ->]|(fl' & gl & L' & GL' & -> & HsL & HitL & HL' & ->)].
    { rewrite merge_join_spec_nil_l.
      assert (Ht : truthy (first_group_element L)
                   && truthy (first_group_element R) = false)
        by (by rewrite HnL).
      by rewrite (Join_loops_done _ F j keys L R _ _ _ _ Ht HL0 HR0 HFL HFR). }
    apply all_groups_inv in HR
      as [[HnR ->]|(fr' & gr & R' & GR' & -> & HsR & HitR & HR' & ->)].
    { rewrite merge_join_spec_nil_r.
      assert (Ht : truthy (first_group_element L)
                   && truthy (first_group_element R) = false)
        by (rewrite HnR; apply andb_false_r).
      rewrite (Join_loops_done _ F j keys L R _ _ _ _ Ht HL0 HR0 HFL HFR).
      by rewrite app_nil_r. }
    assert (Ht : truthy (first_group_element L)
                 && truthy (first_group_element R) = true).
    { rewrite !gc_ok_truthy by done. by rewrite !bool_decide_eq_true_2. }
    destruct (group_iterator_ok _ _ _ HokL HitL) as (HokL' & HkL' & HgkL).
    destruct (group_iterator_ok _ _ _ HokR HitR) as (HokR' & HkR' & HgkR).
    rewrite HkL in *. rewrite HkR in *.
    rewrite merge_join_spec_cons, (HgkL HsL), (HgkR HsR).
    set (sEq := merge_join_spec j keys GL' GR').
    set (sLt := merge_join_spec j keys GL' (gr :: GR')).
    set (sGt := merge_join_spec j keys (gl :: GL') GR').
    simpl.
    assert (Hstep : Join_step j keys L R =
      (c ← lex_compare (group_key_values L) (group_key_values R);
       match c with
       | Eq => Ok (Joiner_call j keys (PyGenerator gl) (PyGenerator gr), L', R')
       | Lt => Ok (Joiner_call j keys (PyGenerator gl) sentinel, L', R)
       | Gt => Ok (Joiner_call j keys sentinel (PyGenerator gr), L, R')
       end)).
    { unfold Join_step. rewrite compare_key_values_lex.
      destruct (lex_compare _ _) as [[| |]|e]; simpl; [| | |done].
      - by rewrite HitR, HitL.
      - by rewrite HitL.
      - by rewrite HitR. }
    simpl in Hn, HFL, HFR.
    destruct (lex_compare _ _) as [[| |]|e]; simpl in Hstep |- *.
    + rewrite (Join_loops_step _ _ _ _ _ _ _ _ _ Ht Hstep).
      rewrite (IH L' R' fl' fr' GL' GR'); try done; try lia.
      fold sEq. by destruct sEq.
    + rewrite (Join_loops_step _ _ _ _ _ _ _ _ _ Ht Hstep).
      rewrite (IH L' R fl' (S fr') GL' (gr :: GR')); try done; try (simpl; lia).
      fold sLt. by destruct sLt.
    + rewrite (Join_loops_step _ _ _ _ _ _ _ _ _ Ht Hstep).
      rewrite (IH L R' (S fl') fr' (gl :: GL') GR'); try done; try (simpl; lia).
      fold sGt. by destruct sGt.
    + by rewrite (Join_loops_raise _ _ _ _ _ _ _ Ht Hstep).
Qed.

Lemma concat_length_nonempty {A} (gs : list (list A)) :
  Forall (fun g => g ≠ []) gs →
  (List.length gs ≤ List.length (List.concat gs))%nat.
Proof.
  induction 1 as [|g gs Hg _ IH]; simpl; [lia|].
  rewrite length_app. destruct g; [done|]. simpl. lia.
Qed.

(** The creator built over rows that all carry the key columns, and the
    groups it goes on to hand out. *)
Lemma init_groups keys rows kvs :
  mapM_out (key_tuple keys) rows = Ok kvs →
  ∃ g groups,
    GroupsCreator_init rows keys = Ok g ∧
    gc_keys g = keys ∧
    first_group_element g = head rows ∧
    (keys ≠ [] ∨ head rows ≠ Some empty_row → gc_ok g) ∧
    all_groups (S (List.length rows)) g = Some (Ok groups) ∧
    groups_of keys rows = Some (Ok groups) ∧
    List.concat groups = rows ∧
    (List.length groups ≤ List.length rows)%nat ∧
    Forall2 (fun grp kv =>
               grp ≠ [] ∧ Forall (fun row => key_tuple keys row = Ok kv) grp)
            groups (key_runs kvs).
Proof.
  intros Hk. apply mapM_out_Forall2 in Hk. unfold groups_of.
  destruct Hk as [|first gkv rest kvs Hfirst Hrest].
  - exists (mkGroupsCreator keys [] [] None), []. simpl.
    split_and!; done.
  - cbn [GroupsCreator_init]. rewrite Hfirst. simpl.
    destruct (all_groups_spec keys (S (S (List.length rest))) first rest gkv kvs
                Hfirst Hrest) as (groups & Hg & Hcat & Hall); [lia|].
    exists (mkGroupsCreator keys rest gkv (Some first)), groups.
    split_and!; try done.
    + intros Hor. unfold gc_ok. simpl. split; [done|]. intros ->.
      destruct Hor as [Hkeys|Hhead]; [|done].
      by apply key_tuple_nil_row in Hfirst as [? _].
    + assert (Hne : Forall (fun g : list TRow => g ≠ []) groups).
      { clear -Hall. induction Hall as [|? ? ? ? [? _] _ IH]; by constructor. }
      apply concat_length_nonempty in Hne. rewrite Hcat in Hne. done.
Qed.

(** [Join.__call__] refines the state machine of the specification, run on
    the groups of the two streams, when no stream starts with an empty row
    under an empty key list. *)
Lemma Join_call_refines fuel j keys rows args0 kvsL kvsR :
  mapM_out (key_tuple keys) rows = Ok kvsL →
  mapM_out (key_tuple keys) args0 = Ok kvsR →
  (keys ≠ [] ∨ (head rows ≠ Some empty_row ∧ head args0 ≠ Some empty_row)) →
  (List.length rows + List.length args0 ≤ fuel)%nat →
  ∃ GL GR,
    groups_of keys rows = Some (Ok GL) ∧
    groups_of keys args0 = Some (Ok GR) ∧
    Join_call fuel j keys rows args0 = Some (merge_join_spec j keys GL GR).
Proof.
  intros HkL HkR Hne Hfuel.
  destruct (init_groups keys rows kvsL HkL)
    as (L & GL & HiL & HkeysL & _ & HokL & HallL & HgL & _ & HlenL & _).
  destruct (init_groups keys args0 kvsR HkR)
    as (R & GR & HiR & HkeysR & _ & HokR & HallR & HgR & _ & HlenR & _).
  exists GL, GR. split_and!; [done|done|].
  unfold Join_call. rewrite HiL, HiR.
  eapply Join_loops_spec; try done; try lia.
  - apply HokL. destruct Hne as [?|[? ?]]; [by left | by right].
  - apply HokR. destruct Hne as [?|[? ?]]; [by left | by right].
Qed.

(** The outer join of [A = [{k:1,a:x}, {k:2,a:y}]] with
    [B = [{k:2,b:p}, {k:3,b:q}]] on [k]: one row per key. *)
Example Join_outer_null_fill :
  Join_call 4 (OuterJoiner "_1" "_2") ["k"]
    [[("k", VInt 1); ("a", VStr "x")]; [("k", VInt 2); ("a", VStr "y")]]
    [[("k", VInt 2); ("b", VStr "p")]; [("k", VInt 3); ("b", VStr "q")]]
  = Some (Ok [[("k", VInt 1); ("a", VStr "x")];
              [("k", VInt 2); ("a", VStr "y"); ("b", VStr "p")];
              [("k", VInt 3); ("b", VStr "q")]]).
Proof. reflexivity. Qed.

(** ** Joining streams that share no key *)

Lemma dict_set_fresh k v (d : TRow) :
  k ∉ dict_keys d → dict_set k v d = d ++ [(k, v)].
Proof.
  unfold dict_keys. induction d as [|[k' v'] d IH]; simpl; [done|].
  intros [Hne Hin]%not_elem_of_cons. rewrite decide_False; [|done].
  by rewrite IH.
Qed.

Lemma merge_a_empty_b a sa sb K M :
  NoDup (dict_keys M ++ dict_keys a) →
  merge_a a [] sa sb K M = M ++ a.
Proof.
  unfold dict_keys. revert M. induction a as [|[k v] a IH]; intros M Hnd.
  - by rewrite app_nil_r.
  - cbn [merge_a dict_get]. simpl in Hnd.
    apply NoDup_app in Hnd as (HM & Hdisj & Ha).
    apply NoDup_cons in Ha as [Hk Ha].
    rewrite dict_set_fresh.
    + rewrite IH; [by rewrite <- app_assoc|].
      rewrite fmap_app. simpl. rewrite <- app_assoc. simpl.
      apply NoDup_app. split_and!; [done| |by constructor].
      intros x Hx. apply Hdisj. done.
    + intros Hin. apply (Hdisj k Hin). apply list_elem_of_here.
Qed.

Lemma merge_empty_right a sa sb K :
  wf_row a → merge_two_dicts_by_keys a [] sa sb K = a.
Proof.
  intros Hwf. unfold merge_two_dicts_by_keys.
  destruct a as [|kv a]; [done|]. simpl decide. cbn iota.
  cbn [merge_b]. apply (merge_a_empty_b _ sa sb K []). done.
Qed.





Lemma flat_map_nil {A B} (f : A → list B) (l : list A) :
  (∀ x, f x = []) → flat_map f l = [].
Proof. intros H. induction l as [|x l IH]; simpl; [done|]. by rewrite H, IH. Qed.









(** ** The empty key list *)

Lemma key_tuple_no_keys rows :
  mapM_out (key_tuple []) rows = Ok (replicate (List.length rows) []).
Proof. induction rows as [|row rows IH]; simpl; [done|]. by rewrite IH. Qed.

Lemma key_runs_from_replicate kv n : key_runs_from kv (replicate n kv) = [].
Proof. induction n as [|n IH]; simpl; [done|]. by rewrite decide_True. Qed.

(** With an empty key list and streams whose first rows are not empty, each
    stream is one group and the join is one joiner call on the two. *)
Lemma Join_call_no_keys fuel j row rows row' args0 :
  row ≠ empty_row → row' ≠ empty_row →
  (List.length (row :: rows) + List.length (row' :: args0) ≤ fuel)%nat →
  groups_of [] (row :: rows) = Some (Ok [row :: rows]) ∧
  groups_of [] (row' :: args0) = Some (Ok [row' :: args0]) ∧
  compare_key_values [] [] = Ok (1, 1) ∧
  Join_call fuel j [] (row :: rows) (row' :: args0)
  = Some (Ok (cartesian_merge j [] (row :: rows) (row' :: args0))).
Proof.
  intros Hrow Hrow' Hfuel.
  assert (Hone : ∀ r rs, groups_of [] (r :: rs) = Some (Ok [r :: rs])).
  { intros r rs.
    destruct (init_groups [] (r :: rs) _ (key_tuple_no_keys (r :: rs)))
      as (g & G & _ & _ & _ & _ & _ & -> & Hcat & _ & Hruns).
    simpl in Hruns. rewrite key_runs_from_replicate in Hruns.
    inversion Hruns as [|grp ? G' ? _ Hnil]; subst.
    inversion Hnil; subst. simpl in Hcat. rewrite app_nil_r in Hcat.
    by subst. }
  split_and!; [apply Hone | apply Hone | done |].
  destruct (Join_call_refines fuel j [] (row :: rows) (row' :: args0) _ _
              (key_tuple_no_keys _) (key_tuple_no_keys _))
    as (GL & GR & HGL & HGR & ->); [|done|].
  { right. split; simpl; congruence. }
  rewrite Hone in HGL, HGR. injection HGL as <-. injection HGR as <-.
  rewrite merge_join_spec_cons. simpl. rewrite app_nil_r.
  rewrite Joiner_call_emit. simpl. by destruct j.
Qed.

(** C9 at two one-row streams of which the left row is the empty [dict]:
    each stream is one group with key tuple [()], but the first loop of
    [Join.__call__] tests the truth value of the row and is not entered, so
    the inner join yields nothing where the Cartesian product has one
    row. *)
Theorem Join_no_keys_empty_first_row :
  groups_of [] [empty_row] = Some (Ok [[empty_row]]) ∧
  groups_of [] [[("b", VInt 1)]] = Some (Ok [[[("b", VInt 1)]]]) ∧
  Join_call 2 (InnerJoiner "_1" "_2") [] [empty_row] [[("b", VInt 1)]]
  = Some (Ok []) ∧
  cartesian_merge (InnerJoiner "_1" "_2") [] [empty_row] [[("b", VInt 1)]]
  = [[("b", VInt 1)]].
Proof. split_and!; reflexivity. Qed.

(** C3 at the same kind of input, with the outer joiner: both sides have a
    current group with equal keys, so the state machine hands both groups
    to the joiner once; [Join.__call__] skips its first loop and drains
    each side against [[empty_row]]. *)
Theorem Join_call_skips_main_loop_on_empty_row :
  merge_join_spec (OuterJoiner "_1" "_2") [] [[empty_row]] [[[("b", VInt 1)]]]
  = Ok [[("b", VInt 1)]] ∧
  Join_call 2 (OuterJoiner "_1" "_2") [] [empty_row] [[("b", VInt 1)]]
  = Some (Ok [empty_row; [("b", VInt 1)]]).
Proof. split; reflexivity. Qed.

(** * Further properties of the code *)

(** ** Pulling a group row by row *)

Lemma gen_pull_loop keys gkv rest ys rest' gkv' nxt :
  group_loop keys gkv rest = Ok (ys, (rest', gkv', nxt)) →
  ∀ k first fuel,
    (List.length rest < fuel)%nat →
    ∃ g1 st1,
      gen_pull k (mkGroupsCreator keys rest gkv first) GenLoop
        = (Ok (take k ys), g1, st1) ∧
      gen_drive fuel g1 st1
        = Some (Ok (drop k ys), mkGroupsCreator keys rest' gkv' nxt, GenDone).
Proof.
  revert ys. induction rest as [|row rest IH]; intros ys Hloop k first fuel Hfuel.
  - injection Hloop as <- <- <- <-. destruct fuel as [|fuel]; [lia|].
    destruct k as [|k]; simpl.
    + eexists _, _. split; [done|]. reflexivity.
    + eexists _, _. split; [done|]. reflexivity.
  - cbn [group_loop] in Hloop.
    apply bind_Ok in Hloop as (cur & Hcur & Hloop).
    destruct fuel as [|fuel]; [lia|]. simpl in Hfuel.
    destruct (decide (cur ≠ gkv)) as [Hne|Heq].
    + injection Hloop as <- <- <- <-. destruct k as [|k].
      * eexists _, _. split; [done|]. cbn [gen_drive gen_next].
        cbn [rows_generator gc_keys group_key_values first_group_element].
        rewrite Hcur. by rewrite decide_True.
      * eexists _, _. split.
        -- cbn [gen_pull gen_next].
           cbn [rows_generator gc_keys group_key_values first_group_element].
           rewrite Hcur. by rewrite decide_True.
        -- by destruct fuel.
    + apply bind_Ok in Hloop as ([ys' [[r' g'] n']] & Hrec & Hloop).
      injection Hloop as <- <- <- <-. destruct k as [|k].
      * eexists _, _. split; [done|]. cbn [gen_drive gen_next].
        cbn [rows_generator gc_keys group_key_values first_group_element].
        rewrite Hcur. rewrite decide_False; [|done].
        destruct (IH ys' Hrec 0%nat first fuel) as (g1 & st1 & Hp & Hd); [lia|].
        injection Hp as <- <-. rewrite Hd. done.
      * destruct (IH ys' Hrec k first (S fuel)) as (g1 & st1 & Hp & Hd); [lia|].
        exists g1, st1. split; [|done]. cbn [gen_pull gen_next].
        cbn [rows_generator gc_keys group_key_values first_group_element].
        rewrite Hcur. rewrite decide_False; [|done]. by rewrite Hp.
Qed.

(** [update_generator] skips what a consumer left of the current group:
    after any number [k] of rows pulled from [group_generator], it leaves
    the creator positioned on the next group, as pulling the whole group
    does, with a new generator; the rows pulled are the first [k] of the
    group. *)
Theorem update_generator_skips_rest g grp g' k fuel :
  group_iterator g = Ok (grp, g') →
  (List.length (rows_generator g) + 1 < fuel)%nat →
  ∃ g1 st1,
    gen_pull k g GenFresh = (Ok (take k grp), g1, st1) ∧
    update_generator fuel g1 st1 = Some (Ok (), g', GenFresh) ∧
    gen_drive fuel g GenFresh = Some (Ok grp, g', GenDone).
Proof.
  unfold group_iterator, update_generator.
  destruct g as [keys rest gkv [first|]]; simpl.
  - intros (res & Hloop & H)%bind_Ok Hfuel.
    destruct res as [ys [[rest' gkv'] nxt]]. injection H as <- <-.
    destruct fuel as [|fuel]; [lia|].
    assert (Hall : gen_drive (S fuel) (mkGroupsCreator keys rest gkv (Some first))
                     GenFresh
                   = Some (Ok (first :: ys),
                           mkGroupsCreator keys rest' gkv' nxt, GenDone)).
    { destruct (gen_pull_loop _ _ _ _ _ _ _ Hloop 0%nat (Some first) fuel)
        as (g1 & st1 & Hp & Hd); [lia|].
      injection Hp as <- <-. cbn [gen_drive gen_next first_group_element].
      by rewrite Hd. }
    destruct k as [|k].
    + eexists _, _. split; [done|]. by rewrite Hall.
    + destruct (gen_pull_loop _ _ _ _ _ _ _ Hloop k (Some first) (S fuel))
        as (g1 & st1 & Hp & Hd); [lia|].
      exists g1, st1. split_and!; [|by rewrite Hd|done].
      cbn [gen_pull gen_next first_group_element]. by rewrite Hp.
  - intros [= <- <-] Hfuel. destruct fuel as [|fuel]; [lia|].
    destruct k as [|k]; simpl; eexists _, _; (split; [done|]); done.
Qed.

Lemma update_generator_skips_rest_witness :
  gen_pull 1
    (mkGroupsCreator ["k"] [[("k", VInt 1); ("v", VInt 2)]; [("k", VInt 3)]]
       [VInt 1] (Some [("k", VInt 1); ("v", VInt 1)])) GenFresh
  = (Ok [[("k", VInt 1); ("v", VInt 1)]],
     mkGroupsCreator ["k"] [[("k", VInt 1); ("v", VInt 2)]; [("k", VInt 3)]]
       [VInt 1] (Some [("k", VInt 1); ("v", VInt 1)]), GenLoop) ∧
  update_generator 4
    (mkGroupsCreator ["k"] [[("k", VInt 1); ("v", VInt 2)]; [("k", VInt 3)]]
       [VInt 1] (Some [("k", VInt 1); ("v", VInt 1)])) GenLoop
  = Some (Ok (), mkGroupsCreator ["k"] [] [VInt 3] (Some [("k", VInt 3)]),
          GenFresh).
Proof.
  destruct (update_generator_skips_rest
              (mkGroupsCreator ["k"]
                 [[("k", VInt 1); ("v", VInt 2)]; [("k", VInt 3)]]
                 [VInt 1] (Some [("k", VInt 1); ("v", VInt 1)]))
              [[("k", VInt 1); ("v", VInt 1)]; [("k", VInt 1); ("v", VInt 2)]]
              (mkGroupsCreator ["k"] [] [VInt 3] (Some [("k", VInt 3)]))
              1 4) as (g1 & st1 & Hp & Hu & _).
  - reflexivity.
  - simpl. lia.
  - vm_compute in Hp. injection Hp as <- <-. split; [reflexivity | exact Hu].
Defined.

(** ** Rows without a key column *)

Lemma mapM_out_app_raise {A B} (f : A → outcome B) pre x post e :
  Forall (fun a => is_ok (f a) = true) pre →
  f x = Raise e →
  mapM_out f (pre ++ x :: post) = Raise e.
Proof.
  intros Hpre Hx. induction Hpre as [|a pre Ha _ IH]; simpl.
  - by rewrite Hx.
  - destruct (f a); [|done]. simpl. by rewrite IH.
Qed.

Lemma bind_Raise {A B} (x : outcome A) (f : A → outcome B) e :
  x ≫= f = Raise e → x = Raise e ∨ ∃ a, x = Ok a ∧ f a = Raise e.
Proof.
  destruct x as [a|e']; intros H; [right; by exists a | left].
  by injection H as ->.
Qed.

Lemma key_tuple_raise keys row e :
  key_tuple keys row = Raise e →
  ∃ k, e = KeyError k ∧ k ∈ keys ∧ dict_get k row = None.
Proof.
  unfold key_tuple. induction keys as [|key keys IH]; simpl; [done|].
  intros [Hk|(v & _ & [Hr|(vs & _ & [=])]%bind_Raise)]%bind_Raise.
  - unfold dict_item in Hk. destruct (dict_get key row) eqn:Hget; [done|].
    injection Hk as <-. exists key.
    split_and!; [done | apply list_elem_of_here | done].
  - destruct (IH Hr) as (k & -> & Hin & Hk).
    exists k. split_and!; [done | by apply list_elem_of_further | done].
Qed.

Lemma group_loop_raise keys gkv rest e :
  mapM_out (key_tuple keys) rest = Raise e →
  group_loop keys gkv rest = Raise e ∨
  ∃ ys rest' gkv' row,
    group_loop keys gkv rest = Ok (ys, (rest', gkv', Some row)) ∧
    key_tuple keys row = Ok gkv' ∧
    mapM_out (key_tuple keys) rest' = Raise e ∧
    (List.length rest' < List.length rest)%nat.
Proof.
  induction rest as [|row rest IH]; [done|].
  cbn [mapM_out group_loop]. destruct (key_tuple keys row) as [cur|e'] eqn:Hcur.
  - simpl. destruct (mapM_out (key_tuple keys) rest) as [vs|e'] eqn:Hrest;
      simpl; [done|]. intros [= ->].
    destruct (decide (cur ≠ gkv)) as [Hne|Heq].
    + right. exists [], rest, cur, row. split_and!; try done. simpl. lia.
    + destruct (IH eq_refl) as [->|(ys & rest' & gkv' & r & -> & Hr & Hm & Hlen)];
        [by left|].
      right. exists (row :: ys), rest', gkv', r. split_and!; try done.
      simpl. lia.
  - simpl. intros [= ->]. by left.
Qed.

Lemma all_groups_raise keys fuel first rest gkv e :
  mapM_out (key_tuple keys) rest = Raise e →
  (List.length rest < fuel)%nat →
  all_groups fuel (mkGroupsCreator keys rest gkv (Some first)) = Some (Raise e).
Proof.
  revert first rest gkv. induction fuel as [|fuel IH]; intros first rest gkv Hm Hf;
    [lia|].
  cbn [all_groups first_group_element]. unfold group_iterator.
  cbn [first_group_element gc_keys group_key_values rows_generator].
  destruct (group_loop_raise keys gkv rest e Hm)
    as [->|(ys & rest' & gkv' & row & -> & Hrow & Hm' & Hlen)]; [done|].
  simpl. rewrite (IH row rest' gkv' Hm'); [done | lia].
Qed.

(** The grouping iterator on a stream in which a row lacks a key column:
    it raises the [KeyError] of the first such row, for the first key that
    row misses; the rows behind it are not looked at. *)
Theorem groups_of_missing_key keys pre row post e :
  Forall (fun r => is_ok (key_tuple keys r) = true) pre →
  key_tuple keys row = Raise e →
  groups_of keys (pre ++ row :: post) = Some (Raise e) ∧
  ∃ k, e = KeyError k ∧ k ∈ keys ∧ dict_get k row = None.
Proof.
  intros Hpre Hrow. split; [|by apply key_tuple_raise].
  pose proof (mapM_out_app_raise _ pre row post e Hpre Hrow) as Hm.
  unfold groups_of. destruct (pre ++ row :: post) as [|first rest] eqn:Hrows.
  - by destruct pre.
  - cbn [GroupsCreator_init]. simpl in Hm.
    destruct (key_tuple keys first) as [gkv|e'] eqn:Hfirst; simpl in Hm;
      cbn [mbind outcome_bind].
    + destruct (mapM_out (key_tuple keys) rest) as [vs|e'] eqn:Hrest;
        simpl in Hm; [done|]. injection Hm as ->.
      apply all_groups_raise; [done | simpl; lia].
    + by injection Hm as ->.
Qed.

Lemma groups_of_missing_key_witness :
  groups_of ["k"] ([[("k", VInt 1)]] ++ [("v", VInt 2)] :: [[("k", VInt 3)]])
  = Some (Raise (KeyError "k")).
Proof.
  apply (groups_of_missing_key ["k"] [[("k", VInt 1)]] [("v", VInt 2)]
           [[("k", VInt 3)]] (KeyError "k")).
  - repeat constructor.
  - reflexivity.
Defined.

(** ** The reduce operator *)

Lemma group_iterator_keys g grp g' :
  group_iterator g = Ok (grp, g') → gc_keys g' = gc_keys g.
Proof.
  unfold group_iterator. destruct (first_group_element g).
  - intros ([ys [[rest gkv] nxt]] & _ & [= <- <-])%bind_Ok. done.
  - by intros [= <- <-].
Qed.

Lemma group_iterator_nonempty g grp g' :
  is_Some (first_group_element g) →
  group_iterator g = Ok (grp, g') → grp ≠ [].
Proof.
  unfold group_iterator. intros [first ->].
  by intros ([ys [[rest gkv] nxt]] & _ & [= <- <-])%bind_Ok.
Qed.

(** [Reduce.__call__] is the reducer run on each group of the grouping
    iterator in turn. *)
Lemma Reduce_loop_groups fo r fuel g fg groups :
  all_groups fg g = Some (Ok groups) →
  (List.length groups ≤ fuel)%nat →
  Reduce_loop fo fuel r g
  = Some (outs ← mapM_out (Reducer_call fo r (gc_keys g)) groups;
          Ok (List.concat outs)).
Proof.
  revert g fg groups. induction fuel as [|fuel IH]; intros g fg groups Hall Hlen;
    apply all_groups_inv in Hall
      as [[Hnone ->]|(fg' & grp & g' & gs & -> & [first Hsome] & Hit & Hall & ->)];
    cbn [Reduce_loop].
  - by rewrite Hnone.
  - simpl in Hlen. lia.
  - by rewrite Hnone.
  - rewrite Hsome, Hit. simpl in Hlen. cbn [mapM_out mbind outcome_bind].
    destruct (Reducer_call fo r (gc_keys g) grp) as [out|e]; [|done].
    cbn [mbind outcome_bind].
    rewrite (IH g' fg' gs Hall); [|lia].
    rewrite (group_iterator_keys _ _ _ Hit).
    by destruct (mapM_out _ gs).
Qed.

Lemma echo_keys_ok group_key row kv ans0 :
  key_tuple group_key row = Ok kv →
  ∃ ans, echo_keys group_key (Some row) ans0 = Ok ans.
Proof.
  unfold key_tuple. revert kv ans0.
  induction group_key as [|key rest IH]; intros kv ans0; simpl; [by eexists|].
  intros (v & Hv & (vs & Hvs & _)%bind_Ok)%bind_Ok. rewrite Hv. simpl.
  by eapply IH.
Qed.

Lemma int_column_sum_app column (xs ys : list TRow) :
  int_column_sum column (xs ++ ys)
  = int_column_sum column xs + int_column_sum column ys.
Proof.
  unfold int_column_sum. induction xs as [|x xs IH]; simpl; [done|].
  rewrite IH. destruct (dict_get column x) as [[n|s]|]; lia.
Qed.

(** [Reduce] with [Count] over rows that carry the key columns never
    fails: it emits one row for each group of the grouping iterator, with
    the size of the group in the count column, so the counts add up to the
    number of input rows. *)
Theorem Reduce_Count_counts_every_row fo column keys rows kvs :
  mapM_out (key_tuple keys) rows = Ok kvs →
  ∃ groups out,
    groups_of keys rows = Some (Ok groups) ∧
    Reduce_call fo (Count column) keys rows = Some (Ok out) ∧
    Forall2 (fun grp o =>
               dict_get column o = Some (VInt (Z.of_nat (List.length grp))))
            groups out ∧
    int_column_sum column out = Z.of_nat (List.length rows).
Proof.
  intros Hk.
  destruct (init_groups keys rows kvs Hk)
    as (g & groups & Hinit & Hkeys & _ & _ & Hall & Hg & Hcat & Hlen & Hruns).
  exists groups. unfold Reduce_call. rewrite Hinit.
  rewrite (Reduce_loop_groups fo (Count column) _ g _ groups Hall); [|lia].
  rewrite Hkeys. rewrite <- Hcat.
  revert Hruns. generalize (key_runs kvs). intros gks Hruns.
  assert (H : ∃ outs,
    mapM_out (Reducer_call fo (Count column) keys) groups = Ok outs ∧
    Forall2 (fun grp o =>
               dict_get column o = Some (VInt (Z.of_nat (List.length grp))))
            groups (List.concat outs) ∧
    int_column_sum column (List.concat outs)
    = Z.of_nat (List.length (List.concat groups))).
  { clear -Hruns.
    induction Hruns as [|grp kv groups gks [Hne Hgrp] _ (outs & Houts & Hall & Hsum)].
    - exists []. split_and!; [done | constructor | done].
    - destruct (last_Forall _ grp Hne Hgrp) as (lastrow & Hlast & Hlastkv).
      destruct (echo_keys_ok keys lastrow kv [] Hlastkv) as (ans & Hans).
      exists ([dict_set column (VInt (Z.of_nat (List.length grp))) ans] :: outs).
      split_and!.
      + cbn [mapM_out Reducer_call]. rewrite Hlast, Hans. simpl.
        rewrite Houts. reflexivity.
      + simpl. constructor; [apply dict_get_set_eq | done].
      + cbn [List.concat]. rewrite int_column_sum_app, Hsum, length_app.
        unfold int_column_sum at 1. simpl. rewrite dict_get_set_eq. lia. }
  destruct H as (outs & -> & Hall' & Hsum). exists (List.concat outs).
  split_and!; [by rewrite Hcat | done | done | done].
Qed.

Lemma Reduce_Count_counts_every_row_witness :
  ∃ out,
    Reduce_call no_float (Count "n") ["k"]
      [[("k", VInt 1)]; [("k", VInt 1)]; [("k", VInt 2)]] = Some (Ok out) ∧
    int_column_sum "n" out = 3.
Proof.
  destruct (Reduce_Count_counts_every_row no_float "n" ["k"]
              [[("k", VInt 1)]; [("k", VInt 1)]; [("k", VInt 2)]]
              [[VInt 1]; [VInt 1]; [VInt 2]] eq_refl)
    as (groups & out & _ & Hout & _ & Hsum).
  exists out. split; [exact Hout | exact Hsum].
Defined.

Lemma first_seen_from_NoDup seen kvs :
  NoDup (first_seen_from seen kvs) ∧
  ∀ kv, kv ∈ first_seen_from seen kvs → (kv ∉ seen) ∧ kv ∈ kvs.
Proof.
  revert seen. induction kvs as [|kv kvs IH]; intros seen; simpl.
  - split; [constructor|]. intros kv H. by apply elem_of_nil in H.
  - destruct (bool_decide (kv ∈ seen)) eqn:Hseen.
    + destruct (IH seen) as [Hnd Hin]. split; [done|].
      intros kv' Hkv'. destruct (Hin kv' Hkv'). split; [done|].
      by apply list_elem_of_further.
    + apply bool_decide_eq_false in Hseen.
      destruct (IH (kv :: seen)) as [Hnd Hin]. split.
      * constructor; [|done]. intros Hkv. destruct (Hin kv Hkv) as [Hn _].
        apply Hn, list_elem_of_here.
      * intros kv' [->|Hkv']%elem_of_cons.
        -- split; [done | apply list_elem_of_here].
        -- destruct (Hin kv' Hkv') as [Hn ?].
           split; [|by apply list_elem_of_further].
           intros ?. apply Hn. by apply list_elem_of_further.
Qed.

(** [Reduce] with [FirstReducer] keeps the first row of every run of equal
    key tuples and drops the rest: the grouping iterator cuts the input
    into its runs, each of one key tuple, and the rows emitted are the
    first rows of these runs, in their order. They are a subsequence of
    the input, and on an input in which equal key tuples are contiguous no
    two of them have the same key tuple. *)
Theorem Reduce_FirstReducer_one_row_per_run fo keys rows kvs :
  mapM_out (key_tuple keys) rows = Ok kvs →
  ∃ groups out,
    groups_of keys rows = Some (Ok groups) ∧
    List.concat groups = rows ∧
    Forall2 (fun grp kv => Forall (fun row => key_tuple keys row = Ok kv) grp)
            groups (key_runs kvs) ∧
    Reduce_call fo FirstReducer keys rows = Some (Ok out) ∧
    Forall2 (fun grp o => head grp = Some o) groups out ∧
    out `sublist_of` rows ∧
    mapM_out (key_tuple keys) out = Ok (key_runs kvs) ∧
    (contiguous kvs = true → NoDup (key_runs kvs)).
Proof.
  intros Hk.
  destruct (init_groups keys rows kvs Hk)
    as (g & groups & Hinit & Hkeys & _ & _ & Hall & Hg & Hcat & Hlen & Hruns).
  assert (H : ∃ outs,
    mapM_out (Reducer_call fo FirstReducer keys) groups = Ok outs ∧
    Forall2 (fun grp o => head grp = Some o) groups (List.concat outs) ∧
    List.concat outs `sublist_of` List.concat groups ∧
    mapM_out (key_tuple keys) (List.concat outs) = Ok (key_runs kvs)).
  { clear -Hruns. revert Hruns. generalize (key_runs kvs). intros gks Hruns.
    induction Hruns
      as [|grp kv groups gks [Hne Hgrp] _ (outs & Houts & Hhd & Hsub & Hkeys)].
    - exists []. split_and!; [done | constructor | done | done].
    - destruct grp as [|row grp]; [done|].
      apply Forall_cons in Hgrp as [Hrow _].
      exists ([row] :: outs). split_and!.
      + cbn [mapM_out Reducer_call]. rewrite Houts. reflexivity.
      + simpl. by constructor.
      + simpl. apply sublist_skip. by apply sublist_inserts_l.
      + simpl. rewrite Hrow, Hkeys. reflexivity. }
  destruct H as (outs & Houts & Hhd & Hsub & Hkeys').
  exists groups, (List.concat outs).
  split_and!; [done | done | | | done | by rewrite <- Hcat | done |].
  - eapply Forall2_impl; [exact Hruns|]. by intros grp kv [_ ?].
  - unfold Reduce_call. rewrite Hinit.
    rewrite (Reduce_loop_groups fo FirstReducer _ g _ groups Hall); [|lia].
    by rewrite Hkeys, Houts.
  - intros Hc. rewrite <- (first_seen_key_runs kvs Hc).
    apply first_seen_from_NoDup.
Qed.

Lemma Reduce_FirstReducer_one_row_per_run_witness :
  ∃ groups out,
    groups_of ["k"]
      [[("k", VInt 1); ("v", VInt 5)]; [("k", VInt 1); ("v", VInt 6)];
       [("k", VInt 2); ("v", VInt 7)]] = Some (Ok groups) ∧
    List.concat groups
    = [[("k", VInt 1); ("v", VInt 5)]; [("k", VInt 1); ("v", VInt 6)];
       [("k", VInt 2); ("v", VInt 7)]] ∧
    Forall2 (fun grp kv => Forall (fun row => key_tuple ["k"] row = Ok kv) grp)
            groups (key_runs [[VInt 1]; [VInt 1]; [VInt 2]]) ∧
    Reduce_call no_float FirstReducer ["k"]
      [[("k", VInt 1); ("v", VInt 5)]; [("k", VInt 1); ("v", VInt 6)];
       [("k", VInt 2); ("v", VInt 7)]] = Some (Ok out) ∧
    Forall2 (fun grp o => head grp = Some o) groups out ∧
    out `sublist_of`
      [[("k", VInt 1); ("v", VInt 5)]; [("k", VInt 1); ("v", VInt 6)];
       [("k", VInt 2); ("v", VInt 7)]] ∧
    mapM_out (key_tuple ["k"]) out
    = Ok (key_runs [[VInt 1]; [VInt 1]; [VInt 2]]) ∧
    (contiguous [[VInt 1]; [VInt 1]; [VInt 2]] = true →
     NoDup (key_runs [[VInt 1]; [VInt 1]; [VInt 2]])).
Proof.
  apply (Reduce_FirstReducer_one_row_per_run no_float ["k"]
           [[("k", VInt 1); ("v", VInt 5)]; [("k", VInt 1); ("v", VInt 6)];
            [("k", VInt 2); ("v", VInt 7)]]
           [[VInt 1]; [VInt 1]; [VInt 2]]).
  reflexivity.
Defined.

(** *** The "Empty row iterator!" error *)

Lemma bind_no_NameError {A B} (x : outcome A) (f : A → outcome B) :
  x ≠ Raise NameError → (∀ a, f a ≠ Raise NameError) →
  x ≫= f ≠ Raise NameError.
Proof.
  intros Hx Hf [->|(a & _ & H)]%bind_Raise; [done|]. by apply (Hf a).
Qed.

Lemma dict_item_no_NameError k row : dict_item k row ≠ Raise NameError.
Proof. unfold dict_item. by destruct (dict_get k row). Qed.

Lemma mapM_out_no_NameError {A B} (f : A → outcome B) l :
  (∀ a, f a ≠ Raise NameError) → mapM_out f l ≠ Raise NameError.
Proof.
  intros Hf. induction l as [|a l IH]; simpl; [done|].
  apply bind_no_NameError; [apply Hf|]. intros b.
  apply bind_no_NameError; [apply IH | done].
Qed.

Lemma key_tuple_no_NameError keys row : key_tuple keys row ≠ Raise NameError.
Proof. apply mapM_out_no_NameError. intros k. apply dict_item_no_NameError. Qed.

Lemma sum_loop_no_NameError column s rows :
  sum_loop column s rows ≠ Raise NameError.
Proof.
  revert s. induction rows as [|row rows IH]; intros s; simpl; [done|].
  apply bind_no_NameError; [apply dict_item_no_NameError|]. intros x.
  apply bind_no_NameError; [|done]. by destruct s, x.
Qed.

Lemma count_words_no_NameError column rows c :
  count_words column rows c ≠ Raise NameError.
Proof.
  revert c. induction rows as [|row rows IH]; intros c; simpl; [done|].
  apply bind_no_NameError; [apply dict_item_no_NameError | done].
Qed.

Lemma echo_keys_no_NameError group_key row ans :
  echo_keys group_key (Some row) ans ≠ Raise NameError.
Proof.
  revert ans. induction group_key as [|key rest IH]; intros ans; simpl; [done|].
  apply bind_no_NameError; [apply dict_item_no_NameError | done].
Qed.

Lemma n_extreme_no_NameError largest n column rows :
  n_extreme largest n column rows ≠ Raise NameError.
Proof.
  unfold n_extreme. destruct (n <=? 0); [done|].
  apply bind_no_NameError.
  - apply mapM_out_no_NameError. intros row.
    apply bind_no_NameError; [apply dict_item_no_NameError | done].
  - intros [|[k0 r0] rest]; [done|]. destruct (forallb _ rest); [|done].
    apply bind_no_NameError; [|done].
    generalize (drop (Z.to_nat n) rows). intros l.
    induction l as [|row l IH]; cbn [n_extreme_rest]; [done|].
    apply bind_no_NameError; [apply dict_item_no_NameError|].
    intros k. destruct (same_type k0 k); [|done].
    by apply bind_no_NameError.
Qed.

(** No reducer raises [NameError] on a group that has a row. *)
Lemma Reducer_call_no_NameError fo r group_key rows :
  (∀ v n, true_div fo v n ≠ Raise NameError) →
  rows ≠ [] →
  Reducer_call fo r group_key rows ≠ Raise NameError.
Proof.
  intros Hdiv Hne.
  assert (∃ row, last rows = Some row) as [row Hlast].
  { destruct (last rows) eqn:H; [by eexists|]. by apply last_None in H. }
  destruct r; simpl; rewrite ?Hlast.
  - by destruct rows.
  - apply n_extreme_no_NameError.
  - apply bind_no_NameError; [apply count_words_no_NameError|]. intros wc.
    apply bind_no_NameError; [apply echo_keys_no_NameError|]. intros common.
    apply mapM_out_no_NameError. intros w.
    apply bind_no_NameError; [apply Hdiv | done].
  - apply bind_no_NameError; [apply echo_keys_no_NameError | done].
  - apply bind_no_NameError; [apply sum_loop_no_NameError|]. intros s.
    destruct group_key; [done|].
    apply bind_no_NameError; [apply dict_item_no_NameError | done].
  - apply bind_no_NameError; [apply sum_loop_no_NameError|]. intros s.
    apply bind_no_NameError; [apply echo_keys_no_NameError|]. intros ans.
    apply bind_no_NameError; [|done].
    destruct (decide (rows = [])); [done | apply Hdiv].
Qed.

Lemma group_loop_no_NameError keys gkv rest :
  group_loop keys gkv rest ≠ Raise NameError.
Proof.
  induction rest as [|row rest IH]; simpl; [done|].
  apply bind_no_NameError; [apply key_tuple_no_NameError|]. intros cur.
  destruct (decide (cur ≠ gkv)); [done|].
  apply bind_no_NameError; [done|]. by intros [ys st].
Qed.

(** The [NameError('Empty row iterator!')] that [Count], [Sum], [Mean] and
    [TermFrequency] guard against does not come out of [Reduce]: the
    grouping iterator hands the reducer no empty group, on any input. *)
Theorem Reduce_call_never_NameError fo r keys rows :
  (∀ v n, true_div fo v n ≠ Raise NameError) →
  Reduce_call fo r keys rows ≠ Some (Raise NameError).
Proof.
  intros Hdiv. unfold Reduce_call.
  destruct (GroupsCreator_init rows keys) as [g|e] eqn:Hinit.
  - generalize (S (List.length rows)). clear Hinit. intros fuel. revert g.
    induction fuel as [|fuel IH]; intros g; cbn [Reduce_loop];
      destruct (first_group_element g) as [first|] eqn:Hfirst; try done.
    destruct (group_iterator g) as [[grp g']|e] eqn:Hit;
      cbn [mbind outcome_bind].
    + pose proof (Reducer_call_no_NameError fo r (gc_keys g) grp Hdiv) as Hr.
      destruct (Reducer_call fo r (gc_keys g) grp) as [out|e];
        cbn [mbind outcome_bind].
      * specialize (IH g').
        by destruct (Reduce_loop fo fuel r g') as [[outs|e]|].
      * intros [= ->]. apply Hr; [|done].
        eapply group_iterator_nonempty; [|exact Hit]. by rewrite Hfirst.
    + intros [= ->]. unfold group_iterator in Hit. rewrite Hfirst in Hit.
      apply bind_Raise in Hit as [Hit|([ys [[a b] c]] & _ & [=])].
      by apply group_loop_no_NameError in Hit.
  - intros [= ->]. destruct rows as [|first rest]; [done|]. simpl in Hinit.
    apply bind_Raise in Hinit as [H|(kv & _ & [=])].
    by apply key_tuple_no_NameError in H.
Qed.

Lemma Reduce_call_never_NameError_witness :
  Reduce_call no_float (Mean "v") ["k"] [[("k", VInt 1); ("v", VInt 2)]]
  ≠ Some (Raise NameError).
Proof.
  apply (Reduce_call_never_NameError no_float (Mean "v") ["k"]
           [[("k", VInt 1); ("v", VInt 2)]]).
  intros v n. discriminate.
Defined.

(** ** What the reducers compute *)

Lemma sum_loop_ints column a rows zs :
  Forall2 (fun row z => dict_get column row = Some (VInt z)) rows zs →
  sum_loop column (VInt a) rows = Ok (VInt (a + sum_Z zs)).
Proof.
  intros H. revert a. induction H as [|row z rows zs Hrow _ IH]; intros a.
  - simpl. f_equal. f_equal. unfold sum_Z. simpl. lia.
  - cbn [sum_loop]. apply dict_item_Ok in Hrow. rewrite Hrow. simpl.
    rewrite IH. do 2 f_equal. unfold sum_Z. simpl. lia.
Qed.

(** [Sum] adds an integer column up from the integer [0] and puts the total
    beside the first grouping key, taken from the last row of the group. A
    string in the first row already raises [TypeError], as [0 + str]
    does. *)
Theorem Sum_adds_integer_column fo column key0 keys rows zs row v0 :
  Forall2 (fun row z => dict_get column row = Some (VInt z)) rows zs →
  last rows = Some row →
  dict_get key0 row = Some v0 →
  Reducer_call fo (Sum column) (key0 :: keys) rows
    = Ok [dict_set column (VInt (sum_Z zs)) [(key0, v0)]] ∧
  ∀ s first rest,
    dict_get column first = Some (VStr s) →
    Reducer_call fo (Sum column) (key0 :: keys) (first :: rest)
    = Raise TypeError.
Proof.
  intros Hints Hlast Hkey. split.
  - cbn [Reducer_call]. rewrite (sum_loop_ints column 0 rows zs Hints).
    cbn [mbind outcome_bind]. rewrite Hlast.
    apply dict_item_Ok in Hkey. rewrite Hkey. reflexivity.
  - intros s first rest Hs. cbn [Reducer_call sum_loop].
    apply dict_item_Ok in Hs. rewrite Hs. reflexivity.
Qed.

Lemma Sum_adds_integer_column_witness :
  Reducer_call no_float (Sum "v") ["k"]
    [[("k", VInt 1); ("v", VInt 5)]; [("k", VInt 1); ("v", VInt 6)]]
  = Ok [[("k", VInt 1); ("v", VInt 11)]].
Proof.
  apply (Sum_adds_integer_column no_float "v" "k" []
           [[("k", VInt 1); ("v", VInt 5)]; [("k", VInt 1); ("v", VInt 6)]]
           [5; 6] [("k", VInt 1); ("v", VInt 6)] (VInt 1)).
  - repeat constructor.
  - reflexivity.
  - reflexivity.
Defined.

Lemma occurrences_snoc w x ws :
  occurrences w (ws ++ [x])
  = occurrences w ws + (if decide (x = w) then 1 else 0).
Proof.
  unfold occurrences. rewrite filter_app, length_app.
  rewrite Nat2Z.inj_add. f_equal.
  rewrite filter_cons, filter_nil. by destruct (decide (x = w)).
Qed.

Lemma occurrences_pos w ws : w ∈ ws ↔ 0 < occurrences w ws.
Proof.
  unfold occurrences. split.
  - intros Hin. assert (w ∈ filter (fun x => x = w) ws) as H
      by (by apply list_elem_of_filter).
    destruct (filter _ ws); [by apply elem_of_nil in H | simpl; lia].
  - intros Hpos. destruct (filter (fun x => x = w) ws) as [|y l] eqn:Hf;
      [simpl in Hpos; lia|].
    assert (y ∈ filter (fun x => x = w) ws) as Hy
      by (rewrite Hf; apply list_elem_of_here).
    by apply list_elem_of_filter in Hy as [-> ?].
Qed.

(** The counter after one more word: the word gets one more, or a new
    entry at the end; the other entries stay. [f] and [f'] are the counts
    before and after. *)
Lemma counter_incr_spec w (c : list (value * Z)) (f f' : value → Z) :
  NoDup c.*1 →
  Forall (fun wn => wn.2 = f wn.1) c →
  (∀ x, x ≠ w → f' x = f x) →
  f' w = f w + 1 →
  (w ∉ c.*1 → f w = 0) →
  Forall (fun wn => wn.2 = f' wn.1) (counter_incr w c) ∧
  (counter_incr w c).*1 = if decide (w ∈ c.*1) then c.*1 else c.*1 ++ [w].
Proof.
  intros Hnd Hall Hother Hw Hnew.
  induction c as [|[w' m] c IH]; cbn [counter_incr].
  - split.
    + constructor; [|constructor]. simpl. rewrite Hw, Hnew; [lia|].
      apply not_elem_of_nil.
    + rewrite decide_False; [done | apply not_elem_of_nil].
  - rewrite fmap_cons in Hnd. cbn [fst] in Hnd.
    apply NoDup_cons in Hnd as [Hw' Hnd].
    apply Forall_cons in Hall as [Hm Hall]. simpl in Hm.
    destruct (decide (w = w')) as [->|Hne].
    + split.
      * constructor; [simpl; lia|].
        rewrite Forall_forall in Hall |- *. intros [x n] Hin. simpl.
        rewrite Hother; [by apply (Hall (x, n))|].
        intros ->. apply Hw'. apply list_elem_of_fmap. by exists (w', n).
      * rewrite !fmap_cons. cbn [fst].
        rewrite decide_True; [done | apply list_elem_of_here].
    + destruct IH as [IH1 IH2]; [done | done | |].
      { intros Hnin. apply Hnew. rewrite fmap_cons. cbn [fst].
        by apply not_elem_of_cons. }
      split.
      * constructor; [|done]. simpl. rewrite Hother; [done|]. congruence.
      * rewrite !fmap_cons. cbn [fst]. rewrite IH2.
        destruct (decide (w ∈ c.*1)) as [Hin|Hnin].
        -- rewrite decide_True; [done | by apply list_elem_of_further].
        -- rewrite decide_False; [done|]. by apply not_elem_of_cons.
Qed.

Lemma count_words_spec words_column rows ws c0 seen :
  mapM_out (dict_item words_column) rows = Ok ws →
  NoDup c0.*1 →
  Forall (fun wn => wn.2 = occurrences wn.1 seen) c0 →
  (∀ w, w ∈ c0.*1 ↔ w ∈ seen) →
  ∃ c, count_words words_column rows c0 = Ok c ∧
       NoDup c.*1 ∧
       Forall (fun wn => wn.2 = occurrences wn.1 (seen ++ ws)) c ∧
       (∀ w, w ∈ c.*1 ↔ w ∈ seen ++ ws).
Proof.
  revert ws c0 seen.
  induction rows as [|row rows IH]; intros ws c0 seen Hws Hnd Hc0 Hdom.
  - injection Hws as <-. exists c0. rewrite app_nil_r. done.
  - simpl in Hws. apply bind_Ok in Hws as (w & Hw & Hws).
    apply bind_Ok in Hws as (ws' & Hws' & [= <-]).
    cbn [count_words]. rewrite Hw. cbn [mbind outcome_bind].
    destruct (counter_incr_spec w c0 (fun x => occurrences x seen)
                (fun x => occurrences x (seen ++ [w])) Hnd Hc0)
      as [Hall' Hkeys'].
    { intros x Hx. rewrite occurrences_snoc. rewrite decide_False; [lia|done]. }
    { rewrite occurrences_snoc. by rewrite decide_True. }
    { intros Hnin. rewrite Hdom in Hnin.
      destruct (Z.eq_dec (occurrences w seen) 0) as [|Hnz]; [done|].
      exfalso. apply Hnin. apply occurrences_pos. unfold occurrences in *. lia. }
    destruct (IH ws' (counter_incr w c0) (seen ++ [w]) Hws')
      as (c & Hc & Hndc & Hcc & Hdomc); [| done | |].
    + rewrite Hkeys'. destruct (decide (w ∈ c0.*1)) as [Hin|Hnin]; [done|].
      apply NoDup_app. split_and!; [done| |apply NoDup_singleton].
      intros x Hx ->%list_elem_of_singleton. done.
    + intros x. rewrite Hkeys'. destruct (decide (w ∈ c0.*1)) as [Hin|Hnin].
      * rewrite elem_of_app, list_elem_of_singleton, Hdom. split; [by left|].
        intros [?| ->]; [done|]. by apply Hdom.
      * rewrite !elem_of_app, Hdom. done.
    + exists c. rewrite <- app_assoc in Hcc, Hdomc. done.
Qed.

Lemma counter_incr_keys w (c : list (value * Z)) :
  (counter_incr w c).*1 = if decide (w ∈ c.*1) then c.*1 else c.*1 ++ [w].
Proof.
  induction c as [|[w' m] c IH]; cbn [counter_incr].
  - rewrite decide_False; [done | apply not_elem_of_nil].
  - rewrite fmap_cons. cbn [fst]. destruct (decide (w = w')) as [->|Hne].
    + rewrite fmap_cons. cbn [fst].
      rewrite decide_True; [done | apply list_elem_of_here].
    + rewrite fmap_cons. cbn [fst]. rewrite IH.
      destruct (decide (w ∈ c.*1)) as [Hin|Hnin].
      * rewrite decide_True; [done | by apply list_elem_of_further].
      * rewrite decide_False; [done|]. by apply not_elem_of_cons.
Qed.

Lemma counter_incr_total w (c : list (value * Z)) :
  sum_Z (counter_incr w c).*2 = sum_Z c.*2 + 1.
Proof.
  unfold sum_Z. induction c as [|[w' m] c IH]; cbn [counter_incr]; [done|].
  destruct (decide (w = w')) as [->|Hne]; rewrite !fmap_cons; cbn [snd foldr].
  - lia.
  - rewrite IH. lia.
Qed.

Lemma count_words_keys_total words_column rows ws c0 c :
  mapM_out (dict_item words_column) rows = Ok ws →
  count_words words_column rows c0 = Ok c →
  c.*1 = foldl (fun acc w => if decide (w ∈ acc) then acc else acc ++ [w])
               c0.*1 ws ∧
  sum_Z c.*2 = sum_Z c0.*2 + Z.of_nat (List.length rows).
Proof.
  revert ws c0. induction rows as [|row rows IH]; intros ws c0 Hws.
  - injection Hws as <-. intros [= <-]. simpl. split; [done | lia].
  - simpl in Hws. apply bind_Ok in Hws as (w & Hw & Hws).
    apply bind_Ok in Hws as (ws' & Hws' & [= <-]).
    cbn [count_words]. rewrite Hw. cbn [mbind outcome_bind].
    intros Hc. destruct (IH ws' _ Hws' Hc) as [Hkeys Htotal].
    rewrite counter_incr_keys in Hkeys. rewrite counter_incr_total in Htotal.
    split; [exact Hkeys|]. cbn [List.length]. lia.
Qed.

Lemma count_words_raise words_column pre row post ws c0 :
  mapM_out (dict_item words_column) pre = Ok ws →
  dict_get words_column row = None →
  count_words words_column (pre ++ row :: post) c0
  = Raise (KeyError words_column).
Proof.
  revert ws c0. induction pre as [|r pre IH]; intros ws c0 Hws Hmiss.
  - cbn [app count_words]. by rewrite (dict_item_missing _ _ Hmiss).
  - simpl in Hws. apply bind_Ok in Hws as (w & Hw & Hws).
    apply bind_Ok in Hws as (ws' & Hws' & _).
    cbn [app count_words]. rewrite Hw. cbn [mbind outcome_bind].
    by eapply IH.
Qed.

(** The counting loop of [TermFrequency] over a group whose rows hold the
    words column: [words_counter] gets one entry for each distinct word, at
    the place of its first occurrence, with the number of rows that hold the
    word, so the entries add up to the number of rows. A row without the
    words column makes [TermFrequency] raise its [KeyError], whatever the
    rows behind it hold. *)
Theorem TermFrequency_counts_words words_column rows ws :
  mapM_out (dict_item words_column) rows = Ok ws →
  (∃ words_counter,
     count_words words_column rows [] = Ok words_counter ∧
     words_counter.*1 = first_occurrences ws ∧
     NoDup words_counter.*1 ∧
     (∀ w, w ∈ words_counter.*1 ↔ w ∈ ws) ∧
     Forall (fun wn => wn.2 = occurrences wn.1 ws) words_counter ∧
     sum_Z words_counter.*2 = Z.of_nat (List.length rows)) ∧
  ∀ fo result_column group_keys row post,
    dict_get words_column row = None →
    Reducer_call fo (TermFrequency words_column result_column) group_keys
      (rows ++ row :: post)
    = Raise (KeyError words_column).
Proof.
  intros Hws. split.
  - destruct (count_words_spec words_column rows ws [] [] Hws)
      as (wc & Hwc & Hnd & Hocc & Hdom);
      [constructor | constructor | done |].
    destruct (count_words_keys_total _ _ _ _ _ Hws Hwc) as [Hkeys Htotal].
    exists wc. split_and!; done.
  - intros fo result_column group_keys row post Hmiss.
    cbn [Reducer_call].
    by rewrite (count_words_raise _ _ _ _ ws [] Hws Hmiss).
Qed.

Lemma TermFrequency_counts_words_witness :
  (∃ words_counter,
     count_words "w"
       [[("k", VInt 1); ("w", VStr "a")]; [("k", VInt 1); ("w", VStr "b")];
        [("k", VInt 1); ("w", VStr "a")]] [] = Ok words_counter ∧
     words_counter.*1 = first_occurrences [VStr "a"; VStr "b"; VStr "a"] ∧
     NoDup words_counter.*1 ∧
     (∀ w, w ∈ words_counter.*1 ↔ w ∈ [VStr "a"; VStr "b"; VStr "a"]) ∧
     Forall (fun wn => wn.2 = occurrences wn.1 [VStr "a"; VStr "b"; VStr "a"])
            words_counter ∧
     sum_Z words_counter.*2 = Z.of_nat 3) ∧
  ∀ fo result_column group_keys row post,
    dict_get "w" row = None →
    Reducer_call fo (TermFrequency "w" result_column) group_keys
      ([[("k", VInt 1); ("w", VStr "a")]; [("k", VInt 1); ("w", VStr "b")];
        [("k", VInt 1); ("w", VStr "a")]] ++ row :: post)
    = Raise (KeyError "w").
Proof.
  apply (TermFrequency_counts_words "w"
           [[("k", VInt 1); ("w", VStr "a")]; [("k", VInt 1); ("w", VStr "b")];
            [("k", VInt 1); ("w", VStr "a")]]
           [VStr "a"; VStr "b"; VStr "a"]).
  reflexivity.
Defined.

(** ** [TopN] *)

Lemma insert_by_Permutation {A} (before : A → A → bool) x (l : list A) :
  insert_by before x l ≡ₚ x :: l.
Proof.
  induction l as [|y l IH]; simpl; [done|].
  destruct (before x y); [done|]. rewrite IH. apply Permutation_swap.
Qed.

Lemma sort_by_Permutation {A} (before : A → A → bool) (l : list A) :
  sort_by before l ≡ₚ l.
Proof.
  unfold sort_by.
  assert (H : ∀ acc, foldl (fun acc x => insert_by before x acc) acc l
                     ≡ₚ acc ++ l).
  { induction l as [|x l IH]; intros acc; simpl.
    - by rewrite app_nil_r.
    - rewrite IH, insert_by_Permutation. simpl. apply Permutation_middle. }
  by rewrite H.
Qed.

Lemma StronglySorted_app_elem {A} (R : A → A → Prop) l1 l2 x1 x2 :
  StronglySorted R (l1 ++ l2) → x1 ∈ l1 → x2 ∈ l2 → R x1 x2.
Proof.
  induction l1 as [|y l1 IH]; simpl; intros Hs H1 H2.
  - by apply elem_of_nil in H1.
  - apply StronglySorted_inv in Hs as [Hs Hall].
    apply elem_of_cons in H1 as [->|H1]; [|by apply IH].
    eapply Forall_forall in Hall; [exact Hall|].
    apply elem_of_app. by right.
Qed.

Section insertion_sort.
Context {A : Type} (before : A → A → bool).
Hypothesis before_asym : ∀ x y, before x y = true → before y x = false.
Hypothesis before_neg_trans :
  ∀ x y z, before x y = true → before z y = false → before z x = false.

Lemma insert_by_sorted x l :
  StronglySorted (fun a b => before b a = false) l →
  StronglySorted (fun a b => before b a = false) (insert_by before x l).
Proof.
  induction 1 as [|y l Hs IH Hall]; simpl.
  - repeat constructor.
  - destruct (before x y) eqn:Hxy.
    + constructor; [by constructor|]. constructor; [by apply before_asym|].
      eapply Forall_impl; [exact Hall|]. intros z Hz. simpl in Hz.
      by eapply before_neg_trans.
    + constructor; [done|]. apply Forall_forall. intros z Hz.
      apply insert_by_elem in Hz as [->|Hz]; [done|].
      by eapply Forall_forall in Hall.
Qed.

Lemma sort_by_sorted l :
  StronglySorted (fun a b => before b a = false) (sort_by before l).
Proof.
  unfold sort_by.
  assert (H : ∀ acc, StronglySorted (fun a b => before b a = false) acc →
    StronglySorted (fun a b => before b a = false)
      (foldl (fun acc x => insert_by before x acc) acc l)).
  { induction l as [|x l IH]; intros acc Hacc; simpl; [done|].
    apply IH. by apply insert_by_sorted. }
  apply H. constructor.
Qed.

End insertion_sort.

Lemma value_ltb_asym a b : value_ltb a b = true → value_ltb b a = false.
Proof.
  unfold value_ltb. destruct (py_lt a b) as [[]|] eqn:Hab; try done.
  intros _. destruct (py_lt b a) as [[]|] eqn:Hba; try done.
  pose proof (py_lt_trans _ _ _ Hab Hba) as H.
  by rewrite py_lt_irrefl in H.
Qed.

Lemma value_ltb_trans a b c :
  value_ltb a b = true → value_ltb b c = true → value_ltb a c = true.
Proof.
  unfold value_ltb. destruct (py_lt a b) as [[]|] eqn:Hab; try done.
  destruct (py_lt b c) as [[]|] eqn:Hbc; try done.
  by rewrite (py_lt_trans _ _ _ Hab Hbc).
Qed.

(** [TopN] on a group whose column holds integers, or holds strings (the
    values of this model; a float [nan] is not among them): when it
    returns, it has handed out [min n |rows|] rows of the group and held
    back the others, and no row held back beats a row handed out: with
    [ascending] set none has a larger value in the column, otherwise none
    has a smaller one. *)
Theorem TopN_keeps_the_extreme_rows fo column n ascending group_key rows out :
  Reducer_call fo (TopN column n ascending) group_key rows = Ok out →
  List.length out = Nat.min (Z.to_nat n) (List.length rows) ∧
  ∃ held_back,
    out ++ held_back ≡ₚ rows ∧
    ∀ o r ko kr,
      o ∈ out → r ∈ held_back →
      dict_get column o = Some ko → dict_get column r = Some kr →
      (if ascending then value_ltb ko kr else value_ltb kr ko) = false.
Proof.
  cbn [Reducer_call].
  intros [[Hn ->]|(Hn & keyed & Hk & ->)]%n_extreme_Ok.
  - split.
    + replace (Z.to_nat n) with 0%nat by lia. done.
    + exists rows. split; [done|]. intros o r ko kr Ho. by apply elem_of_nil in Ho.
  - apply mapM_out_Forall2 in Hk.
    set (before := fun x y : value * TRow =>
           if ascending then value_ltb y.1 x.1 else value_ltb x.1 y.1).
    assert (Hrows : keyed.*2 = rows ∧
                    Forall (fun kr => dict_get column kr.2 = Some kr.1) keyed).
    { clear -Hk. induction Hk as [|row [k r] rows keyed Hf _ [IH1 IH2]]; [done|].
      apply bind_Ok in Hf as (k' & Hget%dict_item_Ok & [= <- <-]).
      split; [by rewrite fmap_cons, IH1 | by constructor]. }
    destruct Hrows as [Hrows Hcol].
    pose proof (sort_by_Permutation before keyed) as Hperm.
    assert (Hsorted : StronglySorted (fun a b => before b a = false)
                        (sort_by before keyed)).
    { apply sort_by_sorted; unfold before; destruct ascending.
      - intros x y. apply value_ltb_asym.
      - intros x y. apply value_ltb_asym.
      - intros x y z Hxy Hzy. destruct (value_ltb x.1 z.1) eqn:Hxz; [|done].
        by rewrite (value_ltb_trans _ _ _ Hxy Hxz) in Hzy.
      - intros x y z Hxy Hzy. destruct (value_ltb z.1 x.1) eqn:Hzx; [|done].
        by rewrite (value_ltb_trans _ _ _ Hzx Hxy) in Hzy. }
    split.
    + rewrite length_take, length_fmap, Hperm, <- Hrows, length_fmap. done.
    + exists (drop (Z.to_nat n) (sort_by before keyed)).*2. split.
      * rewrite <- fmap_take, <- fmap_app, take_drop, Hperm. by rewrite Hrows.
      * intros o r ko kr Ho Hr Hko Hkr.
        rewrite <- fmap_take in Ho.
        apply list_elem_of_fmap in Ho as ([ko' o'] & -> & Ho).
        apply list_elem_of_fmap in Hr as ([kr' r'] & -> & Hr).
        simpl in Hko, Hkr.
        assert (Hino : (ko', o') ∈ keyed).
        { rewrite <- Hperm. by eapply subseteq_take. }
        assert (Hinr : (kr', r') ∈ keyed).
        { rewrite <- Hperm. by eapply subseteq_drop. }
        eapply Forall_forall in Hino; [|exact Hcol].
        eapply Forall_forall in Hinr; [|exact Hcol].
        simpl in Hino, Hinr.
        assert (ko' = ko) as -> by congruence.
        assert (kr' = kr) as -> by congruence.
        rewrite <- (take_drop (Z.to_nat n) (sort_by before keyed)) in Hsorted.
        pose proof (StronglySorted_app_elem _ _ _ _ _ Hsorted Ho Hr) as HS.
        unfold before in HS. simpl in HS. by destruct ascending.
Qed.

Lemma TopN_keeps_the_extreme_rows_witness :
  List.length [[("v", VInt 3)]; [("v", VInt 2)]]
  = Nat.min (Z.to_nat 2)
      (List.length [[("v", VInt 1)]; [("v", VInt 3)]; [("v", VInt 2)]]) ∧
  ∃ held_back,
    [[("v", VInt 3)]; [("v", VInt 2)]] ++ held_back
    ≡ₚ [[("v", VInt 1)]; [("v", VInt 3)]; [("v", VInt 2)]] ∧
    ∀ o r ko kr,
      o ∈ [[("v", VInt 3)]; [("v", VInt 2)]] → r ∈ held_back →
      dict_get "v" o = Some ko → dict_get "v" r = Some kr →
      (if true then value_ltb ko kr else value_ltb kr ko) = false.
Proof.
  apply (TopN_keeps_the_extreme_rows no_float "v" 2 true []
           [[("v", VInt 1)]; [("v", VInt 3)]; [("v", VInt 2)]]
           [[("v", VInt 3)]; [("v", VInt 2)]]).
  reflexivity.
Defined.

(** ** Mappers *)

Lemma dict_set_set k v w (d : TRow) :
  dict_set k v (dict_set k w d) = dict_set k v d.
Proof.
  induction d as [|[k' v'] d IH]; simpl.
  - by rewrite decide_True.
  - destruct (decide (k = k')) as [->|Hne]; simpl.
    + by rewrite decide_True.
    + by rewrite decide_False, IH.
Qed.

Lemma dict_set_same k v (d : TRow) :
  dict_get k d = Some v → dict_set k v d = d.
Proof.
  induction d as [|[k' v'] d IH]; simpl; [done|].
  destruct (decide (k = k')) as [->|Hne].
  - by intros [= ->].
  - intros H. by rewrite IH.
Qed.

Lemma product_loop_ints result_column columns row zs a :
  result_column ∉ columns →
  dict_get result_column row = Some (VInt a) →
  key_tuple columns row = Ok (VInt <$> zs) →
  product_loop result_column columns row
  = (Ok (), dict_set result_column (VInt (a * prod_Z zs)) row).
Proof.
  revert row zs a. induction columns as [|c cs IH]; intros row zs a Hnotin Ha Hk.
  - destruct zs; [|done]. simpl. rewrite Z.mul_1_r.
    by rewrite (dict_set_same _ _ _ Ha).
  - apply not_elem_of_cons in Hnotin as [Hne Hnotin].
    unfold key_tuple in Hk. simpl in Hk.
    apply bind_Ok in Hk as (v & Hv & Hk).
    apply bind_Ok in Hk as (vs & Hvs & [= Hzs]).
    destruct zs as [|z zs]; [done|]. injection Hzs as -> ->.
    apply dict_item_Ok in Ha as Hia.
    cbn [product_loop]. rewrite Hia, Hv. cbn [mbind outcome_bind py_mul].
    rewrite (IH _ zs (a * z)); [| done | by rewrite dict_get_set_eq |].
    + rewrite dict_set_set. do 3 f_equal. unfold prod_Z. cbn [foldr]. ring.
    + transitivity (key_tuple cs row); [|exact Hvs].
      apply key_tuple_ext. intros k Hkin.
      apply dict_get_set_ne. by intros ->.
Qed.

(** [Product] over columns that hold integers, none of them the result
    column: the row it received gets the product of these columns under the
    result column, and is the one row yielded. *)
Theorem Product_multiplies_integer_columns fo columns result_column l
    (h : heap) row zs :
  h !! l = Some row →
  result_column ∉ columns →
  key_tuple columns row = Ok (VInt <$> zs) →
  Mapper_call fo (Product columns result_column) l h
  = (Ok [l], <[l := dict_set result_column (VInt (prod_Z zs)) row]> h).
Proof.
  intros Hl Hnotin Hk. unfold Mapper_call. rewrite Hl.
  rewrite (product_loop_ints result_column columns _ zs 1 Hnotin).
  - rewrite dict_set_set. by rewrite Z.mul_1_l.
  - by rewrite dict_get_set_eq.
  - rewrite <- Hk. apply key_tuple_ext. intros k Hkin.
    apply dict_get_set_ne. by intros ->.
Qed.

Lemma Product_multiplies_integer_columns_witness :
  Mapper_call no_float (Product ["a"; "b"] "p") 1%nat
    {[ 1%nat := [("a", VInt 2); ("b", VInt 3)] ]}
  = (Ok [1%nat],
     <[1%nat := dict_set "p" (VInt (prod_Z [2; 3]))
                       [("a", VInt 2); ("b", VInt 3)]]>
       {[ 1%nat := [("a", VInt 2); ("b", VInt 3)] ]}).
Proof.
  apply (Product_multiplies_integer_columns no_float ["a"; "b"] "p" 1%nat
           {[ 1%nat := [("a", VInt 2); ("b", VInt 3)] ]}
           [("a", VInt 2); ("b", VInt 3)] [2; 3]).
  - reflexivity.
  - by decide_by_eval.
  - reflexivity.
Defined.

Lemma project_loop_spec columns row result_row :
  Forall (fun c => c ∈ dict_keys row) columns →
  ∃ out,
    project_loop columns row result_row = Ok out ∧
    (wf_row result_row → wf_row out) ∧
    ∀ c, dict_get c out
         = if decide (c ∈ columns) then dict_get c row
           else dict_get c result_row.
Proof.
  intros Hall. revert result_row.
  induction Hall as [|x columns Hx _ IH]; intros result_row.
  - exists result_row. split_and!; [done | done |]. intros c.
    rewrite decide_False; [done | apply not_elem_of_nil].
  - destruct (dict_get x row) as [v|] eqn:Hv;
      [|by apply dict_get_None in Hv].
    destruct (IH (dict_set x v result_row)) as (out & Hout & Hwf & Hget).
    exists out. cbn [project_loop]. apply dict_item_Ok in Hv as Hiv.
    rewrite Hiv. cbn [mbind outcome_bind]. split_and!; [done | |].
    + intros H. by apply Hwf, wf_row_set.
    + intros c. rewrite Hget, dict_get_set.
      destruct (decide (c ∈ columns)) as [Hin|Hnin].
      * rewrite decide_True; [done | by apply list_elem_of_further].
      * destruct (decide (x = c)) as [->|Hne].
        -- rewrite decide_True; [done | apply list_elem_of_here].
        -- rewrite decide_False; [done|].
           intros [->|?]%elem_of_cons; done.
Qed.

#[local] Opaque alloc.

(** [Project] on a row that holds every listed column: it yields one new
    row object, which holds the listed columns with the values of the row
    received and no other column; the row received stays as it was. *)
Theorem Project_keeps_listed_columns fo columns l (h : heap) row :
  h !! l = Some row →
  Forall (fun c => c ∈ dict_keys row) columns →
  ∃ l' result_row,
    Mapper_call fo (Project columns) l h = (Ok [l'], <[l' := result_row]> h) ∧
    h !! l' = None ∧
    wf_row result_row ∧
    ∀ c, dict_get c result_row
         = if decide (c ∈ columns) then dict_get c row else None.
Proof.
  intros Hl Hall.
  destruct (project_loop_spec columns row [] Hall) as (out & Hout & Hwf & Hget).
  destruct (alloc out h) as [l' h'] eqn:Ha.
  exists l', out. unfold Mapper_call. rewrite Hl, Hout, Ha.
  apply alloc_spec in Ha as [Hfresh ->].
  split_and!; [done | done | apply Hwf; constructor | done].
Qed.

#[local] Transparent alloc.

Lemma Project_keeps_listed_columns_witness :
  ∃ l' result_row,
    Mapper_call no_float (Project ["b"]) 1%nat
      {[ 1%nat := [("a", VInt 2); ("b", VInt 3)] ]}
    = (Ok [l'], <[l' := result_row]> {[ 1%nat := [("a", VInt 2); ("b", VInt 3)] ]}) ∧
    ({[ 1%nat := [("a", VInt 2); ("b", VInt 3)] ]} : heap) !! l' = None ∧
    wf_row result_row ∧
    ∀ c, dict_get c result_row
         = if decide (c ∈ ["b"]) then dict_get c [("a", VInt 2); ("b", VInt 3)]
           else None.
Proof.
  apply (Project_keeps_listed_columns no_float ["b"] 1%nat
           {[ 1%nat := [("a", VInt 2); ("b", VInt 3)] ]}
           [("a", VInt 2); ("b", VInt 3)]).
  - reflexivity.
  - repeat constructor.
Defined.

Lemma lower_char_punctuation c : is_punctuation (lower_char c) = is_punctuation c.
Proof. by destruct c as [[] [] [] [] [] [] [] []]. Qed.

Lemma lower_char_idemp c : lower_char (lower_char c) = lower_char c.
Proof. by destruct c as [[] [] [] [] [] [] [] []]. Qed.

Lemma strip_punctuation_lower s :
  strip_punctuation (lower s) = lower (strip_punctuation s).
Proof.
  unfold strip_punctuation, lower. induction s as [|c s IH]; simpl; [done|].
  rewrite lower_char_punctuation.
  destruct (is_punctuation c); simpl; by rewrite IH.
Qed.

Lemma lower_idemp s : lower (lower s) = lower s.
Proof.
  unfold lower. induction s as [|c s IH]; simpl; [done|].
  by rewrite lower_char_idemp, IH.
Qed.

Lemma strip_punctuation_idemp s :
  strip_punctuation (strip_punctuation s) = strip_punctuation s.
Proof.
  unfold strip_punctuation. induction s as [|c s IH]; simpl; [done|].
  destruct (is_punctuation c) eqn:Hc; simpl; [done|]. by rewrite Hc, IH.
Qed.

Lemma strip_punctuation_clean s :
  str_forall (fun c => negb (is_punctuation c)) (strip_punctuation s) = true.
Proof.
  unfold strip_punctuation. induction s as [|c s IH]; simpl; [done|].
  destruct (is_punctuation c) eqn:Hc; simpl; [done|]. by rewrite Hc, IH.
Qed.

(** [FilterPunctuation] and [LowerCase] on the same column, on text of
    code points below 256 (where [str.lower] works character by character),
    can be applied to a row object in either order: the outcome and the
    rows afterwards are the same, also where the column is missing or holds
    no string. *)
Theorem FilterPunctuation_LowerCase_commute fo column l (h : heap) :
  match Mapper_call fo (FilterPunctuation column) l h with
  | (Ok _, h1) => Mapper_call fo (LowerCase column) l h1
  | r => r
  end
  = match Mapper_call fo (LowerCase column) l h with
    | (Ok _, h1) => Mapper_call fo (FilterPunctuation column) l h1
    | r => r
    end.
Proof.
  unfold Mapper_call. destruct (h !! l) as [row|] eqn:Hl; [|done].
  unfold dict_get_default.
  destruct (dict_get column row) as [[n|s]|] eqn:Hc; simpl;
    rewrite ?lookup_insert_eq, ?dict_get_set_eq; simpl;
    rewrite ?insert_insert_eq, ?dict_set_set, ?strip_punctuation_lower;
    by rewrite ?Hl.
Qed.

(** [FilterPunctuation] leaves a string without punctuation in the column
    (the empty string where the row had no such column), and a second pass
    over the same row changes nothing. *)
Theorem FilterPunctuation_leaves_no_punctuation fo column l (h : heap) out h' :
  Mapper_call fo (FilterPunctuation column) l h = (Ok out, h') →
  out = [l] ∧
  (∃ row' s',
     h' !! l = Some row' ∧ dict_get column row' = Some (VStr s') ∧
     str_forall (fun c => negb (is_punctuation c)) s' = true) ∧
  Mapper_call fo (FilterPunctuation column) l h' = (Ok [l], h').
Proof.
  unfold Mapper_call. destruct (h !! l) as [row|] eqn:Hl; [|done].
  destruct (as_str (dict_get_default column (VStr "") row)) as [s|e] eqn:Hs;
    simpl; [|done].
  intros [= <- <-]. split; [done|]. split.
  - eexists _, _. rewrite lookup_insert_eq, dict_get_set_eq.
    split_and!; [done | done | apply strip_punctuation_clean].
  - rewrite lookup_insert_eq. unfold dict_get_default.
    rewrite dict_get_set_eq. simpl.
    by rewrite insert_insert_eq, dict_set_set, strip_punctuation_idemp.
Qed.

Lemma FilterPunctuation_leaves_no_punctuation_witness :
  [1%nat] = [1%nat] ∧
  (∃ row' s',
     (<[1%nat := [("t", VStr "ab")]]> ({[ 1%nat := [("t", VStr "a,b!")] ]} : heap))
       !! 1%nat = Some row' ∧
     dict_get "t" row' = Some (VStr s') ∧
     str_forall (fun c => negb (is_punctuation c)) s' = true) ∧
  Mapper_call no_float (FilterPunctuation "t") 1%nat
    (<[1%nat := [("t", VStr "ab")]]> {[ 1%nat := [("t", VStr "a,b!")] ]})
  = (Ok [1%nat], <[1%nat := [("t", VStr "ab")]]> {[ 1%nat := [("t", VStr "a,b!")] ]}).
Proof.
  apply (FilterPunctuation_leaves_no_punctuation no_float "t" 1%nat
           {[ 1%nat := [("t", VStr "a,b!")] ]}).
  reflexivity.
Defined.

(** ** [Split] with a separator *)

Lemma prefix_app sep s :
  String.prefix sep s = true → ∃ rest, s = sep +:+ rest.
Proof.
  revert s. induction sep as [|a sep IH]; intros s.
  - intros _. by exists s.
  - destruct s as [|b s]; [done|]. simpl.
    destruct (ascii_dec a b) as [->|]; [|done].
    intros (rest & ->)%IH. by exists rest.
Qed.

Lemma split_sep_go_skip sep pre tok s :
  split_sep_go sep (String.length pre) tok (pre +:+ s)
  = split_sep_go sep 0 tok s.
Proof.
  induction pre as [|c pre IH]; [done|].
  rewrite str_app_cons. cbn [split_sep_go String.length]. apply IH.
Qed.

Lemma split_sep_go_nonempty sep skip tok s : split_sep_go sep skip tok s ≠ [].
Proof.
  revert skip tok. induction s as [|c s IH]; intros skip tok; [done|].
  cbn [split_sep_go]. destruct skip; [|apply IH].
  destruct (String.prefix sep (String c s)); [done | apply IH].
Qed.

Lemma str_join_cons sep tok toks :
  toks ≠ [] → str_join sep (tok :: toks) = tok +:+ sep +:+ str_join sep toks.
Proof. by destruct toks. Qed.

Lemma str_length_app (a b : string) :
  String.length (a +:+ b) = (String.length a + String.length b)%nat.
Proof.
  induction a as [|x a IH]; [done|]. rewrite str_app_cons. simpl. by rewrite IH.
Qed.

Lemma split_sep_go_join sep n s tok :
  sep ≠ "" → (String.length s < n)%nat →
  str_join sep (split_sep_go sep 0 tok s) = tok +:+ s.
Proof.
  intros Hsep. revert s tok. induction n as [|n IH]; intros s tok Hn; [lia|].
  destruct s as [|c s]; [by rewrite str_app_nil_r|].
  cbn [split_sep_go]. destruct (String.prefix sep (String c s)) eqn:Hp.
  - apply prefix_app in Hp as (rest & Hrest).
    destruct sep as [|c' sep']; [done|].
    rewrite str_app_cons in Hrest. injection Hrest as <- ->.
    replace (String.length (String c sep') - 1)%nat with (String.length sep')
      by (simpl; lia).
    rewrite split_sep_go_skip.
    rewrite str_join_cons by apply split_sep_go_nonempty.
    rewrite IH, str_app_nil_l.
    + by rewrite str_app_cons.
    + simpl in Hn. rewrite str_length_app in Hn. lia.
  - rewrite IH by (simpl in Hn; lia).
    by rewrite str_app_assoc, str_app_cons, str_app_nil_l.
Qed.

#[local] Opaque alloc.

(** [Split] with a separator that is not empty, on a column that holds a
    string (the empty string when the column is missing): it always yields
    at least one row, each one a new object that holds the input row with
    the column set to a piece, and the pieces put together again with the
    separator between them give the string back. The row received stays as
    it was. *)
Theorem Split_separator_round_trip fo column sep l (h : heap) row s :
  h !! l = Some row →
  dict_get_default column (VStr "") row = VStr s →
  sep ≠ "" →
  ∃ ls h' toks,
    Mapper_call fo (Split column (Some sep)) l h = (Ok ls, h') ∧
    Forall2 (fun l' tok =>
               h !! l' = None ∧
               h' !! l' = Some (dict_set column (VStr tok) row))
            ls toks ∧
    toks ≠ [] ∧
    str_join sep toks = s ∧
    h' !! l = Some row.
Proof.
  intros Hl Hs Hsep. unfold Mapper_call. rewrite Hl, Hs. simpl.
  rewrite decide_False by done.
  destruct (alloc_all _ h) as [ls h'] eqn:Ha.
  pose proof (alloc_all_spec _ _ _ _ Ha) as [Hfresh Hkeep].
  pose proof (alloc_all_lookup _ _ _ _ Ha) as [Hlook Hnd].
  exists ls, h', (split_sep_go sep 0 "" s). split_and!; [done | | | |].
  - apply Forall2_fmap_r in Hlook.
    clear -Hfresh Hlook. induction Hlook as [|l' tok ls toks H1 H2 IH].
    + constructor.
    + apply Forall_cons in Hfresh as [Hf Hfs]. constructor; auto.
  - apply split_sep_go_nonempty.
  - rewrite (split_sep_go_join sep (S (String.length s))); [|done|lia].
    apply str_app_nil_l.
  - by apply Hkeep.
Qed.

#[local] Transparent alloc.

Lemma Split_separator_round_trip_witness :
  ∃ ls h' toks,
    Mapper_call no_float (Split "t" (Some ",")) 1%nat
      {[ 1%nat := [("t", VStr "a,,b")] ]} = (Ok ls, h') ∧
    Forall2 (fun l' tok =>
               ({[ 1%nat := [("t", VStr "a,,b")] ]} : heap) !! l' = None ∧
               h' !! l' = Some (dict_set "t" (VStr tok) [("t", VStr "a,,b")]))
            ls toks ∧
    toks ≠ [] ∧
    str_join "," toks = "a,,b" ∧
    h' !! 1%nat = Some [("t", VStr "a,,b")].
Proof.
  apply (Split_separator_round_trip no_float "t" "," 1%nat
           {[ 1%nat := [("t", VStr "a,,b")] ]} [("t", VStr "a,,b")] "a,,b");
    [reflexivity | reflexivity | discriminate].
Defined.

(** ** [Map] *)

Lemma Mapper_call_in_place fo m l (h : heap) out h' :
  match m with Split _ _ | Filter _ | Project _ => False | _ => True end →
  Mapper_call fo m l h = (Ok out, h') →
  out = [l] ∧ dom h' = dom h.
Proof.
  intros Hm. unfold Mapper_call. destruct (h !! l) as [row|] eqn:Hl; [|done].
  assert (Hdom : ∀ row', dom (<[l := row']> h) = dom h).
  { intros row'. apply dom_insert_lookup_L. by rewrite Hl. }
  destruct m; try done;
    try (intros Hay; apply assign_yield_spec in Hay
           as [(v & _ & [= <-] & ->)|(e & _ & [=] & _)]; by rewrite Hdom).
  - by intros [= <- <-].
  - destruct (product_loop _ _ _) as [[[]|e] row']; [|done].
    intros [= <- <-]. by rewrite Hdom.
Qed.

(** [Map] with a mapper other than [Split], [Filter] and [Project]: when it
    runs to the end, it has yielded the very row objects it received, in
    their order, and has created no row object. *)
Theorem Map_in_place_yields_received_rows fo m rows (h : heap) out h' :
  match m with Split _ _ | Filter _ | Project _ => False | _ => True end →
  Map_call fo m rows h = (Ok out, h') →
  out = rows ∧ dom h' = dom h.
Proof.
  intros Hm. revert h out. induction rows as [|l rows IH]; intros h out.
  - by intros [= <- <-].
  - cbn [Map_call].
    destruct (Mapper_call fo m l h) as [[o1|e] h1] eqn:H1; [|done].
    destruct (Map_call fo m rows h1) as [[o2|e] h2] eqn:H2; [|done].
    intros [= <- <-].
    apply (Mapper_call_in_place _ _ _ _ _ _ Hm) in H1 as [-> Hd1].
    apply IH in H2 as [-> Hd2]. split; [done | congruence].
Qed.

Lemma Map_in_place_yields_received_rows_witness :
  [1%nat; 2%nat] = [1%nat; 2%nat] ∧
  dom (<[2%nat := [("t", VStr "b")]]>
         (<[1%nat := [("t", VStr "a")]]>
            ({[ 1%nat := [("t", VStr "A")]; 2%nat := [("t", VStr "B")] ]} : heap)))
  = dom ({[ 1%nat := [("t", VStr "A")]; 2%nat := [("t", VStr "B")] ]} : heap).
Proof.
  apply (Map_in_place_yields_received_rows no_float (LowerCase "t")
           [1%nat; 2%nat]
           {[ 1%nat := [("t", VStr "A")]; 2%nat := [("t", VStr "B")] ]}).
  - exact I.
  - reflexivity.
Defined.

(** [Map] with a [Filter]: when it runs to the end, it has yielded the row
    objects for which the condition holds, in their order, and has changed
    no row. *)
Theorem Map_Filter_keeps_satisfying_rows fo condition rows (h : heap) out h' :
  Map_call fo (Filter condition) rows h = (Ok out, h') →
  h' = h ∧
  out = List.filter
          (fun l => match h !! l with
                    | Some row =>
                        match condition row with Ok true => true | _ => false end
                    | None => false
                    end) rows.
Proof.
  revert out. induction rows as [|l rows IH]; intros out.
  - by intros [= <- <-].
  - cbn [Map_call List.filter]. unfold Mapper_call.
    destruct (h !! l) as [row|] eqn:Hl; [|done].
    destruct (condition row) as [[|]|e]; [| |done].
    + destruct (Map_call fo (Filter condition) rows h) as [[o2|e] h2]; [|done].
      intros [= <- <-]. destruct (IH o2 eq_refl) as [-> ->]. done.
    + destruct (Map_call fo (Filter condition) rows h) as [[o2|e] h2]; [|done].
      intros [= <- <-]. destruct (IH o2 eq_refl) as [-> ->]. done.
Qed.

Lemma Map_Filter_keeps_satisfying_rows_witness :
  ({[ 1%nat := [("n", VInt 1)]; 2%nat := [("n", VInt 5)] ]} : heap)
  = {[ 1%nat := [("n", VInt 1)]; 2%nat := [("n", VInt 5)] ]} ∧
  [2%nat] = List.filter
          (fun l => match ({[ 1%nat := [("n", VInt 1)];
                              2%nat := [("n", VInt 5)] ]} : heap) !! l with
                    | Some row =>
                        match (v ← dict_item "n" row; py_lt (VInt 3) v) with
                        | Ok true => true
                        | _ => false
                        end
                    | None => false
                    end) [1%nat; 2%nat].
Proof.
  apply (Map_Filter_keeps_satisfying_rows no_float
           (fun row => v ← dict_item "n" row; py_lt (VInt 3) v)
           [1%nat; 2%nat]
           {[ 1%nat := [("n", VInt 1)]; 2%nat := [("n", VInt 5)] ]}).
  reflexivity.
Defined.

(** ** [compare_key_values] *)

Lemma py_lt_asym a b : py_lt a b = Ok true → py_lt b a = Ok false.
Proof.
  intros Hab. destruct (py_lt b a) as [[]|e] eqn:Hba; [|done|].
  - pose proof (py_lt_trans _ _ _ Hab Hba) as H.
    by rewrite py_lt_irrefl in H.
  - by destruct a, b.
Qed.

(** Swapping the two tuples swaps the two numbers returned. *)
Theorem compare_key_values_swap first_values second_values x y :
  compare_key_values first_values second_values = Ok (x, y) →
  compare_key_values second_values first_values = Ok (y, x).
Proof.
  revert second_values.
  induction first_values as [|a fs IH]; intros [|b ss]; simpl;
    try by intros [= <- <-].
  unfold py_gt. destruct (py_lt a b) as [[|]|e] eqn:Hab; simpl; [| |done].
  - intros [= <- <-]. by rewrite (py_lt_asym _ _ Hab).
  - destruct (py_lt b a) as [[|]|e] eqn:Hba; simpl; [| |done].
    + by intros [= <- <-].
    + apply IH.
Qed.

Lemma compare_key_values_swap_witness :
  compare_key_values [VInt 1; VStr "b"] [VInt 1; VStr "a"] = Ok (1, 0).
Proof.
  apply (compare_key_values_swap [VInt 1; VStr "a"] [VInt 1; VStr "b"] 0 1).
  reflexivity.
Defined.

(** Two tuples of integers and strings compare as equal exactly when they
    agree on the positions both have, so a tuple compares as equal to each
    of its prefixes. *)
Theorem compare_key_values_equal_iff first_values second_values :
  compare_key_values first_values second_values = Ok (1, 1) ↔
  take (List.length second_values) first_values
  = take (List.length first_values) second_values.
Proof.
  revert second_values.
  induction first_values as [|a fs IH]; intros [|b ss]; simpl; try done.
  unfold py_gt. split.
  - destruct (py_lt a b) as [[|]|e] eqn:Hab; simpl; [done| |done].
    destruct (py_lt b a) as [[|]|e] eqn:Hba; simpl; [done| |done].
    intros H%IH. rewrite H. f_equal. by apply py_lt_total.
  - intros [= -> H]. rewrite py_lt_irrefl. simpl. by apply IH.
Qed.

(** ** [Join] with nothing on one side *)

Lemma merge_empty_left b sa sb K :
  wf_row b → merge_two_dicts_by_keys [] b sa sb K = b.
Proof.
  intros Hwf. unfold merge_two_dicts_by_keys. simpl decide. cbn iota.
  cbn [merge_b]. apply (merge_a_empty_b _ sb sa K []). done.
Qed.

Lemma Joiner_call_sentinel_right j keys gl :
  Forall wf_row gl →
  Joiner_call j keys (PyGenerator gl) sentinel
  = match j with LeftJoiner _ _ | OuterJoiner _ _ => gl | _ => [] end.
Proof.
  intros Hwf. rewrite Joiner_call_emit.
  assert (H : cartesian_merge j keys gl [empty_row] = gl).
  { unfold cartesian_merge. induction Hwf as [|row gl Hrow _ IH]; [done|].
    cbn [flat_map map] in *. rewrite IH. unfold empty_row.
    by rewrite (merge_empty_right row _ _ keys Hrow). }
  destruct j; simpl; by rewrite ?H.
Qed.

Lemma Joiner_call_sentinel_left j keys gr :
  Forall wf_row gr →
  Joiner_call j keys sentinel (PyGenerator gr)
  = match j with RightJoiner _ _ | OuterJoiner _ _ => gr | _ => [] end.
Proof.
  intros Hwf. rewrite Joiner_call_emit.
  assert (H : cartesian_merge j keys [empty_row] gr = gr).
  { unfold cartesian_merge. cbn [flat_map]. rewrite app_nil_r.
    induction Hwf as [|row gr Hrow _ IH]; [done|].
    cbn [map]. rewrite IH. unfold empty_row.
    by rewrite (merge_empty_left row _ _ keys Hrow). }
  destruct j; simpl; by rewrite ?H.
Qed.

Lemma flat_map_concat {A} (f : list A → list A) (gs : list (list A)) :
  Forall (fun g => f g = g) gs → flat_map f gs = List.concat gs.
Proof.
  induction 1 as [|g gs Hg _ IH]; [done|]. simpl. by rewrite Hg, IH.
Qed.

Lemma Forall_concat_inv {A} (P : A → Prop) (gs : list (list A)) :
  Forall P (List.concat gs) → Forall (Forall P) gs.
Proof.
  induction gs as [|g gs IH]; simpl; [constructor|].
  intros [Hg Hgs]%Forall_app. constructor; auto.
Qed.

(** A join with no row at all on one side, the rows of the other side all
    holding the join keys: the outer join returns the rows of the other
    side as they are, and so does the left join for the left side and the
    right join for the right side; every other case returns nothing. *)
Theorem Join_with_an_empty_side fuel j keys rows kvs :
  mapM_out (key_tuple keys) rows = Ok kvs →
  Forall wf_row rows →
  (List.length rows ≤ fuel)%nat →
  Join_call fuel j keys rows []
  = Some (Ok match j with
             | LeftJoiner _ _ | OuterJoiner _ _ => rows
             | _ => []
             end) ∧
  Join_call fuel j keys [] rows
  = Some (Ok match j with
             | RightJoiner _ _ | OuterJoiner _ _ => rows
             | _ => []
             end).
Proof.
  intros Hk Hwf Hfuel.
  destruct (init_groups keys rows kvs Hk)
    as (G & GS & Hi & _ & _ & _ & Hall & _ & Hcat & Hlen & _).
  assert (Hnone : all_groups 0
            (mkGroupsCreator keys [] [] None) = Some (Ok [])) by done.
  assert (Hgs : Forall (Forall wf_row) GS).
  { apply Forall_concat_inv. by rewrite Hcat. }
  unfold Join_call. rewrite Hi. cbn [GroupsCreator_init]. split.
  - rewrite (Join_loops_done fuel fuel j keys G
               (mkGroupsCreator keys [] [] None) _ _ GS [] (andb_false_r _)
               Hall Hnone); [|lia|simpl; lia].
    cbn [flat_map]. rewrite app_nil_r. destruct j.
    + rewrite flat_map_nil; [done|]. intros gl. by rewrite Joiner_call_emit.
    + rewrite flat_map_concat; [by rewrite Hcat|].
      eapply Forall_impl; [exact Hgs|]. intros gl Hgl.
      by rewrite (Joiner_call_sentinel_right _ _ _ Hgl).
    + rewrite flat_map_concat; [by rewrite Hcat|].
      eapply Forall_impl; [exact Hgs|]. intros gl Hgl.
      by rewrite (Joiner_call_sentinel_right _ _ _ Hgl).
    + rewrite flat_map_nil; [done|]. intros gl. by rewrite Joiner_call_emit.
  - rewrite (Join_loops_done fuel fuel j keys
               (mkGroupsCreator keys [] [] None) G _ _ [] GS eq_refl
               Hnone Hall); [|simpl; lia|lia].
    cbn [flat_map app]. destruct j.
    + rewrite flat_map_nil; [done|]. intros gl. by rewrite Joiner_call_emit.
    + rewrite flat_map_concat; [by rewrite Hcat|].
      eapply Forall_impl; [exact Hgs|]. intros gl Hgl.
      by rewrite (Joiner_call_sentinel_left _ _ _ Hgl).
    + rewrite flat_map_nil; [done|]. intros gl. by rewrite Joiner_call_emit.
    + rewrite flat_map_concat; [by rewrite Hcat|].
      eapply Forall_impl; [exact Hgs|]. intros gl Hgl.
      by rewrite (Joiner_call_sentinel_left _ _ _ Hgl).
Qed.

Lemma Join_with_an_empty_side_witness :
  Join_call 2 (LeftJoiner "_1" "_2") ["k"]
    [[("k", VInt 1); ("a", VInt 5)]; [("k", VInt 2); ("a", VInt 6)]] []
  = Some (Ok [[("k", VInt 1); ("a", VInt 5)]; [("k", VInt 2); ("a", VInt 6)]]) ∧
  Join_call 2 (LeftJoiner "_1" "_2") ["k"] []
    [[("k", VInt 1); ("a", VInt 5)]; [("k", VInt 2); ("a", VInt 6)]]
  = Some (Ok []).
Proof.
  apply (Join_with_an_empty_side 2 (LeftJoiner "_1" "_2") ["k"]
           [[("k", VInt 1); ("a", VInt 5)]; [("k", VInt 2); ("a", VInt 6)]]
           [[VInt 1]; [VInt 2]]).
  - reflexivity.
  - repeat constructor; by decide_by_eval.
  - simpl. lia.
Defined.

(** ** [Mean] that fails *)

Lemma sum_loop_app column a pre rest zs :
  Forall2 (fun row z => dict_get column row = Some (VInt z)) pre zs →
  sum_loop column (VInt a) (pre ++ rest)
  = sum_loop column (VInt (a + sum_Z zs)) rest.
Proof.
  intros H. revert a. induction H as [|row z pre zs Hrow _ IH]; intros a.
  - simpl. by rewrite Z.add_0_r.
  - cbn [app sum_loop]. apply dict_item_Ok in Hrow. rewrite Hrow.
    cbn [mbind outcome_bind py_add]. rewrite IH. do 2 f_equal.
    unfold sum_Z. simpl. lia.
Qed.

Lemma echo_keys_raise pre key post row kv ans :
  key_tuple pre row = Ok kv →
  dict_get key row = None →
  echo_keys (pre ++ key :: post) (Some row) ans = Raise (KeyError key).
Proof.
  unfold key_tuple. revert kv ans.
  induction pre as [|k pre IH]; intros kv ans Hpre Hmiss.
  - cbn [app echo_keys]. by rewrite (dict_item_missing _ _ Hmiss).
  - simpl in Hpre. apply bind_Ok in Hpre as (v & Hv & Hpre).
    apply bind_Ok in Hpre as (vs & Hvs & _).
    cbn [app echo_keys]. rewrite Hv. cbn [mbind outcome_bind].
    by eapply IH.
Qed.

(** How [Mean] fails, before any row is yielded and whatever the float
    division does: an empty group raises [ZeroDivisionError] when there is
    no grouping key and [NameError] when there is one; after rows that hold
    integers in the column, a row without the column raises its
    [KeyError] and a row with a string in it raises [TypeError]; and a
    grouping key that the last row of the group lacks raises its
    [KeyError] before the division is tried. *)
Theorem Mean_raises fo column :
  Reducer_call fo (Mean column) [] [] = Raise ZeroDivisionError ∧
  (∀ key0 keys,
     Reducer_call fo (Mean column) (key0 :: keys) [] = Raise NameError) ∧
  (∀ group_key pre zs row post,
     Forall2 (fun row z => dict_get column row = Some (VInt z)) pre zs →
     (dict_get column row = None →
      Reducer_call fo (Mean column) group_key (pre ++ row :: post)
      = Raise (KeyError column)) ∧
     (∀ s, dict_get column row = Some (VStr s) →
           Reducer_call fo (Mean column) group_key (pre ++ row :: post)
           = Raise TypeError)) ∧
  (∀ pre_keys key post_keys rows zs last_row kv,
     Forall2 (fun row z => dict_get column row = Some (VInt z)) rows zs →
     last rows = Some last_row →
     key_tuple pre_keys last_row = Ok kv →
     dict_get key last_row = None →
     Reducer_call fo (Mean column) (pre_keys ++ key :: post_keys) rows
     = Raise (KeyError key)).
Proof.
  split_and!.
  - reflexivity.
  - reflexivity.
  - intros group_key pre zs row post Hpre. split.
    + intros Hmiss. cbn [Reducer_call].
      rewrite (sum_loop_app column 0 pre _ zs Hpre). cbn [sum_loop].
      by rewrite (dict_item_missing _ _ Hmiss).
    + intros s Hs. cbn [Reducer_call].
      rewrite (sum_loop_app column 0 pre _ zs Hpre). cbn [sum_loop].
      apply dict_item_Ok in Hs. by rewrite Hs.
  - intros pre_keys key post_keys rows zs last_row kv Hrows Hlast Hkv Hmiss.
    cbn [Reducer_call]. rewrite (sum_loop_ints column 0 rows zs Hrows).
    cbn [mbind outcome_bind]. rewrite Hlast.
    by rewrite (echo_keys_raise _ _ _ _ kv [] Hkv Hmiss).
Qed.

(** ** [Product] that fails half-way *)

Lemma product_loop_app result_column pre rest row :
  product_loop result_column (pre ++ rest) row
  = match product_loop result_column pre row with
    | (Ok _, row') => product_loop result_column rest row'
    | (Raise e, row') => (Raise e, row')
    end.
Proof.
  revert row. induction pre as [|c pre IH]; intros row; [done|].
  cbn [app product_loop]. by destruct (_ ≫= _).
Qed.

(** [Product] whose columns hold integers up to a column that the row
    lacks: the [KeyError] of that column leaves the row it received with
    the product of the columns before it under the result column. *)
Theorem Product_failure_keeps_partial_product fo pre c post result_column l
    (h : heap) row zs :
  h !! l = Some row →
  result_column ∉ pre →
  key_tuple pre row = Ok (VInt <$> zs) →
  c ≠ result_column →
  dict_get c row = None →
  Mapper_call fo (Product (pre ++ c :: post) result_column) l h
  = (Raise (KeyError c),
     <[l := dict_set result_column (VInt (prod_Z zs)) row]> h).
Proof.
  intros Hl Hnotin Hk Hc Hmiss. unfold Mapper_call. rewrite Hl.
  rewrite product_loop_app.
  rewrite (product_loop_ints result_column pre _ zs 1 Hnotin).
  - rewrite dict_set_set, Z.mul_1_l. cbn [product_loop].
    unfold dict_item. rewrite dict_get_set_eq.
    rewrite dict_get_set_ne by done. by rewrite Hmiss.
  - by rewrite dict_get_set_eq.
  - rewrite <- Hk. apply key_tuple_ext. intros k Hkin.
    apply dict_get_set_ne. by intros ->.
Qed.

Lemma Product_failure_keeps_partial_product_witness :
  Mapper_call no_float (Product (["a"] ++ "x" :: ["b"]) "p") 1%nat
    {[ 1%nat := [("a", VInt 2); ("b", VInt 3)] ]}
  = (Raise (KeyError "x"),
     <[1%nat := dict_set "p" (VInt (prod_Z [2]))
                  [("a", VInt 2); ("b", VInt 3)]]>
       {[ 1%nat := [("a", VInt 2); ("b", VInt 3)] ]}).
Proof.
  apply (Product_failure_keeps_partial_product no_float ["a"] "x" ["b"] "p"
           1%nat {[ 1%nat := [("a", VInt 2); ("b", VInt 3)] ]}
           [("a", VInt 2); ("b", VInt 3)] [2]).
  - reflexivity.
  - by decide_by_eval.
  - reflexivity.
  - discriminate.
  - reflexivity.
Defined.

(** ** [Reduce] and the groups *)

(** [Reduce] over rows that the grouping iterator cuts into [groups]: the
    reducer is called on each group in turn, the rows it yields follow one
    another in the order of the groups, and the first call that raises
    ends the run with its exception. *)
Theorem Reduce_call_reduces_each_group fo r keys rows groups :
  groups_of keys rows = Some (Ok groups) →
  Reduce_call fo r keys rows
  = Some (outs ← mapM_out (Reducer_call fo r keys) groups;
          Ok (List.concat outs)).
Proof.
  unfold groups_of, Reduce_call.
  destruct (GroupsCreator_init rows keys) as [g|e] eqn:Hi; [|done].
  intros Hall.
  assert (Hkeys : gc_keys g = keys).
  { destruct rows as [|first rest]; [by injection Hi as <-|].
    cbn [GroupsCreator_init] in Hi.
    apply bind_Ok in Hi as (kv & _ & [= <-]). done. }
  assert (Hlen : (List.length groups ≤ S (List.length rows))%nat).
  { clear -Hall. revert g groups Hall.
    generalize (S (List.length rows)) as fuel.
    induction fuel as [|fuel IH]; intros g groups Hall;
      apply all_groups_inv in Hall
        as [[_ ->]|(fg' & grp & g' & gs & Hf & _ & _ & Hall & ->)];
      simpl; try lia.
    injection Hf as <-. apply IH in Hall. lia. }
  rewrite (Reduce_loop_groups fo r _ g _ groups Hall Hlen).
  by rewrite Hkeys.
Qed.

Lemma Reduce_call_reduces_each_group_witness :
  Reduce_call no_float (Count "n") ["k"]
    [[("k", VInt 1)]; [("k", VInt 1)]; [("k", VInt 2)]]
  = Some (outs ← mapM_out (Reducer_call no_float (Count "n") ["k"])
                    [[[("k", VInt 1)]; [("k", VInt 1)]]; [[("k", VInt 2)]]];
          Ok (List.concat outs)).
Proof.
  apply (Reduce_call_reduces_each_group no_float (Count "n") ["k"]
           [[("k", VInt 1)]; [("k", VInt 1)]; [("k", VInt 2)]]
           [[[("k", VInt 1)]; [("k", VInt 1)]]; [[("k", VInt 2)]]]).
  reflexivity.
Defined.

(** ** Mappers and [Map] that fail *)

#[local] Opaque alloc.

(** A stock mapper other than [Product] that raises leaves every row as it
    was: it writes its result only after computing it. *)
Theorem Mapper_call_failure_leaves_rows fo m l (h : heap) e h' :
  (∀ columns result_column, m ≠ Product columns result_column) →
  Mapper_call fo m l h = (Raise e, h') →
  h' = h.
Proof.
  intros Hm. unfold Mapper_call.
  destruct (h !! l) as [row|] eqn:Hl; [|by intros [= _ <-]].
  destruct m;
    try (intros Hay; apply assign_yield_spec in Hay
           as [(v & _ & [=] & _)|(e' & _ & _ & ->)]; done).
  - done.
  - destruct (_ ≫= _) as [toks|e']; [|by intros [= _ <-]].
    by destruct (alloc_all _ h).
  - by destruct (Hm columns result_column).
  - destruct (condition row) as [[|]|e']; [done | done | by intros [= _ <-]].
  - destruct (project_loop _ _ _) as [result_row|e']; [|by intros [= _ <-]].
    by destruct (alloc result_row h).
Qed.

#[local] Transparent alloc.

Lemma Mapper_call_failure_leaves_rows_witness :
  ({[ 1%nat := [("a", VInt 2)] ]} : heap) = {[ 1%nat := [("a", VInt 2)] ]}.
Proof.
  apply (Mapper_call_failure_leaves_rows no_float (Speed "d" "t" "s") 1%nat
           {[ 1%nat := [("a", VInt 2)] ]} (KeyError "d")).
  - discriminate.
  - reflexivity.
Defined.

(** [Map] stops at the first row on which the mapper raises: the run ends
    with that exception, the rows before it stay as the mapper left them,
    and the rows behind it are not looked at. *)
Theorem Map_call_stops_at_first_failure fo m pre l post (h : heap)
    out h1 e h2 :
  Map_call fo m pre h = (Ok out, h1) →
  Mapper_call fo m l h1 = (Raise e, h2) →
  Map_call fo m (pre ++ l :: post) h = (Raise e, h2).
Proof.
  revert h out. induction pre as [|l0 pre IH]; intros h out.
  - intros [= <- <-] Hl. cbn [app Map_call]. by rewrite Hl.
  - cbn [app Map_call].
    destruct (Mapper_call fo m l0 h) as [[o0|e0] h0]; [|done].
    destruct (Map_call fo m pre h0) as [[o1|e1] h1'] eqn:Hpre; [|done].
    intros [= <- <-] Hl. by rewrite (IH h0 o1 Hpre Hl).
Qed.

Lemma Map_call_stops_at_first_failure_witness :
  Map_call no_float (Product ["a"] "p") ([1%nat] ++ 2%nat :: [3%nat])
    {[ 1%nat := [("a", VInt 2)]; 2%nat := [("b", VInt 2)];
       3%nat := [("a", VInt 5)] ]}
  = (Raise (KeyError "a"),
     {[ 1%nat := [("a", VInt 2); ("p", VInt 2)];
        2%nat := [("b", VInt 2); ("p", VInt 1)];
        3%nat := [("a", VInt 5)] ]}).
Proof.
  apply (Map_call_stops_at_first_failure no_float (Product ["a"] "p")
           [1%nat] 2%nat [3%nat]
           {[ 1%nat := [("a", VInt 2)]; 2%nat := [("b", VInt 2)];
              3%nat := [("a", VInt 5)] ]}
           [1%nat]
           {[ 1%nat := [("a", VInt 2); ("p", VInt 2)];
              2%nat := [("b", VInt 2)]; 3%nat := [("a", VInt 5)] ]}).
  - by vm_compute.
  - by vm_compute.
Defined.

(** ** [compare_key_values] on keys of different types *)

(** On tuples of integers and strings [compare_key_values] raises only
    [TypeError], and only at a position before which the two tuples agree
    and at which one holds a number and the other a string. *)
Theorem compare_key_values_raises first_values second_values e :
  compare_key_values first_values second_values = Raise e →
  e = TypeError ∧
  ∃ i x y,
    first_values !! i = Some x ∧ second_values !! i = Some y ∧
    same_type x y = false ∧
    take i first_values = take i second_values.
Proof.
  revert second_values.
  induction first_values as [|a fs IH]; intros [|b ss]; simpl; try done.
  unfold py_gt. destruct (py_lt a b) as [[|]|e1] eqn:Hab; simpl; [done| |].
  - destruct (py_lt b a) as [[|]|e2] eqn:Hba; simpl; [done| |].
    + intros (-> & i & x & y & Hx & Hy & Hty & Htake)%IH.
      split; [done|]. exists (S i), x, y. simpl.
      rewrite (py_lt_total _ _ Hab Hba), Htake. done.
    + by destruct a, b.
  - intros [= <-]. destruct a as [x|s], b as [y|t]; try done;
      injection Hab as <-; (split; [done|]);
      eexists 0%nat, _, _; simpl; done.
Qed.

Lemma compare_key_values_raises_witness :
  TypeError = TypeError ∧
  ∃ i x y,
    [VInt 1; VInt 2] !! i = Some x ∧ [VInt 1; VStr "2"] !! i = Some y ∧
    same_type x y = false ∧
    take i [VInt 1; VInt 2] = take i [VInt 1; VStr "2"].
Proof.
  apply (compare_key_values_raises [VInt 1; VInt 2] [VInt 1; VStr "2"]).
  reflexivity.
Defined.
